(** * Deep values engine of the computed interface (src/utils.ts)

    A shallow embedding of [checkFieldInTemplate], [shouldUpdate],
    the change handler installed by [useDeepValues] and
    [findValueByPath], followed by the properties established about them.

    Modelling conventions.
    - JavaScript values that flow through the module are JSON data plus
      [undefined]; numbers are the integers (record ids), strings are
      sequences of 8-bit code units.
    - An object literal is an association list kept in JavaScript property
      order (array-index keys ascending, then the other keys in insertion
      order); [obj_set] maintains that order.  The two caches are only ever
      used as dictionaries and are finite maps.
    - An object has its own properties and, through [Object.prototype],
      the inherited members listed in [proto_member].  Where the source
      only tests membership ([key in valObj], line 81) the test is modelled
      in full by [obj_in].  Where the source goes on to read the key it
      tested (lines 135, 168 and 214) an inherited member would yield a
      built-in function, which is no JSON value: there field names,
      collection names, ids and path segments are taken not to name a
      member of [Object.prototype], and [obj_has] decides the test.
    - Objects produced by two different [JSON.parse] calls, or by the server
      and by the form, are never reference-equal; [===] therefore holds
      between primitives only.
    - The request client is a parameter of the configuration.  A request is
      recorded structurally (path and id list) and every request is logged,
      so that the number of fetches is observable.
    - [handler] is one firing of the watcher callback read without
      interruption, each request answered at once.  [handler_task] is the
      same code with its awaits exposed; [step] lets firings overlap as
      the watcher, which does not wait for its callback, lets them, and
      [useDeepValues] is what the caller observes then. *)

From Stdlib Require Import Ascii String.
From stdpp Require Import gmap strings list pretty.

Set Warnings "-register-all".

#[local] Arguments String.append !_ _ : simpl nomatch.

Local Open Scope string_scope.
Local Open Scope list_scope.
Local Open Scope Z_scope.

(* ===================================================================== *)
(** ** JavaScript values                                                  *)
(* ===================================================================== *)

Inductive value : Type :=
| VUndef
| VNull
| VBool (b : bool)
| VNum (n : Z)
| VStr (s : string)
| VArr (items : list value)
| VObj (props : list (string * value)).

(** An object in property order. *)
Abbreviation obj := (list (string * value)).

Inductive error := TypeError | FetchFailure.

Inductive result (A : Type) : Type :=
| Ok (a : A)
| Throw (e : error).
Arguments Ok {A} a.
Arguments Throw {A} e.

Definition rbind {A B} (r : result A) (k : A → result B) : result B :=
  match r with
  | Ok a => k a
  | Throw e => Throw e
  end.

(** [typeof v] *)
Definition js_typeof (v : value) : string :=
  match v with
  | VUndef => "undefined"
  | VNull => "object"
  | VBool _ => "boolean"
  | VNum _ => "number"
  | VStr _ => "string"
  | VArr _ => "object"
  | VObj _ => "object"
  end.

(** [v instanceof Array] *)
Definition is_array (v : value) : bool :=
  match v with VArr _ => true | _ => false end.

(** ToBoolean *)
Definition truthy (v : value) : bool :=
  match v with
  | VUndef | VNull => false
  | VBool b => b
  | VNum n => negb (n =? 0)
  | VStr s => negb (String.eqb s "")
  | VArr _ | VObj _ => true
  end.

(** [a === b] between values of distinct provenance: primitives compare by
    value, objects and arrays by reference and hence never equal. *)
Definition strict_eq (a b : value) : bool :=
  match a, b with
  | VUndef, VUndef => true
  | VNull, VNull => true
  | VBool x, VBool y => Bool.eqb x y
  | VNum x, VNum y => x =? y
  | VStr x, VStr y => String.eqb x y
  | _, _ => false
  end.

(** [a ?? b] *)
Definition nullish_or (a b : value) : value :=
  match a with
  | VUndef | VNull => b
  | _ => a
  end.

(* --------------------------------------------------------------------- *)
(** *** Strings                                                           *)
(* --------------------------------------------------------------------- *)

Definition dquote : ascii := ascii_of_nat 34.
Definition backslash : ascii := ascii_of_nat 92.
Definition LF : ascii := ascii_of_nat 10.
Definition CR : ascii := ascii_of_nat 13.

Fixpoint join (sep : string) (l : list string) : string :=
  match l with
  | [] => ""
  | [s] => s
  | s :: rest => s +:+ sep +:+ join sep rest
  end.

(** [hay.includes(needle)] on strings. *)
Fixpoint str_includes (needle hay : string) : bool :=
  String.prefix needle hay ||
  match hay with
  | EmptyString => false
  | String _ rest => str_includes needle rest
  end.

(** ToString / ToPropertyKey *)
Fixpoint to_js_string (v : value) : string :=
  match v with
  | VUndef => "undefined"
  | VNull => "null"
  | VBool b => if b then "true" else "false"
  | VNum n => pretty n
  | VStr s => s
  | VArr l =>
      join "," (map (fun x => match x with
                              | VUndef | VNull => ""
                              | _ => to_js_string x
                              end) l)
  | VObj _ => "[object Object]"
  end.

(** Array-index property keys: canonical decimal strings below 2^32 - 1. *)
Definition digit_val (c : ascii) : option N :=
  let n := N_of_ascii c in
  if ((48 <=? n) && (n <=? 57))%N then Some (n - 48)%N else None.

Fixpoint parse_digits (s : string) (acc : N) : option N :=
  match s with
  | EmptyString => Some acc
  | String c rest =>
      match digit_val c with
      | Some d => parse_digits rest (acc * 10 + d)%N
      | None => None
      end
  end.

Definition array_index (s : string) : option N :=
  match s with
  | EmptyString => None
  | String c rest =>
      if Ascii.eqb c "0"%char
      then (if String.eqb rest "" then Some 0%N else None)
      else match parse_digits s 0 with
           | Some n => if (n <? 4294967295)%N then Some n else None
           | None => None
           end
  end.

(* --------------------------------------------------------------------- *)
(** *** Objects in property order                                         *)
(* --------------------------------------------------------------------- *)

Fixpoint obj_get (k : string) (o : obj) : option value :=
  match o with
  | [] => None
  | (k', v) :: rest => if String.eqb k k' then Some v else obj_get k rest
  end.

(** [k] is an own property of [o] *)
Definition obj_has (k : string) (o : obj) : bool :=
  match obj_get k o with Some _ => true | None => false end.

(** The string-keyed members of [Object.prototype], which every object made
    by a literal or by [JSON.parse] inherits. *)
Definition proto_member (k : string) : bool :=
  existsb (String.eqb k)
    ["constructor"; "hasOwnProperty"; "isPrototypeOf"; "propertyIsEnumerable";
     "toLocaleString"; "toString"; "valueOf"; "__proto__";
     "__defineGetter__"; "__defineSetter__";
     "__lookupGetter__"; "__lookupSetter__"].

(** [k in o] for an object [o]: own or inherited. *)
Definition obj_in (k : string) (o : obj) : bool :=
  obj_has k o || proto_member k.

(** [o[k]] for an object [o] *)
Definition obj_read (k : string) (o : obj) : value :=
  default VUndef (obj_get k o).

(** [Object.keys(o)] *)
Definition obj_keys (o : obj) : list string := map fst o.

Fixpoint obj_replace (k : string) (v : value) (o : obj) : obj :=
  match o with
  | [] => []
  | (k', v') :: rest =>
      if String.eqb k k' then (k, v) :: rest
      else (k', v') :: obj_replace k v rest
  end.

Fixpoint obj_insert_index (n : N) (k : string) (v : value) (o : obj) : obj :=
  match o with
  | [] => [(k, v)]
  | (k', v') :: rest =>
      match array_index k' with
      | Some n' =>
          if (n' <? n)%N then (k', v') :: obj_insert_index n k v rest
          else (k, v) :: o
      | None => (k, v) :: o
      end
  end.

(** [o[k] = v] *)
Definition obj_set (k : string) (v : value) (o : obj) : obj :=
  if obj_has k o then obj_replace k v o
  else match array_index k with
       | Some n => obj_insert_index n k v o
       | None => o ++ [(k, v)]
       end.

(** [{ ...dst, ...src }] where [dst] is the object built so far. *)
Definition spread (src dst : obj) : obj :=
  fold_left (fun acc kv => obj_set kv.1 kv.2 acc) src dst.

Fixpoint chars_of (s : string) : list string :=
  match s with
  | EmptyString => []
  | String c rest => String c "" :: chars_of rest
  end.

(** The own enumerable properties copied by [...v]. *)
Definition own_enumerable (v : value) : obj :=
  match v with
  | VObj o => o
  | VArr l => imap (fun i x => (pretty (N.of_nat i), x)) l
  | VStr s => imap (fun i c => (pretty (N.of_nat i), VStr c)) (chars_of s)
  | _ => []
  end.

(** [v[k]]: throws on [null] and [undefined]. *)
Definition js_get (v : value) (k : string) : result value :=
  match v with
  | VUndef | VNull => Throw TypeError
  | VObj o => Ok (obj_read k o)
  | VArr l =>
      match array_index k with
      | Some n => Ok (default VUndef (l !! N.to_nat n))
      | None => if String.eqb k "length" then Ok (VNum (Z.of_nat (length l)))
                else Ok VUndef
      end
  | VStr s =>
      match array_index k with
      | Some n => Ok (default VUndef (VStr <$> (chars_of s !! N.to_nat n)))
      | None => if String.eqb k "length"
                then Ok (VNum (Z.of_nat (String.length s)))
                else Ok VUndef
      end
  | VBool _ | VNum _ => Ok VUndef
  end.

(** [k in v], for a key [k] that names no member of a built-in prototype
    (the caller reads [v[k]] next): throws unless [v] is an object or an
    array. *)
Definition js_in (k : string) (v : value) : result bool :=
  match v with
  | VObj o => Ok (obj_has k o)
  | VArr l =>
      match array_index k with
      | Some n => Ok (bool_decide (N.to_nat n < length l)%nat)
      | None => Ok (String.eqb k "length")
      end
  | _ => Throw TypeError
  end.

(** [l.includes(x)] on arrays *)
Definition arr_includes (l : list value) (x : value) : bool :=
  existsb (fun y => strict_eq y x) l.

(** [l.concat(v)]: an array argument is spliced, anything else appended. *)
Definition arr_concat (l : list value) (v : value) : list value :=
  match v with
  | VArr l' => l ++ l'
  | _ => l ++ [v]
  end.

(* --------------------------------------------------------------------- *)
(** *** JSON.stringify                                                    *)
(* --------------------------------------------------------------------- *)

Definition hex_digit (n : N) : ascii :=
  ascii_of_N (if (n <? 10)%N then 48 + n else 87 + n)%N.

Definition escape_char (c : ascii) : string :=
  let n := N_of_ascii c in
  if Ascii.eqb c dquote then String backslash (String dquote "")
  else if Ascii.eqb c backslash then String backslash (String backslash "")
  else if (n =? 8)%N then String backslash "b"
  else if (n =? 9)%N then String backslash "t"
  else if (n =? 10)%N then String backslash "n"
  else if (n =? 12)%N then String backslash "f"
  else if (n =? 13)%N then String backslash "r"
  else if (n <? 32)%N
       then String backslash
              ("u00" +:+ String (hex_digit (n / 16)) (String (hex_digit (n mod 16)) ""))
  else String c "".

Fixpoint escape (s : string) : string :=
  match s with
  | EmptyString => ""
  | String c rest => escape_char c +:+ escape rest
  end.

Definition quote (s : string) : string :=
  String dquote (escape s +:+ String dquote "").

(** [JSON.stringify(v)]; [None] is the result [undefined]. *)
Fixpoint stringify (v : value) : option string :=
  match v with
  | VUndef => None
  | VNull => Some "null"
  | VBool b => Some (if b then "true" else "false")
  | VNum n => Some (pretty n)
  | VStr s => Some (quote s)
  | VArr l =>
      Some ("[" +:+ join "," (map (fun x => default "null" (stringify x)) l) +:+ "]")
  | VObj o =>
      let members :=
        (fix go (o : obj) : list string :=
           match o with
           | [] => []
           | (k, x) :: rest =>
               match stringify x with
               | Some s => (quote k +:+ ":" +:+ s) :: go rest
               | None => go rest
               end
           end) o in
      Some ("{" +:+ join "," members +:+ "}")
  end.

Definition opt_string_eqb (a b : option string) : bool :=
  match a, b with
  | None, None => true
  | Some x, Some y => String.eqb x y
  | _, _ => false
  end.

(* ===================================================================== *)
(** ** Template field matcher                                             *)
(* ===================================================================== *)

Fixpoint str_drop (n : nat) (s : string) : string :=
  match n, s with
  | S n', String _ rest => str_drop n' rest
  | _, _ => s
  end.

(** Characters that [.] refuses (no [s] flag on the pattern). *)
Definition is_line_terminator (c : ascii) : bool :=
  Ascii.eqb c LF || Ascii.eqb c CR.

(** What [.] accepts in the source's pattern. *)
Definition dot (c : ascii) : bool := negb (is_line_terminator c).

(** [.*?}}] tried at one position: the shortest run of characters accepted
    by [accept] that is followed by two closing braces. *)
Fixpoint lazy_body (accept : ascii → bool) (s : string) : option string :=
  match s with
  | EmptyString => None
  | String c rest =>
      if String.prefix "}}" s then Some ""
      else if accept c then String c <$> lazy_body accept rest
      else None
  end.

(** The pattern anchored at the start of [s]. *)
Definition match_at (accept : ascii → bool) (s : string) : option string :=
  if String.prefix "{{" s
  then (fun body => "{{" +:+ body +:+ "}}") <$> lazy_body accept (str_drop 2 s)
  else None.

(** The global scan: leftmost match first, resuming after each match.
    [skip] counts the characters still inside the previous match. *)
Fixpoint scan (accept : ascii → bool) (skip : nat) (s : string)
  : list string :=
  match s with
  | EmptyString => []
  | String _ rest =>
      match skip with
      | S n => scan accept n rest
      | O =>
          match match_at accept s with
          | Some m => m :: scan accept (String.length m - 1) rest
          | None => scan accept 0 rest
          end
      end
  end.

(** [template.match(/{{.*?}}/g)]; [None] is [null]. *)
Definition template_match (template : string) : option (list string) :=
  match scan dot 0 template with
  | [] => None
  | l => Some l
  end.

Definition checkFieldInTemplate (template field : string) : bool :=
  let matches := template_match template in
  existsb (fun m => str_includes field m) (default [] matches).

(* ===================================================================== *)
(** ** The trigger gate                                                   *)
(* ===================================================================== *)

Definition changedFields (computedField : string) (val oldVal : obj)
  : list string :=
  filter (fun key =>
            negb (String.eqb key computedField) &&
            negb (strict_eq (obj_read key val) (obj_read key oldVal)) &&
            negb (opt_string_eqb (stringify (obj_read key val))
                                 (stringify (obj_read key oldVal))) = true)
         (obj_keys (spread val (spread oldVal []))).

Definition shouldUpdate (template computedField : string) (val oldVal : obj)
  : bool :=
  match changedFields computedField val oldVal with
  | [] => true
  | fields => existsb (fun field => checkFieldInTemplate template field) fields
  end.

(* ===================================================================== *)
(** ** Path lookup                                                        *)
(* ===================================================================== *)

(** [s.split(sep)] for a one-character separator. *)
Fixpoint split_on (sep : ascii) (s : string) : list string :=
  match s with
  | EmptyString => [""]
  | String c rest =>
      if Ascii.eqb c sep then "" :: split_on sep rest
      else match split_on sep rest with
           | h :: t => String c h :: t
           | [] => [String c ""]
           end
  end.

Record path_result := { pr_value : value; pr_found : bool }.

Fixpoint walk_path (value : value) (segments : list string)
  : result path_result :=
  match segments with
  | [] => Ok {| pr_value := value; pr_found := true |}
  | i :: rest =>
      rbind (js_in i value) (fun present =>
        if present
        then rbind (js_get value i) (fun value' => walk_path value' rest)
        else Ok {| pr_value := VNull; pr_found := false |})
  end.

Definition findValueByPath (o : obj) (path : string) : result path_result :=
  walk_path (VObj o) (split_on "."%char path).

(* ===================================================================== *)
(** ** Relations                                                          *)
(* ===================================================================== *)

Record RelationMeta := {
  one_field : option string;
  many_field : option string
}.

Record Relation := {
  collection : string;
  related_collection : option string;
  meta : option RelationMeta
}.

(** [[rel.meta?.one_field, rel.meta?.many_field].includes(key)] *)
Definition relation_mentions (key : string) (rel : Relation) : bool :=
  match meta rel with
  | None => false
  | Some m =>
      bool_decide (one_field m = Some key) ||
      bool_decide (many_field m = Some key)
  end.

(** [relation.meta?.f] used as a property key: [undefined] and [null] are
    turned into their names. *)
Definition meta_key (rel : Relation) (f : RelationMeta → option string)
  : string :=
  match meta rel with
  | None => "undefined"
  | Some m => default "null" (f m)
  end.

(* ===================================================================== *)
(** ** Engine state and effects                                           *)
(* ===================================================================== *)

Inductive request :=
| GetField (coll : string) (pk : value) (field : string)
| GetItems (path : string) (ids : list value).

Record state := {
  fieldCache : gmap string value;
  itemCache : gmap string (gmap string value);
  finalValues : obj;
  requests : list request
}.

(** The arguments of [useDeepValues] together with the ambient user store
    and request client.  The client answers a request given the requests
    made before it; [None] is a rejected request. *)
Record env := {
  env_relations : list Relation;
  env_collection : string;
  env_computedField : string;
  env_pk : value;
  env_template : string;
  env_currentUser : value;
  env_api : list request → request → option value
}.

Definition M (A : Type) : Type := state → state * result A.

Definition ret {A} (a : A) : M A := fun st => (st, Ok a).

Definition bind {A B} (c : M A) (k : A → M B) : M B :=
  fun st =>
    match c st with
    | (st', Ok a) => k a st'
    | (st', Throw e) => (st', Throw e)
    end.

Notation "'do' x <- c ; k" := (bind c (fun x => k))
  (at level 10, x name, c at level 100, k at level 200).
Notation "'do_' c ; k" := (bind c (fun _ => k))
  (at level 10, c at level 100, k at level 200).

Definition lift {A} (r : result A) : M A := fun st => (st, r).

Definition get_state : M state := fun st => (st, Ok st).

Definition clear_caches : M unit :=
  fun st => ({| fieldCache := ∅; itemCache := ∅;
                finalValues := finalValues st; requests := requests st |},
             Ok ()).

Definition set_fieldCache (key : string) (data : value) : M unit :=
  fun st => ({| fieldCache := <[key := data]> (fieldCache st);
                itemCache := itemCache st;
                finalValues := finalValues st; requests := requests st |},
             Ok ()).

(** [itemCache[rc][k] = item], creating [itemCache[rc]] first if needed. *)
Definition set_itemCache (rc k : string) (item : value) : M unit :=
  fun st =>
    let items :=
      match itemCache st !! rc with
      | Some m => <[k := item]> m
      | None => {[ k := item ]}
      end in
    ({| fieldCache := fieldCache st;
        itemCache := <[rc := items]> (itemCache st);
        finalValues := finalValues st; requests := requests st |},
     Ok ()).

Definition set_finalValues (o : obj) : M unit :=
  fun st => ({| fieldCache := fieldCache st; itemCache := itemCache st;
                finalValues := o; requests := requests st |},
             Ok ()).

(** [await api.get(...)]: the request is logged, a rejection aborts. *)
Definition fetch (E : env) (r : request) : M value :=
  fun st =>
    let st' := {| fieldCache := fieldCache st; itemCache := itemCache st;
                  finalValues := finalValues st;
                  requests := requests st ++ [r] |} in
    match env_api E (requests st) r with
    | Some v => (st', Ok v)
    | None => (st', Throw FetchFailure)
    end.

Fixpoint mapM {A B} (f : A → M B) (l : list A) : M (list B) :=
  match l with
  | [] => ret []
  | x :: rest => do y <- f x; do ys <- mapM f rest; ret (y :: ys)
  end.

Fixpoint foldM {A B} (f : A → B → M A) (l : list B) (a : A) : M A :=
  match l with
  | [] => ret a
  | x :: rest => do a' <- f a x; foldM f rest a'
  end.

Fixpoint rmap {A B} (f : A → result B) (l : list A) : result (list B) :=
  match l with
  | [] => Ok []
  | x :: rest =>
      rbind (f x) (fun y => rbind (rmap f rest) (fun ys => Ok (y :: ys)))
  end.

(* ===================================================================== *)
(** ** Per-field resolution                                               *)
(* ===================================================================== *)

(** The mutation used when the field has no value (line 99). *)
Definition default_changes : value :=
  VObj [("create", VArr []); ("update", VArr []); ("delete", VArr [])].

Definition is_number_or_string (v : value) : bool :=
  match v with VNum _ | VStr _ => true | _ => false end.

(** Many-to-one normalisation (lines 109-124); [prev] is [oldValObj[key]]. *)
Definition normalize_m2o (fieldChanges prev : value) : M value :=
  if is_number_or_string fieldChanges then
    do_ (if String.eqb (js_typeof prev) "object" then clear_caches
         else ret ());
    ret (VObj [("update", VArr [VObj [("id", fieldChanges)]])])
  else if String.eqb (js_typeof fieldChanges) "object" then
    do has_id <- lift (js_in "id" fieldChanges);
    if has_id : bool
    then ret (VObj [("update", VArr [fieldChanges])])
    else ret (VObj [("create",
                     VArr [VObj (spread (own_enumerable fieldChanges) [])])])
  else ret fieldChanges.

(** The one-to-many reset (lines 126-131). *)
Definition reset_o2m (fieldChanges prev : value) : M unit :=
  if is_array fieldChanges && negb (is_array prev) then clear_caches
  else ret ().

(** The baseline ids of a one-to-many field (lines 133-146). *)
Definition baseline_ids (E : env) (pkFinal : value) (key : string)
  : M (list value) :=
  if negb (strict_eq pkFinal (VStr "+")) then
    do st <- get_state;
    do data <-
      match fieldCache st !! key with
      | Some data => ret data
      | None =>
          do data <- fetch E (GetField (env_collection E) pkFinal key);
          do_ set_fieldCache key data;
          ret data
      end;
    ret (arr_concat [] data)
  else ret [].

(** [update.map(({ id }) => id)] *)
Definition map_ids (update : value) : result (list value) :=
  match update with
  | VArr l => rmap (fun u => js_get u "id") l
  | _ => Throw TypeError
  end.

(** [arrayOfIds.filter((id) => !del.includes(id))]; the callback, and with
    it the call of [includes], only runs on a non-empty array. *)
Definition filter_deleted (del : value) (arrayOfIds : list value)
  : result (list value) :=
  match del with
  | VArr d => Ok (List.filter (fun id => negb (arr_includes d id)) arrayOfIds)
  | VStr s =>
      Ok (List.filter (fun id => negb (str_includes (to_js_string id) s))
                      arrayOfIds)
  | _ => match arrayOfIds with
         | [] => Ok []
         | _ :: _ => Throw TypeError
         end
  end.

(** Dropping updated and deleted ids from the baseline (lines 148-155). *)
Definition drop_pending (fieldChanges : value) (arrayOfIds : list value)
  : result (list value) :=
  rbind (js_get fieldChanges "update") (fun update =>
  rbind (if truthy update
         then rbind (map_ids update) (fun updatedIds =>
                Ok (List.filter (fun id => negb (arr_includes updatedIds id))
                                arrayOfIds))
         else Ok arrayOfIds) (fun arrayOfIds =>
  rbind (js_get fieldChanges "delete") (fun del =>
  if truthy del then filter_deleted del arrayOfIds else Ok arrayOfIds))).

(** Appending the update-list ids (lines 158-160). *)
Definition add_updated (fieldChanges : value) (arrayOfIds : list value)
  : result (list value) :=
  rbind (js_get fieldChanges "update") (fun update =>
  if truthy update
  then rbind (map_ids update) (fun ids => Ok (arrayOfIds ++ ids))
  else Ok arrayOfIds).

(** [update?.find(({ id }) => item_id === id)] *)
Fixpoint find_by_id (item_id : value) (l : list value) : result value :=
  match l with
  | [] => Ok VUndef
  | u :: rest =>
      rbind (js_get u "id") (fun id =>
        if strict_eq item_id id then Ok u else find_by_id item_id rest)
  end.

Definition find_update (update item_id : value) : result value :=
  match update with
  | VUndef | VNull => Ok VUndef
  | VArr l => find_by_id item_id l
  | _ => Throw TypeError
  end.

(** The callback of [data.map] (lines 177-188). *)
Definition merge_item (rc : string) (fieldChanges item : value) : M value :=
  do item_id <- lift (js_get item "id");
  do_ set_itemCache rc (to_js_string item_id) item;
  do update <- lift (js_get fieldChanges "update");
  do found <- lift (find_update update item_id);
  ret (VObj (spread (own_enumerable found) (spread (own_enumerable item) []))).

(** The request path of a related collection (line 164). *)
Definition items_path (rc : string) : string :=
  if String.eqb rc "directus_users" then "/users" else "items/" +:+ rc.

(** [(await api.get(path, ...)).data.data], on which [map] is then called. *)
Definition fetch_items (E : env) (rc : string) (arrayOfIds : list value)
  : M (list value) :=
  do r <- fetch E (GetItems (items_path rc) arrayOfIds);
  match r with
  | VArr l => ret l
  | _ => lift (Throw TypeError)
  end.

(** [arrayOfIds.every(id => id in cached)] *)
Definition all_cached (cached : gmap string value) (arrayOfIds : list value)
  : bool :=
  forallb (fun id => bool_decide (is_Some (cached !! to_js_string id)))
          arrayOfIds.

(** Resolving the entities of [arrayOfIds] (lines 166-189). *)
Definition resolve_items (E : env) (rc : string) (fieldChanges : value)
    (arrayOfIds : list value) : M (list value) :=
  do st <- get_state;
  do data <-
    match itemCache st !! rc with
    | Some cached =>
        if all_cached cached arrayOfIds
        then ret (map (fun id => default VUndef (cached !! to_js_string id))
                      arrayOfIds)
        else fetch_items E rc arrayOfIds
    | None => fetch_items E rc arrayOfIds
    end;
  mapM (merge_item rc fieldChanges) data.

(** Normalising the raw value and collecting the baseline ids
    (lines 108-156).  Returns the mutation and [arrayOfIds]. *)
Definition pending_ids (E : env) (isM2O : bool) (pkFinal : value)
    (key : string) (fieldChanges prev : value) : M (value * list value) :=
  if isM2O then
    do fieldChanges <- normalize_m2o fieldChanges prev;
    ret (fieldChanges, [])
  else
    do_ reset_o2m fieldChanges prev;
    do arrayOfIds <- baseline_ids E pkFinal key;
    do arrayOfIds <- lift (drop_pending fieldChanges arrayOfIds);
    ret (fieldChanges, arrayOfIds).

(** Lines 162-190. *)
Definition related_data (E : env) (isM2O : bool) (relation : Relation)
    (fieldChanges : value) (arrayOfIds : list value) : M (list value) :=
  match arrayOfIds with
  | [] => ret []
  | _ :: _ =>
      let relatedCollection :=
        if isM2O then related_collection relation
        else Some (collection relation) in
      match relatedCollection with
      | Some rc =>
          if negb (String.eqb rc "")
          then resolve_items E rc fieldChanges arrayOfIds
          else ret []
      | None => ret []
      end
  end.

(** Lines 192-197. *)
Definition field_value (isM2O : bool) (fieldChanges : value)
    (arrayOfData : list value) : result value :=
  rbind (js_get fieldChanges "create") (fun create =>
    let arrayOfData :=
      if truthy create then arr_concat arrayOfData create else arrayOfData in
    Ok (if isM2O then default VUndef (head arrayOfData)
        else VArr arrayOfData)).

(** The resolution of one relation-bearing, template-referenced field
    (lines 96-197). *)
Definition resolve_relation (E : env) (valObj oldValObj : obj)
    (pkFinal : value) (key : string) (relation : Relation) : M value :=
  let isM2O := String.eqb (collection relation) (env_collection E) in
  let fieldName :=
    if isM2O then meta_key relation many_field
    else meta_key relation one_field in
  let fieldChanges := nullish_or (obj_read fieldName valObj) default_changes in
  do p <- pending_ids E isM2O pkFinal key fieldChanges (obj_read key oldValObj);
  do arrayOfIds <- lift (add_updated p.1 p.2);
  do arrayOfData <- related_data E isM2O relation p.1 arrayOfIds;
  lift (field_value isM2O p.1 arrayOfData).

(** The body of the loop over [Object.keys(valObj)] (lines 89-198). *)
Definition resolve_field (E : env) (valObj oldValObj : obj) (pkFinal : value)
    (relationalData : obj) (key : string) : M obj :=
  match List.find (relation_mentions key) (env_relations E) with
  | None => ret relationalData
  | Some relation =>
      if negb (checkFieldInTemplate (env_template E) key)
      then ret relationalData
      else
        do v <- resolve_relation E valObj oldValObj pkFinal key relation;
        ret (obj_set key v relationalData)
  end.

(* ===================================================================== *)
(** ** The change handler                                                 *)
(* ===================================================================== *)

(** Lines 80-84. *)
Definition null_removed (oldValObj valObj : obj) : obj :=
  fold_left (fun valObj key =>
               if negb (obj_in key valObj) then obj_set key VNull valObj
               else valObj)
            (obj_keys oldValObj) valObj.

(** [valObj.id || pk.value] *)
Definition pk_final (E : env) (valObj : obj) : value :=
  if truthy (obj_read "id" valObj) then obj_read "id" valObj else env_pk E.

(** Line 200. *)
Definition compose_final (E : env) (valObj relationalData : obj) : obj :=
  obj_set "__currentUser" (env_currentUser E)
          (spread relationalData (spread valObj [])).

(** The recomputation proper (lines 80-200). *)
Definition recompute (E : env) (val oldValObj : obj) : M unit :=
  let valObj := null_removed oldValObj val in
  let pkFinal := pk_final E valObj in
  do relationalData <-
    foldM (resolve_field E valObj oldValObj pkFinal) (obj_keys valObj) [];
  set_finalValues (compose_final E valObj relationalData).

(** The watcher callback (lines 73-201).  [val] and [oldVal] are the parsed
    serialisations; [oldVal = None] on the immediate first call. *)
Definition handler (E : env) (val : obj) (oldVal : option obj) : M unit :=
  let oldValObj := default [] oldVal in
  if negb (shouldUpdate (env_template E) (env_computedField E) val oldValObj)
  then ret ()
  else recompute E val oldValObj.

(** The state in which [useDeepValues] installs the watcher. *)
Definition initial_state (E : env) : state :=
  {| fieldCache := ∅; itemCache := ∅;
     finalValues := [("__currentUser", env_currentUser E)];
     requests := [] |}.

(* ===================================================================== *)
(** ** Firings that overlap                                               *)
(* ===================================================================== *)

(** The watcher does not wait for its callback.  Between two awaits a
    firing runs undisturbed; while it awaits the answer to a request,
    other firings may start or go on.  A firing with its awaits exposed is
    done, or runs an uninterrupted stretch of code and goes on, or awaits
    the answer to a request and goes on with it. *)
Inductive task (A : Type) : Type :=
| Done (r : result A)
| Atomic {X : Type} (c : M X) (k : X → task A)
| Await (q : request) (k : value → task A).
Arguments Done {A} r.
Arguments Atomic {A X} c k.
Arguments Await {A} q k.

Fixpoint bindT {A B} (t : task A) (f : A → task B) : task B :=
  match t with
  | Done (Ok a) => f a
  | Done (Throw e) => Done (Throw e)
  | Atomic c k => Atomic c (fun x => bindT (k x) f)
  | Await q k => Await q (fun v => bindT (k v) f)
  end.

Notation "'doT' x <- c ; k" := (bindT c (fun x => k))
  (at level 10, x name, c at level 100, k at level 200).
Notation "'doT_' c ; k" := (bindT c (fun _ => k))
  (at level 10, c at level 100, k at level 200).

(** Code without an await. *)
Definition atomic {A} (c : M A) : task A := Atomic c (fun x => Done (Ok x)).

(** [await api.get(...)] *)
Definition fetchT (q : request) : task value := Await q (fun v => Done (Ok v)).

Fixpoint foldT {A B} (f : A → B → task A) (l : list B) (a : A) : task A :=
  match l with
  | [] => Done (Ok a)
  | x :: rest => doT a' <- f a x; foldT f rest a'
  end.

(** The baseline ids of a one-to-many field (lines 133-146). *)
Definition baseline_ids_task (E : env) (pkFinal : value) (key : string)
  : task (list value) :=
  if negb (strict_eq pkFinal (VStr "+")) then
    doT st <- atomic get_state;
    doT data <-
      match fieldCache st !! key with
      | Some data => Done (Ok data)
      | None =>
          doT data <- fetchT (GetField (env_collection E) pkFinal key);
          doT_ atomic (set_fieldCache key data);
          Done (Ok data)
      end;
    Done (Ok (arr_concat [] data))
  else Done (Ok []).

Definition fetch_items_task (rc : string) (arrayOfIds : list value)
  : task (list value) :=
  doT r <- fetchT (GetItems (items_path rc) arrayOfIds);
  match r with
  | VArr l => Done (Ok l)
  | _ => Done (Throw TypeError)
  end.

(** Resolving the entities of [arrayOfIds] (lines 166-189). *)
Definition resolve_items_task (rc : string) (fieldChanges : value)
    (arrayOfIds : list value) : task (list value) :=
  doT st <- atomic get_state;
  doT data <-
    match itemCache st !! rc with
    | Some cached =>
        if all_cached cached arrayOfIds
        then Done (Ok (map (fun id => default VUndef (cached !! to_js_string id))
                           arrayOfIds))
        else fetch_items_task rc arrayOfIds
    | None => fetch_items_task rc arrayOfIds
    end;
  atomic (mapM (merge_item rc fieldChanges) data).

(** Lines 108-156. *)
Definition pending_ids_task (E : env) (isM2O : bool) (pkFinal : value)
    (key : string) (fieldChanges prev : value) : task (value * list value) :=
  if isM2O then
    doT fieldChanges <- atomic (normalize_m2o fieldChanges prev);
    Done (Ok (fieldChanges, []))
  else
    doT_ atomic (reset_o2m fieldChanges prev);
    doT arrayOfIds <- baseline_ids_task E pkFinal key;
    doT arrayOfIds <- Done (drop_pending fieldChanges arrayOfIds);
    Done (Ok (fieldChanges, arrayOfIds)).

(** Lines 162-190. *)
Definition related_data_task (E : env) (isM2O : bool) (relation : Relation)
    (fieldChanges : value) (arrayOfIds : list value) : task (list value) :=
  match arrayOfIds with
  | [] => Done (Ok [])
  | _ :: _ =>
      let relatedCollection :=
        if isM2O then related_collection relation
        else Some (collection relation) in
      match relatedCollection with
      | Some rc =>
          if negb (String.eqb rc "")
          then resolve_items_task rc fieldChanges arrayOfIds
          else Done (Ok [])
      | None => Done (Ok [])
      end
  end.

(** Lines 96-197. *)
Definition resolve_relation_task (E : env) (valObj oldValObj : obj)
    (pkFinal : value) (key : string) (relation : Relation) : task value :=
  let isM2O := String.eqb (collection relation) (env_collection E) in
  let fieldName :=
    if isM2O then meta_key relation many_field
    else meta_key relation one_field in
  let fieldChanges := nullish_or (obj_read fieldName valObj) default_changes in
  doT p <- pending_ids_task E isM2O pkFinal key fieldChanges
             (obj_read key oldValObj);
  doT arrayOfIds <- Done (add_updated p.1 p.2);
  doT arrayOfData <- related_data_task E isM2O relation p.1 arrayOfIds;
  Done (field_value isM2O p.1 arrayOfData).

(** Lines 89-198. *)
Definition resolve_field_task (E : env) (valObj oldValObj : obj)
    (pkFinal : value) (relationalData : obj) (key : string) : task obj :=
  match List.find (relation_mentions key) (env_relations E) with
  | None => Done (Ok relationalData)
  | Some relation =>
      if negb (checkFieldInTemplate (env_template E) key)
      then Done (Ok relationalData)
      else
        doT v <- resolve_relation_task E valObj oldValObj pkFinal key relation;
        Done (Ok (obj_set key v relationalData))
  end.

(** Lines 80-200. *)
Definition recompute_task (E : env) (val oldValObj : obj) : task unit :=
  let valObj := null_removed oldValObj val in
  let pkFinal := pk_final E valObj in
  doT relationalData <-
    foldT (resolve_field_task E valObj oldValObj pkFinal) (obj_keys valObj) [];
  atomic (set_finalValues (compose_final E valObj relationalData)).

(** The watcher callback (lines 73-201), awaits exposed. *)
Definition handler_task (E : env) (val : obj) (oldVal : option obj)
  : task unit :=
  let oldValObj := default [] oldVal in
  if negb (shouldUpdate (env_template E) (env_computedField E) val oldValObj)
  then Done (Ok ())
  else recompute_task E val oldValObj.

(** A firing read without interruption: every request is answered, by the
    client of the configuration, before anything else happens. *)
Fixpoint exec (E : env) {A} (t : task A) : M A :=
  match t with
  | Done r => lift r
  | Atomic c k => do x <- c; exec E (k x)
  | Await q k => do v <- fetch E q; exec E (k v)
  end.

(** One uninterrupted stretch of a firing: it runs until it is done or
    awaits. *)
Inductive outcome (A : Type) : Type :=
| Finished (r : result A)
| Suspended (q : request) (k : value → task A).
Arguments Finished {A} r.
Arguments Suspended {A} q k.

Definition log (q : request) (st : state) : state :=
  {| fieldCache := fieldCache st; itemCache := itemCache st;
     finalValues := finalValues st; requests := requests st ++ [q] |}.

Fixpoint stretch {A} (t : task A) (st : state) : state * outcome A :=
  match t with
  | Done r => (st, Finished r)
  | Atomic c k =>
      match c st with
      | (st', Ok x) => stretch (k x) st'
      | (st', Throw e) => (st', Finished (Throw e))
      end
  | Await q k => (st, Suspended q k)
  end.

(** What [useDeepValues] has set up: the shared store -- caches, emitted
    record, request log --, the firings that await an answer, and the
    serialisation the watcher saw last. *)
Record config := {
  store : state;
  waiting : list (value → task unit);
  seen : option obj
}.

Definition initial_config (E : env) : config :=
  {| store := initial_state E; waiting := []; seen := None |}.

(** A firing, or a resumed firing, runs its stretch on the store; if it
    awaits, its request is sent, and logged, at once, and it joins the
    waiting firings. *)
Definition advance (t : task unit) (c : config) : config :=
  match stretch t (store c) with
  | (st', Finished _) =>
      {| store := st'; waiting := waiting c; seen := seen c |}
  | (st', Suspended q k) =>
      {| store := log q st'; waiting := waiting c ++ [k]; seen := seen c |}
  end.

(** What can happen next: the edited record takes a new value, or the
    request of the [i]-th waiting firing is answered -- with data, or by a
    rejection. *)
Inductive event :=
| Edit (val : obj)
| Answer (i : nat) (data : option value).

(** The watcher fires the callback with the new and the previous
    serialisation, and only when the serialisation has changed; the first
    firing is the immediate one.  A rejected request ends its firing. *)
Definition step (E : env) (ev : event) (c : config) : config :=
  match ev with
  | Edit val =>
      if match seen c with
         | Some old => opt_string_eqb (stringify (VObj val))
                                      (stringify (VObj old))
         | None => false
         end
      then c
      else advance (handler_task E val (seen c))
                   {| store := store c; waiting := waiting c;
                      seen := Some val |}
  | Answer i data =>
      match waiting c !! i with
      | None => c
      | Some k =>
          let c' := {| store := store c; waiting := delete i (waiting c);
                       seen := seen c |} in
          match data with
          | Some v => advance (k v) c'
          | None => c'
          end
      end
  end.

Definition run_events (E : env) (evs : list event) (c : config) : config :=
  fold_left (fun c ev => step E ev c) evs c.

(** [useDeepValues]: the resolved record its caller observes after the
    immediate firing on the initial value [val] and the events [evs]. *)
Definition useDeepValues (E : env) (val : obj) (evs : list event) : obj :=
  finalValues (store (run_events E (Edit val :: evs) (initial_config E))).

(** The values the edited record has taken in a run of events. *)
Definition edits (evs : list event) : list obj :=
  omap (fun ev => match ev with Edit val => Some val | Answer _ _ => None end)
       evs.

(* ===================================================================== *)
(** ** Vocabulary of the statements                                       *)
(* ===================================================================== *)

(** [needle] occurs in [hay]. *)
Definition is_substring (needle hay : string) : Prop :=
  ∃ pre post, hay = pre +:+ needle +:+ post.

Fixpoint str_forallb (p : ascii → bool) (s : string) : bool :=
  match s with
  | EmptyString => true
  | String c rest => p c && str_forallb p rest
  end.

(** The placeholders the source extracts from a template. *)
Definition placeholders (template : string) : list string :=
  scan dot 0 template.

(** [needle] occurs nowhere in [hay]. *)
Definition absent_from (needle hay : string) : Prop :=
  ¬ is_substring needle hay.

(** The pattern, read declaratively.  [pattern_match accept s m rest]: a
    match of the pattern stands at the head of [s]; it is [m] and [rest]
    follows it.  A match is two opening braces, a run of characters that
    [accept] admits, and two closing braces; the run is the shortest one,
    that is, the closing pair is the first one after the opening pair. *)
Definition pattern_match (accept : ascii → bool) (s m rest : string) : Prop :=
  ∃ body, m = "{{" +:+ body +:+ "}}" ∧ s = m +:+ rest ∧
          str_forallb accept body = true ∧
          absent_from "}}" (body +:+ "}").

(** All the matches in a string, as a global search reports them: from
    left to right, a position that starts no match being passed over, and
    the search resuming where a match ended. *)
Inductive all_matches (accept : ascii → bool) : string → list string → Prop :=
| all_matches_end : all_matches accept "" []
| all_matches_skip c s l :
    (∀ m rest, ¬ pattern_match accept (String c s) m rest) →
    all_matches accept s l →
    all_matches accept (String c s) l
| all_matches_here s m rest l :
    pattern_match accept s m rest →
    all_matches accept rest l →
    all_matches accept s (m :: l).

(** The test as the specification words it: the body of a placeholder is
    any run of characters. *)
Definition spec_fieldIsReferenced (template fieldName : string) : Prop :=
  ∃ l m, all_matches (fun _ => true) template l ∧ m ∈ l ∧
         is_substring fieldName m.

(** The serialised value of field [k] differs between the two records. *)
Definition serialized_changed (val oldVal : obj) (k : string) : Prop :=
  stringify (obj_read k val) ≠ stringify (obj_read k oldVal).

(** A record as [JSON.parse] returns it holds no [undefined]. *)
Definition parsed (o : obj) : Prop :=
  ∀ k v, (k, v) ∈ o → v ≠ VUndef.

(** Field [k] is resolved relationally: a relation mentions it and the
    template references it. *)
Definition resolved_key (E : env) (k : string) : Prop :=
  (∃ rel, List.find (relation_mentions k) (env_relations E) = Some rel) ∧
  checkFieldInTemplate (env_template E) k = true.

(** A computation that leaves the component [f] of the state alone. *)
Definition keeps {A B} (f : state → B) (c : M A) : Prop :=
  ∀ st, f (c st).1 = f st.

Abbreviation keeps_final := (keeps finalValues).

(** The state with both caches emptied. *)
Definition cleared (st : state) : state :=
  {| fieldCache := ∅; itemCache := ∅;
     finalValues := finalValues st; requests := requests st |}.

(** What the baseline read of field [key] obtains in state [st]: the
    memoised value, or else the server's answer. *)
Definition baseline_source (E : env) (st : state) (pkFinal : value)
    (key : string) : option value :=
  match fieldCache st !! key with
  | Some data => Some data
  | None => env_api E (requests st) (GetField (env_collection E) pkFinal key)
  end.

(** What the entity read of [ids] obtains in state [st]: the cached
    entities on a full hit, or else the server's answer. *)
Definition item_source (E : env) (st : state) (rc : string)
    (ids : list value) : option value :=
  match itemCache st !! rc with
  | Some cached =>
      if all_cached cached ids
      then Some (VArr (map (fun id => default VUndef (cached !! to_js_string id))
                           ids))
      else env_api E (requests st) (GetItems (items_path rc) ids)
  | None => env_api E (requests st) (GetItems (items_path rc) ids)
  end.

(** The entity [item] with the pending update entry of the same id, if
    any, laid over it. *)
Definition merged (update item : value) : result value :=
  rbind (js_get item "id") (fun item_id =>
  rbind (find_update update item_id) (fun found =>
  Ok (VObj (spread (own_enumerable found) (spread (own_enumerable item) []))))).

(** A list-valued member of a mutation; an absent member counts as the
    empty list. *)
Definition pending_list (v : value) : option (list value) :=
  match v with
  | VArr l => Some l
  | VUndef => Some []
  | _ => None
  end.

Definition mutation_list (fieldChanges : value) (name : string)
  : option (list value) :=
  match js_get fieldChanges name with
  | Ok v => pending_list v
  | Throw _ => None
  end.

(** A value whose properties can be read. *)
Definition readable (v : value) : Prop := v ≠ VUndef ∧ v ≠ VNull.

(** The pending update entry for [item]: the first entry of [U] whose id is
    strictly equal to the item's. *)
Definition pending_for (U : list value) (item : value) : value :=
  match rbind (js_get item "id") (fun item_id => find_by_id item_id U) with
  | Ok u => u
  | Throw _ => VUndef
  end.

(** [{ ...item, ...pending }] *)
Definition overlay (U : list value) (item : value) : value :=
  VObj (spread (own_enumerable (pending_for U item))
               (spread (own_enumerable item) [])).

(** What [related_data] reads its entities from. *)
Definition related_source (E : env) (st : state) (rc : string)
    (ids : list value) : option value :=
  match ids with
  | [] => Some (VArr [])
  | _ :: _ => if String.eqb rc "" then Some (VArr []) else item_source E st rc ids
  end.

(** Keys in property order: no key repeats, and an array-index key is only
    preceded by smaller array-index keys. *)
Fixpoint keys_in_order (before ks : list string) : bool :=
  match ks with
  | [] => true
  | k :: rest =>
      negb (existsb (String.eqb k) before) &&
      match array_index k with
      | Some n =>
          forallb (fun k' => match array_index k' with
                             | Some n' => (n' <? n)%N
                             | None => false
                             end) before
      | None => true
      end &&
      keys_in_order (before ++ [k]) rest
  end.

Definition property_order (o : obj) : Prop :=
  keys_in_order [] (obj_keys o) = true.

(** A JSON object, and the entity holding a given id. *)
Definition json_object (v : value) : Prop :=
  ∃ o, v = VObj o ∧ property_order o.

Definition entity_with_id (id e : value) : Prop :=
  ∃ o, e = VObj o ∧ property_order o ∧ obj_read "id" o = id.

(** The shape transition on which normalisation empties the caches. *)
Definition shape_reset (isM2O : bool) (fieldChanges prev : value) : bool :=
  if isM2O
  then is_number_or_string fieldChanges && String.eqb (js_typeof prev) "object"
  else is_array fieldChanges && negb (is_array prev).

(** Resolving field [key] of [valObj] against [oldValObj] empties the
    caches. *)
Definition resets (E : env) (valObj oldValObj : obj) (key : string) : bool :=
  match List.find (relation_mentions key) (env_relations E) with
  | None => false
  | Some relation =>
      let isM2O := String.eqb (collection relation) (env_collection E) in
      let fieldName :=
        if isM2O then meta_key relation many_field
        else meta_key relation one_field in
      checkFieldInTemplate (env_template E) key &&
      shape_reset isM2O
        (nullish_or (obj_read fieldName valObj) default_changes)
        (obj_read key oldValObj)
  end.

Definition no_reset (E : env) (valObj oldValObj : obj) : Prop :=
  ∀ key, key ∈ obj_keys valObj → resets E valObj oldValObj key = false.

(** The server answers an entity request with one entity per requested id,
    in request order; the entity is determined by the path and the id's
    property key and carries that id. *)
Definition faithful_server (E : env) (ent : string → string → value) : Prop :=
  (∀ hist path ids v,
     env_api E hist (GetItems path ids) = Some v →
     v = VArr (map (fun id => ent path (to_js_string id)) ids)) ∧
  (∀ path k, ∃ i, js_get (ent path k) "id" = Ok i ∧ to_js_string i = k).

(** Every cached entity is the server's. *)
Definition cache_consistent (ent : string → string → value) (s : state)
  : Prop :=
  ∀ rc m k e,
    itemCache s !! rc = Some m → m !! k = Some e → e = ent (items_path rc) k.

(** The caches of [u] extend those of [s]. *)
Definition cache_le (s u : state) : Prop :=
  fieldCache s ⊆ fieldCache u ∧
  ∀ rc m, itemCache s !! rc = Some m →
          ∃ m', itemCache u !! rc = Some m' ∧ m ⊆ m'.

(** The state after [items] have been entered into the item cache of
    collection [rc], each under its id. *)
Definition store_items (rc : string) (items : list value) (s : state)
  : state :=
  fold_left (fun s item =>
               match js_get item "id" with
               | Ok i => (set_itemCache rc (to_js_string i) item s).1
               | Throw _ => s
               end) items s.

(* ===================================================================== *)
(** ** Example sessions                                                   *)
(* ===================================================================== *)

(** A well-behaved server: a related entity carries the requested id and a
    stored title; the comments linked to a post are 1, 2 and 3. *)
Definition demo_entity (id : value) : value :=
  VObj [("id", id); ("title", VStr "stored")].

Definition demo_api (_ : list request) (r : request) : option value :=
  match r with
  | GetField _ _ _ => Some (VArr [VNum 1; VNum 2; VNum 3])
  | GetItems _ ids => Some (VArr (map demo_entity ids))
  end.

(** Posts, each with an author (many-to-one, to users) and comments
    (one-to-many, from comments). *)
Definition posts_relations : list Relation :=
  [ {| collection := "posts"; related_collection := Some "users";
       meta := Some {| one_field := None; many_field := Some "author" |} |};
    {| collection := "comments"; related_collection := Some "posts";
       meta := Some {| one_field := Some "comments";
                       many_field := Some "post" |} |} ].

Definition posts_env (template : string) : env :=
  {| env_relations := posts_relations;
     env_collection := "posts";
     env_computedField := "total";
     env_pk := VNum 9;
     env_template := template;
     env_currentUser := VObj [("id", VStr "u1")];
     env_api := demo_api |}.

(** A server that answers an entity request with the matching rows in
    storage order, whatever the order of the requested ids; the comments
    linked to a post are 2 and 3. *)
Definition stored_ids : list value := [VNum 1; VNum 2; VNum 3; VNum 4].

Definition storage_api (_ : list request) (r : request) : option value :=
  match r with
  | GetField _ _ _ => Some (VArr [VNum 2; VNum 3])
  | GetItems _ ids =>
      Some (VArr (map demo_entity
                      (List.filter (fun id => arr_includes ids id) stored_ids)))
  end.

Definition storage_env (template : string) : env :=
  {| env_relations := posts_relations;
     env_collection := "posts";
     env_computedField := "total";
     env_pk := VNum 9;
     env_template := template;
     env_currentUser := VObj [("id", VStr "u1")];
     env_api := storage_api |}.

(** A server whose entities are keyed by the id's property key. *)
Definition keyed_entity (path k : string) : value :=
  VObj [("id", VStr k); ("path", VStr path)].

Definition keyed_api (_ : list request) (r : request) : option value :=
  match r with
  | GetField _ _ _ => Some (VArr [VStr "1"; VStr "2"])
  | GetItems path ids =>
      Some (VArr (map (fun id => keyed_entity path (to_js_string id)) ids))
  end.

Definition keyed_env (template : string) : env :=
  {| env_relations := posts_relations;
     env_collection := "posts";
     env_computedField := "total";
     env_pk := VNum 9;
     env_template := template;
     env_currentUser := VObj [("id", VStr "u1")];
     env_api := keyed_api |}.

(* ===================================================================== *)
(** ** Further vocabulary                                                 *)
(* ===================================================================== *)

(** A field name that can stand between braces: no line terminator and no
    closing brace. *)
Definition plain_char (c : ascii) : bool :=
  dot c && negb (Ascii.eqb c "}"%char).

Definition plain_name (f : string) : Prop := str_forallb plain_char f = true.

(** A path segment: no dot. *)
Definition no_dot (s : string) : Prop :=
  str_forallb (fun c => negb (Ascii.eqb c "."%char)) s = true.

(** The values on which the [in] operator is defined: objects and arrays. *)
Definition has_properties (v : value) : bool :=
  match v with VObj _ | VArr _ => true | _ => false end.

(** The result of a failed lookup. *)
Definition not_found : path_result := {| pr_value := VNull; pr_found := false |}.

(** [null] or [undefined]: the values [??] replaces. *)
Definition nullish (v : value) : bool :=
  match v with VUndef | VNull => true | _ => false end.

(** [resolved_key], decided. *)
Definition resolved_keyb (E : env) (k : string) : bool :=
  match List.find (relation_mentions k) (env_relations E) with
  | Some _ => checkFieldInTemplate (env_template E) k
  | None => false
  end.

(** Every stretch of the firing leaves the emitted record alone, and the
    firing's result, if it has one, satisfies [Q]. *)
Fixpoint quiet {A} (Q : A → Prop) (t : task A) : Prop :=
  match t with
  | Done (Ok a) => Q a
  | Done (Throw _) => True
  | Atomic c k => keeps finalValues c ∧ ∀ x, quiet Q (k x)
  | Await _ k => ∀ v, quiet Q (k v)
  end.

(** Every stretch of the firing leaves the emitted record alone or sets it
    to a record in [P]. *)
Fixpoint emits {A} (P : obj → Prop) (t : task A) : Prop :=
  match t with
  | Done _ => True
  | Atomic c k =>
      (∀ st, finalValues (c st).1 = finalValues st ∨
             P (finalValues (c st).1)) ∧
      ∀ x, emits P (k x)
  | Await _ k => ∀ v, emits P (k v)
  end.

(** The records a run may show to the caller: the initial one, or the
    composite of a recomputation for one of the values [V] seen, taken
    against the empty record or another of those values. *)
Definition complete_record (E : env) (V : list obj) (fv : obj) : Prop :=
  fv = [("__currentUser", env_currentUser E)] ∨
  ∃ val old rd,
    val ∈ V ∧ (old = [] ∨ old ∈ V) ∧
    fv = compose_final E (null_removed old val) rd ∧
    ∀ k, obj_has k rd = true → resolved_key E k.

(** A configuration all of whose records, shown or still to come, are
    complete. *)
Definition settled (E : env) (V : list obj) (c : config) : Prop :=
  complete_record E V (finalValues (store c)) ∧
  Forall (fun k => ∀ v, emits (complete_record E V) (k v)) (waiting c) ∧
  match seen c with Some old => old ∈ V | None => True end.

(* ===================================================================== *)
(** ** Further example sessions                                           *)
(* ===================================================================== *)

(** The two relations of a post. *)
Definition author_relation : Relation :=
  {| collection := "posts"; related_collection := Some "users";
     meta := Some {| one_field := None; many_field := Some "author" |} |}.

Definition comments_relation : Relation :=
  {| collection := "comments"; related_collection := Some "posts";
     meta := Some {| one_field := Some "comments";
                     many_field := Some "post" |} |}.

(** A server that rejects every request. *)
Definition offline_api (_ : list request) (_ : request) : option value := None.

Definition offline_env (template : string) : env :=
  {| env_relations := posts_relations;
     env_collection := "posts";
     env_computedField := "total";
     env_pk := VNum 9;
     env_template := template;
     env_currentUser := VObj [("id", VStr "u1")];
     env_api := offline_api |}.

(* ===================================================================== *)
(** * Properties                                                          *)
(* ===================================================================== *)

(** ** Strings *)

Lemma prefix_spec p s :
  String.prefix p s = true ↔ ∃ post, s = p +:+ post.
Proof.
  revert s. induction p as [|c p IH]; intros s; simpl.
  - split; [intros _; by exists s | by destruct s].
  - destruct s as [|d s]; simpl.
    + split; [done | intros [post Hpost]; discriminate].
    + destruct (ascii_dec c d) as [->|Hne].
      * rewrite IH. split; intros [post Hpost]; exists post.
        -- by rewrite Hpost.
        -- by injection Hpost.
      * split; [done | intros [post Hpost]; injection Hpost; congruence].
Qed.

Lemma str_includes_spec needle hay :
  str_includes needle hay = true ↔ is_substring needle hay.
Proof.
  unfold is_substring. induction hay as [|c hay IH].
  - change (str_includes needle "") with (String.prefix needle "" || false).
    rewrite orb_false_r, prefix_spec. split.
    + intros [post Hpost]. by exists "", post.
    + intros (pre & post & Hh). destruct pre; simpl in Hh; [|discriminate].
      by exists post.
  - change (str_includes needle (String c hay))
      with (String.prefix needle (String c hay) || str_includes needle hay).
    rewrite orb_true_iff, prefix_spec, IH. split.
    + intros [[post Hpost]|(pre & post & Hh)].
      * by exists "", post.
      * exists (String c pre), post. simpl. by rewrite Hh.
    + intros (pre & post & Hh). destruct pre as [|d pre]; simpl in Hh.
      * left. by exists post.
      * right. injection Hh as _ Hh. by exists pre, post.
Qed.

Lemma append_assoc (a b c : string) : (a +:+ b) +:+ c = a +:+ (b +:+ c).
Proof. induction a as [|x a IH]; simpl; [done | by rewrite IH]. Qed.

Lemma is_substring_refl s : is_substring s s.
Proof.
  exists "", "". simpl. induction s as [|c s IH]; simpl; [done|].
  by rewrite <- IH.
Qed.

Lemma is_substring_cons c needle hay :
  is_substring needle hay → is_substring needle (String c hay).
Proof. intros (pre & post & ->). by exists (String c pre), post. Qed.

Lemma is_substring_prefix needle post : is_substring needle (needle +:+ post).
Proof. by exists "", post. Qed.

(** ** Template field matcher *)

Lemma lazy_body_shape accept s body :
  lazy_body accept s = Some body →
  str_forallb accept body = true ∧ ∃ post, s = body +:+ "}}" +:+ post.
Proof.
  revert body. induction s as [|c s IH]; intros body; [done|].
  cbn [lazy_body].
  destruct (String.prefix "}}" (String c s)) eqn:Hp.
  - intros [= <-]. split; [done|]. by apply prefix_spec in Hp.
  - destruct (accept c) eqn:Hc; [|done].
    destruct (lazy_body accept s) as [b|] eqn:Hb; [|done].
    intros [= <-]. destruct (IH b eq_refl) as [Hall [post Hs]].
    split; [by simpl; rewrite Hc | exists post; simpl; by rewrite Hs].
Qed.

Lemma match_at_shape accept s m :
  match_at accept s = Some m →
  ∃ body, m = "{{" +:+ body +:+ "}}" ∧ str_forallb accept body = true ∧
          ∃ post, s = m +:+ post.
Proof.
  unfold match_at. destruct (String.prefix "{{" s) eqn:Hp; [|done].
  apply prefix_spec in Hp as [rest ->].
  change (str_drop 2 ("{{" +:+ rest)) with rest.
  destruct (lazy_body accept rest) as [body|] eqn:Hb; [|done].
  intros [= <-]. apply lazy_body_shape in Hb as [Hall [post ->]].
  exists body. split; [done|]. split; [done|]. exists post.
  simpl. by rewrite append_assoc.
Qed.

(** Every extracted placeholder is an occurrence, in the template, of two
    opening braces, accepted characters and two closing braces. *)
Lemma scan_elem accept skip s m :
  m ∈ scan accept skip s →
  (∃ body, m = "{{" +:+ body +:+ "}}" ∧ str_forallb accept body = true) ∧
  is_substring m s.
Proof.
  revert skip. induction s as [|c s IH]; intros skip; simpl.
  - by intros ?%elem_of_nil.
  - destruct skip as [|n].
    + destruct (match_at accept (String c s)) as [m'|] eqn:Hm.
      * intros [->|Hin]%elem_of_cons.
        -- apply match_at_shape in Hm as (body & -> & Hall & post & Hs).
           split; [by exists body|]. rewrite Hs. apply is_substring_prefix.
        -- destruct (IH _ Hin) as [? ?]. split; [done|].
           by apply is_substring_cons.
      * intros Hin. destruct (IH _ Hin) as [? ?]. split; [done|].
        by apply is_substring_cons.
    + intros Hin. destruct (IH _ Hin) as [? ?]. split; [done|].
      by apply is_substring_cons.
Qed.

Lemma not_included needle hay :
  str_includes needle hay = false ↔ absent_from needle hay.
Proof.
  unfold absent_from. rewrite <- str_includes_spec.
  by destruct (str_includes needle hay).
Qed.

(** The lazy body is the shortest one: no pair of closing braces ends
    before its own. *)
Lemma lazy_body_shortest accept s body :
  lazy_body accept s = Some body → str_includes "}}" (body +:+ "}") = false.
Proof.
  revert body. induction s as [|c s IH]; intros body; [done|].
  cbn [lazy_body]. destruct (String.prefix "}}" (String c s)) eqn:Hp.
  - by intros [= <-].
  - destruct (accept c); [|done].
    destruct (lazy_body accept s) as [b|] eqn:Hb; [|done].
    intros [= <-]. specialize (IH b eq_refl).
    change (String c b +:+ "}") with (String c (b +:+ "}")).
    change (str_includes "}}" (String c (b +:+ "}")))
      with (String.prefix "}}" (String c (b +:+ "}")) ||
            str_includes "}}" (b +:+ "}")).
    rewrite IH, orb_false_r.
    destruct (String.prefix "}}" (String c (b +:+ "}"))) eqn:Hq; [|done].
    apply lazy_body_shape in Hb as [_ [post ->]].
    apply prefix_spec in Hq as [x Hx]. injection Hx as -> Hx.
    assert (String.prefix "}}" (String "}" (b +:+ "}}" +:+ post)) = true)
      as Hcontra; [|by rewrite Hcontra in Hp].
    apply prefix_spec. exists (x +:+ "}" +:+ post).
    replace (b +:+ "}}" +:+ post) with ((b +:+ "}") +:+ "}" +:+ post)
      by (by rewrite append_assoc).
    by rewrite Hx.
Qed.

Lemma str_length_append a b :
  String.length (a +:+ b) = (String.length a + String.length b)%nat.
Proof. induction a as [|c a IH]; simpl; [done | by rewrite IH]. Qed.

Lemma scan_skip accept a s :
  scan accept (String.length a) (a +:+ s) = scan accept 0 s.
Proof. induction a as [|c a IH]; simpl; [done | exact IH]. Qed.

Lemma prefix_braces_cons c s :
  String.prefix "}}" (String c s) =
  Ascii.eqb c "}"%char && String.prefix "}" s.
Proof.
  change (String.prefix "}}" (String c s))
    with (if ascii_dec "}" c then String.prefix "}" s else false).
  destruct (ascii_dec "}" c) as [<-|Hne]; [by rewrite Ascii.eqb_refl|].
  destruct (Ascii.eqb_spec c "}"%char) as [->|_]; [by destruct Hne | done].
Qed.

Lemma prefix_brace_cons c s :
  String.prefix "}" (String c s) = Ascii.eqb c "}"%char.
Proof.
  change (String.prefix "}" (String c s))
    with (if ascii_dec "}" c then String.prefix "" s else false).
  destruct (ascii_dec "}" c) as [<-|Hne];
    [by rewrite Ascii.eqb_refl; destruct s|].
  destruct (Ascii.eqb_spec c "}"%char) as [->|_]; [by destruct Hne | done].
Qed.

Lemma lazy_body_cons accept c s :
  lazy_body accept (String c s) =
  if Ascii.eqb c "}"%char && String.prefix "}" s then Some ""
  else if accept c then String c <$> lazy_body accept s else None.
Proof. cbn [lazy_body]. by rewrite prefix_braces_cons. Qed.


(** *** The source's scan finds the matches of the pattern *)

Lemma lazy_body_complete accept body rest :
  str_forallb accept body = true → absent_from "}}" (body +:+ "}") →
  lazy_body accept (body +:+ "}}" +:+ rest) = Some body.
Proof.
  induction body as [|c b IH]; intros Hall Habs.
  - change ("" +:+ "}}" +:+ rest) with (String "}" (String "}" rest)).
    by rewrite lazy_body_cons, prefix_brace_cons.
  - change (String c b +:+ "}}" +:+ rest)
      with (String c (b +:+ "}}" +:+ rest)).
    rewrite lazy_body_cons. cbn [str_forallb] in Hall.
    apply andb_true_iff in Hall as [Hc Hb].
    assert (Hfirst : Ascii.eqb c "}"%char &&
                     String.prefix "}" (b +:+ "}}" +:+ rest) = false).
    { destruct (Ascii.eqb_spec c "}"%char) as [->|]; [|done]. cbn [andb].
      destruct (String.prefix "}" (b +:+ "}}" +:+ rest)) eqn:Hp; [|done].
      destruct Habs. destruct b as [|d b].
      - by exists "", "".
      - change (String d b +:+ "}}" +:+ rest)
          with (String d (b +:+ "}}" +:+ rest)) in Hp.
        rewrite prefix_brace_cons in Hp. apply Ascii.eqb_eq in Hp as ->.
        by exists "", (b +:+ "}"). }
    rewrite Hfirst, Hc, IH; [done | done |].
    intros Hsub. apply Habs. by apply is_substring_cons.
Qed.

(** The anchored match of the source is the match of the pattern. *)
Lemma match_at_spec accept s m :
  match_at accept s = Some m ↔ ∃ rest, pattern_match accept s m rest.
Proof.
  split.
  - unfold match_at. destruct (String.prefix "{{" s) eqn:Hp; [|done].
    apply prefix_spec in Hp as [r ->].
    change (str_drop 2 ("{{" +:+ r)) with r.
    destruct (lazy_body accept r) as [body|] eqn:Hb; [|done].
    intros [= <-]. pose proof (lazy_body_shortest accept r body Hb) as Hshort.
    apply lazy_body_shape in Hb as [Hall [post ->]].
    exists post, body. split; [done|].
    split; [simpl; by rewrite append_assoc|].
    split; [done | by apply not_included].
  - intros (rest & body & -> & -> & Hall & Habs). unfold match_at.
    replace (("{{" +:+ body +:+ "}}") +:+ rest)
      with ("{{" +:+ (body +:+ "}}" +:+ rest))
      by (simpl; by rewrite append_assoc).
    rewrite (proj2 (prefix_spec "{{" _)) by (by eexists).
    change (str_drop 2 ("{{" +:+ (body +:+ "}}" +:+ rest)))
      with (body +:+ "}}" +:+ rest).
    by rewrite lazy_body_complete.
Qed.

Lemma append_inj_r (a b c : string) : a +:+ b = a +:+ c → b = c.
Proof.
  induction a as [|x a IH]; simpl; [done|]. intros [= H]. by apply IH.
Qed.

Lemma pattern_match_functional accept s m rest m' rest' :
  pattern_match accept s m rest → pattern_match accept s m' rest' →
  m = m' ∧ rest = rest'.
Proof.
  intros H1 H2.
  assert (Hm : match_at accept s = Some m)
    by (apply match_at_spec; by exists rest).
  assert (Hm' : match_at accept s = Some m')
    by (apply match_at_spec; by exists rest').
  assert (m = m') as <- by congruence. split; [done|].
  destruct H1 as (b & _ & Hs & _), H2 as (b' & _ & Hs' & _).
  rewrite Hs in Hs'. by apply append_inj_r in Hs'.
Qed.

(** The source's scan reports the matches of a global search. *)
Lemma scan_all_matches accept s : all_matches accept s (scan accept 0 s).
Proof.
  assert (H : ∀ n s, (String.length s ≤ n)%nat →
                     all_matches accept s (scan accept 0 s)).
  2:{ by apply (H (String.length s)). }
  clear s. intros n. induction n as [|n IH]; intros s Hlen.
  { destruct s; [constructor | simpl in Hlen; lia]. }
  destruct s as [|c s]; [constructor|]. cbn [scan].
  destruct (match_at accept (String c s)) as [m|] eqn:Hm.
  - pose proof (proj1 (match_at_spec accept _ m) Hm) as [rest Hpat].
    apply (all_matches_here accept _ m rest); [done|].
    destruct Hpat as (body & -> & Hs & _).
    change (("{{" +:+ body +:+ "}}") +:+ rest)
      with (String "{" (("{" +:+ body +:+ "}}") +:+ rest)) in Hs.
    injection Hs as -> ->.
    change (String.length ("{{" +:+ body +:+ "}}") - 1)%nat
      with (String.length ("{" +:+ body +:+ "}}")).
    change (String "{" ((body +:+ "}}") +:+ rest))
      with (("{" +:+ body +:+ "}}") +:+ rest).
    rewrite scan_skip. apply IH. simpl in Hlen.
    rewrite str_length_append in Hlen. lia.
  - apply all_matches_skip.
    + intros m rest Hpat.
      assert (match_at accept (String c s) = Some m)
        by (apply match_at_spec; by exists rest).
      congruence.
    + apply IH. simpl in Hlen. lia.
Qed.

(** A global search has one outcome. *)
Lemma all_matches_unique accept s l l' :
  all_matches accept s l → all_matches accept s l' → l = l'.
Proof.
  intros H. revert l'.
  induction H as [|c s l Hno _ IH|s m rest l Hpat _ IH]; intros l' H'.
  - inversion H' as [| |s0 m0 rest0 l0 Hpat0]; subst; [done|].
    by destruct Hpat0 as (body & -> & ? & _).
  - inversion H' as [|c0 s0 l0 Hno0 Hrest0|s0 m0 rest0 l0 Hpat0]; subst.
    + by apply IH.
    + by destruct (Hno m0 rest0).
  - inversion H' as [|c0 s0 l0 Hno0 Hrest0|s0 m0 rest0 l0 Hpat0 Hrest0]; subst.
    + by destruct Hpat as (body & -> & ? & _).
    + by destruct (Hno0 m rest).
    + destruct (pattern_match_functional _ _ _ _ _ _ Hpat Hpat0) as [<- <-].
      f_equal. by apply IH.
Qed.

(** C8 (as amended): [checkFieldInTemplate T f] holds exactly when [f] is a
    substring of one of the matches in [T] of the pattern -- two opening
    braces, lazily any characters other than line terminators, two closing
    braces -- as a global search reports them.  The test is a substring
    test: the field [name] is referenced by the template [{{username}}]. *)
Theorem checkFieldInTemplate_iff_substring :
  (∀ T f : string,
     checkFieldInTemplate T f = true ↔
     ∃ l m, all_matches dot T l ∧ m ∈ l ∧ is_substring f m) ∧
  checkFieldInTemplate "{{username}}" "name" = true.
Proof.
  split; [|reflexivity]. intros T f.
  unfold checkFieldInTemplate, template_match.
  assert (Hd : default [] (match scan dot 0 T with
                           | [] => None
                           | l => Some l
                           end) = scan dot 0 T)
    by (by destruct (scan dot 0 T)).
  rewrite Hd, existsb_exists. split.
  - intros (m & Hin & Hm). exists (scan dot 0 T), m.
    split; [apply scan_all_matches|]. split; [by apply list_elem_of_In|].
    by apply str_includes_spec.
  - intros (l & m & Hall & Hin & Hm).
    rewrite (all_matches_unique dot T l _ Hall (scan_all_matches dot T)) in Hin.
    exists m. split; [by apply list_elem_of_In|].
    by apply str_includes_spec.
Qed.

(** C8 (as stated) fails on a placeholder that spans two lines: the pattern
    of the specification, whose body is any run of characters, matches it;
    the source's pattern does not. *)
Lemma multiline_placeholder_not_matched :
  let T := "{{a" +:+ String LF "b}}" in
  checkFieldInTemplate T "a" = false ∧ spec_fieldIsReferenced T "a".
Proof.
  intros T. split; [by vm_compute|].
  exists [T], T. split; [|split].
  - apply (all_matches_here _ T T ""); [|constructor].
    exists ("a" +:+ String LF "b"). split; [done|]. split; [done|].
    split; [done|]. by apply not_included.
  - apply list_elem_of_here.
  - by exists "{{", (String LF "b}}").
Qed.

(** On a template without line terminators the specification's test and
    the source's agree. *)
Lemma lazy_body_single_line s :
  str_forallb dot s = true →
  lazy_body dot s = lazy_body (fun _ => true) s.
Proof.
  induction s as [|c s IH]; [done|]. simpl str_forallb.
  intros [Hc Hs]%andb_true_iff. cbn [lazy_body]. rewrite Hc, (IH Hs). done.
Qed.

Lemma str_forallb_drop p n s :
  str_forallb p s = true → str_forallb p (str_drop n s) = true.
Proof.
  revert s. induction n as [|n IH]; intros [|c s]; simpl; try done.
  intros [_ Hs]%andb_true_iff. by apply IH.
Qed.

Lemma scan_single_line skip s :
  str_forallb dot s = true →
  scan dot skip s = scan (fun _ => true) skip s.
Proof.
  revert skip. induction s as [|c s IH]; intros skip Hall; [done|].
  assert (Hs : str_forallb dot s = true).
  { simpl in Hall. by apply andb_true_iff in Hall as [_ ?]. }
  cbn [scan]. destruct skip as [|n]; [|by apply IH].
  unfold match_at.
  rewrite (lazy_body_single_line (str_drop 2 (String c s)))
    by (by apply str_forallb_drop).
  destruct (String.prefix "{{" (String c s)); [|by apply IH].
  destruct (lazy_body _ _); simpl; [|by apply IH].
  by rewrite IH.
Qed.

Lemma single_line_agreement T f :
  str_forallb dot T = true →
  (checkFieldInTemplate T f = true ↔ spec_fieldIsReferenced T f).
Proof.
  intros Hline. unfold spec_fieldIsReferenced, checkFieldInTemplate,
    template_match.
  replace (default [] match scan dot 0 T with [] => None | l => Some l end)
    with (scan dot 0 T) by (by destruct (scan dot 0 T)).
  rewrite existsb_exists, (scan_single_line 0 T Hline). split.
  - intros (m & Hin & Hm). exists (scan (fun _ => true) 0 T), m.
    split; [apply scan_all_matches|]. split; [by apply list_elem_of_In|].
    by apply str_includes_spec.
  - intros (l & m & Hall & Hin & Hm).
    rewrite (all_matches_unique _ T l _ Hall (scan_all_matches _ T)) in Hin.
    exists m. split; [by apply list_elem_of_In|].
    by apply str_includes_spec.
Qed.

(** ** Objects *)

Lemma obj_has_true k o : obj_has k o = true ↔ ∃ v, obj_get k o = Some v.
Proof.
  unfold obj_has. destruct (obj_get k o) as [v|]; split; try done.
  - by exists v.
  - by intros [? ?].
Qed.

Lemma obj_has_false k o : obj_has k o = false ↔ obj_get k o = None.
Proof. unfold obj_has. by destruct (obj_get k o). Qed.

Lemma obj_get_elem k v o : obj_get k o = Some v → (k, v) ∈ o.
Proof.
  induction o as [|[k' v'] o IH]; simpl; [done|].
  destruct (String.eqb_spec k k') as [->|Hne].
  - intros [= ->]. apply list_elem_of_here.
  - intros H. apply list_elem_of_further. by apply IH.
Qed.

Lemma obj_has_keys k o : obj_has k o = true ↔ k ∈ obj_keys o.
Proof.
  unfold obj_has, obj_keys. induction o as [|[k' v'] o IH]; simpl.
  - split; [done | by intros ?%elem_of_nil].
  - rewrite elem_of_cons. destruct (String.eqb_spec k k') as [->|Hne].
    + split; [by left | done].
    + rewrite IH. simpl. split; [by right | by intros [?|?]].
Qed.

Lemma obj_has_elem k v o : (k, v) ∈ o → obj_has k o = true.
Proof.
  intros H. apply obj_has_keys. unfold obj_keys.
  apply list_elem_of_fmap. by exists (k, v).
Qed.

Lemma obj_get_app k o1 o2 :
  obj_get k (o1 ++ o2) =
  match obj_get k o1 with Some v => Some v | None => obj_get k o2 end.
Proof.
  induction o1 as [|[k' v'] o1 IH]; simpl; [done|].
  by destruct (String.eqb k k').
Qed.

Lemma obj_get_replace_eq k v o :
  obj_has k o = true → obj_get k (obj_replace k v o) = Some v.
Proof.
  unfold obj_has. induction o as [|[k' v'] o IH]; simpl; [done|].
  destruct (String.eqb k k') eqn:Hk; simpl.
  - by rewrite String.eqb_refl.
  - by rewrite Hk.
Qed.

Lemma obj_get_replace_ne k k' v o :
  k ≠ k' → obj_get k' (obj_replace k v o) = obj_get k' o.
Proof.
  intros Hne. induction o as [|[k2 v2] o IH]; simpl; [done|].
  destruct (String.eqb_spec k k2) as [->|Hne2]; simpl.
  - destruct (String.eqb_spec k' k2) as [->|?]; [done|].
    by destruct (String.eqb_spec k' k2).
  - by rewrite IH.
Qed.

Lemma obj_get_insert_index_eq n k v o :
  obj_has k o = false → obj_get k (obj_insert_index n k v o) = Some v.
Proof.
  unfold obj_has. induction o as [|[k' v'] o IH]; simpl.
  - by rewrite String.eqb_refl.
  - destruct (String.eqb k k') eqn:Hk; [done|]. intros Ho.
    destruct (array_index k') as [n'|]; simpl.
    + destruct (n' <? n)%N; simpl; [by rewrite Hk; apply IH|].
      by rewrite String.eqb_refl.
    + by rewrite String.eqb_refl.
Qed.

Lemma obj_get_insert_index_ne n k k' v o :
  k ≠ k' → obj_get k' (obj_insert_index n k v o) = obj_get k' o.
Proof.
  intros Hne. induction o as [|[k2 v2] o IH]; simpl.
  - by destruct (String.eqb_spec k' k).
  - destruct (array_index k2) as [n'|]; simpl.
    + destruct (n' <? n)%N; simpl.
      * by rewrite IH.
      * by destruct (String.eqb_spec k' k).
    + by destruct (String.eqb_spec k' k).
Qed.

Lemma obj_get_set_eq k v o : obj_get k (obj_set k v o) = Some v.
Proof.
  unfold obj_set. destruct (obj_has k o) eqn:Hh.
  - by apply obj_get_replace_eq.
  - destruct (array_index k); [by apply obj_get_insert_index_eq|].
    rewrite obj_get_app. apply obj_has_false in Hh. rewrite Hh. simpl.
    by rewrite String.eqb_refl.
Qed.

Lemma obj_get_set_ne k k' v o :
  k ≠ k' → obj_get k' (obj_set k v o) = obj_get k' o.
Proof.
  intros Hne. unfold obj_set. destruct (obj_has k o).
  - by apply obj_get_replace_ne.
  - destruct (array_index k); [by apply obj_get_insert_index_ne|].
    rewrite obj_get_app. destruct (obj_get k' o); [done|]. simpl.
    by destruct (String.eqb_spec k' k).
Qed.

Lemma obj_has_set k k' v o :
  obj_has k' (obj_set k v o) = bool_decide (k = k') || obj_has k' o.
Proof.
  unfold obj_has at 1. case_bool_decide as Hk.
  - subst. by rewrite obj_get_set_eq.
  - rewrite obj_get_set_ne by done. done.
Qed.

Lemma obj_read_set_eq k v o : obj_read k (obj_set k v o) = v.
Proof. unfold obj_read. by rewrite obj_get_set_eq. Qed.

Lemma obj_read_set_ne k k' v o :
  k ≠ k' → obj_read k' (obj_set k v o) = obj_read k' o.
Proof. intros. unfold obj_read. by rewrite obj_get_set_ne. Qed.

Lemma elem_of_obj_replace e k v o :
  e ∈ obj_replace k v o → e = (k, v) ∨ e ∈ o.
Proof.
  induction o as [|[k' v'] o IH]; simpl; [by right|].
  destruct (String.eqb k k').
  - intros [->|?]%elem_of_cons; [by left|]. right. by apply list_elem_of_further.
  - intros [->|?]%elem_of_cons; [right; apply list_elem_of_here|].
    destruct (IH H); [by left|]. right. by apply list_elem_of_further.
Qed.

Lemma elem_of_obj_insert_index e n k v o :
  e ∈ obj_insert_index n k v o → e = (k, v) ∨ e ∈ o.
Proof.
  induction o as [|[k' v'] o IH]; simpl.
  - intros [->|?]%elem_of_cons; [by left | by right].
  - destruct (array_index k') as [n'|].
    + destruct (n' <? n)%N.
      * intros [->|?]%elem_of_cons; [right; apply list_elem_of_here|].
        destruct (IH H); [by left|]. right. by apply list_elem_of_further.
      * intros [->|?]%elem_of_cons; [by left | by right].
    + intros [->|?]%elem_of_cons; [by left | by right].
Qed.

Lemma elem_of_obj_set e k v o : e ∈ obj_set k v o → e = (k, v) ∨ e ∈ o.
Proof.
  unfold obj_set. destruct (obj_has k o).
  - apply elem_of_obj_replace.
  - destruct (array_index k); [apply elem_of_obj_insert_index|].
    intros [?|H]%elem_of_app; [by right|].
    apply list_elem_of_singleton in H as ->. by left.
Qed.

Lemma obj_has_spread k src dst :
  obj_has k (spread src dst) = obj_has k src || obj_has k dst.
Proof.
  unfold spread. revert dst.
  induction src as [|[k' v'] src IH]; intros dst; simpl; [done|].
  rewrite IH, obj_has_set. unfold obj_has at 3. simpl.
  destruct (String.eqb_spec k k') as [->|Hne].
  - rewrite bool_decide_eq_true_2 by done. simpl. by rewrite orb_true_r.
  - rewrite bool_decide_eq_false_2 by done. done.
Qed.

Lemma obj_get_spread_absent k src dst :
  obj_has k src = false → obj_get k (spread src dst) = obj_get k dst.
Proof.
  unfold spread. revert dst.
  induction src as [|[k' v'] src IH]; intros dst; simpl; [done|].
  unfold obj_has. simpl. destruct (String.eqb_spec k k') as [->|Hne]; [done|].
  intros H. rewrite IH by done. by apply obj_get_set_ne.
Qed.

(** When every entry of [src] under [k] carries [v], so does the copy. *)
Lemma obj_get_spread_uniform k v src dst :
  obj_has k src = true → (∀ v', (k, v') ∈ src → v' = v) →
  obj_get k (spread src dst) = Some v.
Proof.
  unfold spread. revert dst.
  induction src as [|[k' v'] src IH]; intros dst; simpl; [done|].
  intros Hh Hall. destruct (obj_has k src) eqn:Hs.
  - apply IH; [done|]. intros v2 H2. apply Hall. by apply list_elem_of_further.
  - pose proof (obj_get_spread_absent k src (obj_set k' v' dst) Hs) as Habs.
    unfold spread in Habs. rewrite Habs.
    unfold obj_has in Hh, Hs. simpl in Hh.
    destruct (String.eqb_spec k k') as [->|Hne].
    + rewrite obj_get_set_eq. f_equal. apply Hall, list_elem_of_here.
    + by rewrite Hs in Hh.
Qed.

Lemma obj_keys_spread k src dst :
  k ∈ obj_keys (spread src dst) ↔ k ∈ obj_keys src ∨ k ∈ obj_keys dst.
Proof.
  rewrite <- !obj_has_keys, obj_has_spread. apply orb_true_iff.
Qed.

Lemma obj_has_existsb k o :
  obj_has k o = existsb (String.eqb k) (obj_keys o).
Proof.
  unfold obj_has. induction o as [|[k' v'] o IH]; simpl; [done|].
  by destruct (String.eqb k k').
Qed.

Lemma obj_insert_index_append n k v p :
  forallb (fun k' => match array_index k' with
                     | Some n' => (n' <? n)%N
                     | None => false
                     end) (obj_keys p) = true →
  obj_insert_index n k v p = p ++ [(k, v)].
Proof.
  induction p as [|[k' v'] p IH]; simpl; [done|].
  intros [Hk Hp]%andb_true_iff. destruct (array_index k') as [n'|]; [|done].
  rewrite Hk. by rewrite IH.
Qed.

Lemma spread_in_order p q :
  keys_in_order (obj_keys p) (obj_keys q) = true → spread q p = p ++ q.
Proof.
  unfold spread. revert p. induction q as [|[k v] q IH]; intros p; simpl.
  - by rewrite app_nil_r.
  - intros [[Hnew Hidx]%andb_true_iff Hrest]%andb_true_iff.
    assert (Hset : obj_set k v p = p ++ [(k, v)]).
    { unfold obj_set. rewrite obj_has_existsb.
      apply negb_true_iff in Hnew. rewrite Hnew.
      destruct (array_index k) as [n|]; [|done].
      by apply obj_insert_index_append. }
    rewrite Hset, IH.
    + by rewrite <- app_assoc.
    + unfold obj_keys in *. by rewrite map_app.
Qed.

(** An object in property order is equal to its spread copy. *)
Lemma spread_property_order o : property_order o → spread o [] = o.
Proof. intros Ho. by apply (spread_in_order [] o). Qed.

(** ** The trigger gate *)

Lemma opt_string_eqb_eq a b : opt_string_eqb a b = true ↔ a = b.
Proof.
  destruct a as [x|], b as [y|]; simpl; try (split; done).
  rewrite String.eqb_eq. split; [by intros -> | by intros [= ->]].
Qed.

Lemma strict_eq_eq a b : strict_eq a b = true → a = b.
Proof.
  destruct a, b; simpl; try done.
  - intros ?%Bool.eqb_prop. by subst.
  - intros ?%Z.eqb_eq. by subst.
  - intros ?%String.eqb_eq. by subst.
Qed.

Lemma stringify_undefined v : stringify v = None ↔ v = VUndef.
Proof. by destruct v. Qed.

Lemma obj_read_absent k o : obj_has k o = false → obj_read k o = VUndef.
Proof. unfold obj_read. intros ->%obj_has_false. done. Qed.

(** The changed-field list holds exactly the keys, other than the computed
    field's, whose serialised value differs. *)
Lemma changedFields_spec cf val old k :
  k ∈ changedFields cf val old ↔ k ≠ cf ∧ serialized_changed val old k.
Proof.
  unfold changedFields, serialized_changed.
  rewrite list_elem_of_filter, !andb_true_iff, !negb_true_iff, obj_keys_spread.
  split.
  - intros [[[Hcf _] Hs] _]. split.
    + by apply String.eqb_neq.
    + intros Heq. apply opt_string_eqb_eq in Heq. congruence.
  - intros [Hcf Hs]. split; [split; [split|]|].
    + by apply String.eqb_neq.
    + destruct (strict_eq _ _) eqn:Heq; [|done].
      apply strict_eq_eq in Heq. by rewrite Heq in Hs.
    + destruct (opt_string_eqb _ _) eqn:Heq; [|done].
      by apply opt_string_eqb_eq in Heq.
    + destruct (obj_has k val) eqn:Hv; [left; by apply obj_has_keys|].
      destruct (obj_has k old) eqn:Ho.
      * right. apply obj_keys_spread. left. by apply obj_has_keys.
      * by rewrite !obj_read_absent in Hs.
Qed.

Lemma shouldUpdate_true T cf val old :
  shouldUpdate T cf val old = true ↔
  changedFields cf val old = [] ∨
  ∃ k, k ∈ changedFields cf val old ∧ checkFieldInTemplate T k = true.
Proof.
  unfold shouldUpdate. destruct (changedFields cf val old) as [|k l] eqn:Hc.
  - split; [by left | done].
  - rewrite existsb_exists. split.
    + intros (x & Hx & Href). right. exists x. by rewrite list_elem_of_In.
    + intros [?|(x & Hx & Href)]; [done|]. exists x. by rewrite <- list_elem_of_In.
Qed.

Lemma shouldUpdate_false T cf val old :
  shouldUpdate T cf val old = false ↔
  changedFields cf val old ≠ [] ∧
  ∀ k, k ∈ changedFields cf val old → checkFieldInTemplate T k = false.
Proof.
  rewrite <- not_true_iff_false, shouldUpdate_true. split.
  - intros H. split; [by intros ?; apply H; left|].
    intros k Hk. destruct (checkFieldInTemplate T k) eqn:Href; [|done].
    exfalso. apply H. right. by exists k.
  - intros [Hne Hall] [?|(k & Hk & Href)]; [done|].
    by rewrite (Hall k Hk) in Href.
Qed.

Lemma handler_gate_closed E val oldVal st :
  shouldUpdate (env_template E) (env_computedField E) val (default [] oldVal)
    = false →
  handler E val oldVal st = (st, Ok ()).
Proof. unfold handler. by intros ->. Qed.

Lemma handler_gate_open E val oldVal :
  shouldUpdate (env_template E) (env_computedField E) val (default [] oldVal)
    = true →
  handler E val oldVal = recompute E val (default [] oldVal).
Proof. unfold handler. by intros ->. Qed.

(** C5 (as amended): when some field other than the computed field changed
    and every such changed field is unreferenced in the template, the
    handler returns at once: no request is made and the state -- caches and
    emitted record -- is untouched. *)
Theorem unreferenced_edit_is_skipped (E : env) (val old : obj) (st : state) :
  (∃ k, k ≠ env_computedField E ∧ serialized_changed val old k) →
  (∀ k, k ≠ env_computedField E → serialized_changed val old k →
        checkFieldInTemplate (env_template E) k = false) →
  handler E val (Some old) st = (st, Ok ()).
Proof.
  intros (k & Hne & Hch) Hunref. apply handler_gate_closed, shouldUpdate_false.
  split.
  - intros Hnil.
    assert (Hk : k ∈ changedFields (env_computedField E) val old)
      by (by apply changedFields_spec).
    simpl in Hnil. rewrite Hnil in Hk. by apply elem_of_nil in Hk.
  - intros k' [Hne' Hch']%changedFields_spec. by apply Hunref.
Qed.

(** ** Path lookup *)

(** A segment missing at the top level yields the sentinel. *)
Lemma findValueByPath_missing_first o i rest :
  obj_has i o = false →
  walk_path (VObj o) (i :: rest) = Ok {| pr_value := VNull; pr_found := false |}.
Proof. simpl. by intros ->. Qed.

(** A path without a dot never raises: it finds the top-level field or
    returns the sentinel. *)
Lemma findValueByPath_single_segment o path i :
  split_on "."%char path = [i] →
  findValueByPath o path =
  Ok (if obj_has i o then {| pr_value := obj_read i o; pr_found := true |}
      else {| pr_value := VNull; pr_found := false |}).
Proof.
  unfold findValueByPath. intros ->. simpl. by destruct (obj_has i o).
Qed.

(** Below an object the walk goes on, or stops with the sentinel. *)
Lemma walk_path_object o i rest :
  walk_path (VObj o) (i :: rest) =
  if obj_has i o then walk_path (obj_read i o) rest
  else Ok {| pr_value := VNull; pr_found := false |}.
Proof. simpl. by destruct (obj_has i o). Qed.

(** Below [null], [undefined], a number, a string or a boolean the [in]
    test raises. *)
Lemma walk_path_primitive v i rest :
  (∀ o, v ≠ VObj o) → (∀ l, v ≠ VArr l) →
  walk_path v (i :: rest) = Throw TypeError.
Proof. intros Ho Hl. destruct v; simpl; try done; [by destruct (Hl items) | by destruct (Ho props)]. Qed.

(** C9 fails: a path that continues below [null] raises instead of
    returning the sentinel. *)
Theorem findValueByPath_throws_below_null :
  findValueByPath [("author", VNull)] "author.name" = Throw TypeError.
Proof. reflexivity. Qed.

Lemma findValueByPath_throws_below_number :
  findValueByPath [("a", VNum 5)] "a.b" = Throw TypeError.
Proof. reflexivity. Qed.

(** ** Effects: frame properties *)

Section keeps.
Context {C : Type} (f : state → C).

Lemma keeps_ret {A} (a : A) : keeps f (ret a).
Proof. done. Qed.

Lemma keeps_lift {A} (r : result A) : keeps f (lift r).
Proof. done. Qed.

Lemma keeps_get_state : keeps f get_state.
Proof. done. Qed.

Lemma keeps_bind {A B} (c : M A) (k : A → M B) :
  keeps f c → (∀ a, keeps f (k a)) → keeps f (bind c k).
Proof.
  intros Hc Hk st. unfold bind. specialize (Hc st).
  destruct (c st) as [st1 [a|e]]; simpl in *; [|done].
  by rewrite Hk.
Qed.

Lemma keeps_mapM {A B} (g : A → M B) l :
  (∀ x, keeps f (g x)) → keeps f (mapM g l).
Proof.
  intros Hg. induction l as [|x l IH]; simpl; [apply keeps_ret|].
  apply keeps_bind; [done|]. intros y.
  apply keeps_bind; [done|]. intros ys. apply keeps_ret.
Qed.

Lemma keeps_foldM {A B} (g : A → B → M A) l a :
  (∀ a x, keeps f (g a x)) → keeps f (foldM g l a).
Proof.
  intros Hg. revert a. induction l as [|x l IH]; intros a; simpl.
  - apply keeps_ret.
  - apply keeps_bind; [done|]. intros a'. apply IH.
Qed.
End keeps.

Lemma keeps_final_clear_caches : keeps_final clear_caches.
Proof. done. Qed.

Lemma keeps_final_set_fieldCache key data :
  keeps_final (set_fieldCache key data).
Proof. done. Qed.

Lemma keeps_final_set_itemCache rc k item :
  keeps_final (set_itemCache rc k item).
Proof. done. Qed.

Lemma keeps_final_fetch E r : keeps_final (fetch E r).
Proof. intros st. unfold fetch. by destruct (env_api E _ _). Qed.

Ltac keeps_final_step :=
  first
    [ apply keeps_ret
    | apply keeps_lift
    | apply keeps_get_state
    | apply keeps_final_clear_caches
    | apply keeps_final_set_fieldCache
    | apply keeps_final_set_itemCache
    | apply keeps_final_fetch
    | apply keeps_bind; [|intros ?]
    | apply keeps_mapM; intros ?
    | match goal with
      | |- keeps _ (if ?b then _ else _) => destruct b
      | |- keeps _ (match ?x with _ => _ end) => destruct x
      end ].

Ltac keeps_final_tac := repeat keeps_final_step.

Lemma keeps_final_normalize_m2o fc prev : keeps_final (normalize_m2o fc prev).
Proof. unfold normalize_m2o. keeps_final_tac. Qed.

Lemma keeps_final_baseline_ids E pkFinal key :
  keeps_final (baseline_ids E pkFinal key).
Proof. unfold baseline_ids. keeps_final_tac. Qed.

Lemma keeps_final_merge_item rc fc item : keeps_final (merge_item rc fc item).
Proof. unfold merge_item. keeps_final_tac. Qed.

Lemma keeps_final_resolve_items E rc fc ids :
  keeps_final (resolve_items E rc fc ids).
Proof.
  unfold resolve_items, fetch_items.
  apply keeps_bind; [apply keeps_get_state|]. intros st.
  apply keeps_bind.
  - keeps_final_tac.
  - intros data. apply keeps_mapM. intros item.
    apply keeps_final_merge_item.
Qed.

Lemma keeps_final_resolve_relation E valObj oldValObj pkFinal key relation :
  keeps_final (resolve_relation E valObj oldValObj pkFinal key relation).
Proof.
  unfold resolve_relation, pending_ids, related_data, reset_o2m.
  apply keeps_bind.
  - destruct (String.eqb _ _).
    + apply keeps_bind; [apply keeps_final_normalize_m2o|].
      intros; apply keeps_ret.
    + apply keeps_bind; [keeps_final_tac|]. intros _.
      apply keeps_bind; [apply keeps_final_baseline_ids|].
      intros; keeps_final_tac.
  - intros p. apply keeps_bind; [apply keeps_lift|]. intros ids.
    apply keeps_bind; [|intros; apply keeps_lift].
    destruct ids; [apply keeps_ret|].
    destruct (if String.eqb _ _ then _ else _) as [rc|];
      [|apply keeps_ret].
    destruct (negb _); [apply keeps_final_resolve_items | apply keeps_ret].
Qed.

Lemma keeps_final_resolve_field E valObj oldValObj pkFinal rd key :
  keeps_final (resolve_field E valObj oldValObj pkFinal rd key).
Proof.
  unfold resolve_field. destruct (List.find _ _); [|apply keeps_ret].
  destruct (negb _); [apply keeps_ret|].
  apply keeps_bind; [apply keeps_final_resolve_relation|].
  intros; apply keeps_ret.
Qed.

(** Only relation-bearing, template-referenced keys enter the relational
    data. *)
Lemma resolve_field_keys E valObj oldValObj pkFinal rd key st st' rd' :
  resolve_field E valObj oldValObj pkFinal rd key st = (st', Ok rd') →
  ∀ k, obj_has k rd' = true → obj_has k rd = true ∨ resolved_key E k.
Proof.
  unfold resolve_field, resolved_key.
  destruct (List.find _ _) as [rel|] eqn:Hfind.
  - destruct (checkFieldInTemplate _ key) eqn:Href; simpl.
    + unfold bind. destruct (resolve_relation _ _ _ _ _ _ st) as [st1 [v|e]];
        [|done].
      intros [= <- <-] k. rewrite obj_has_set.
      intros [Hk|?]%orb_true_iff; [|by left].
      apply bool_decide_eq_true in Hk as <-. right. split; [by exists rel|done].
    + intros [= <- <-] k ?. by left.
  - intros [= <- <-] k ?. by left.
Qed.

Lemma foldM_resolve_field_keys E valObj oldValObj pkFinal keys rd st st' rd' :
  foldM (resolve_field E valObj oldValObj pkFinal) keys rd st = (st', Ok rd') →
  ∀ k, obj_has k rd' = true → obj_has k rd = true ∨ resolved_key E k.
Proof.
  revert rd st. induction keys as [|key keys IH]; intros rd st; simpl.
  - intros [= <- <-] k ?. by left.
  - unfold bind at 1.
    destruct (resolve_field _ _ _ _ rd key st) as [st1 [rd1|e]] eqn:Hstep;
      [|done].
    intros Hrest k Hk. destruct (IH _ _ Hrest k Hk) as [Hk1|?]; [|by right].
    by apply (resolve_field_keys _ _ _ _ _ _ _ _ _ Hstep).
Qed.

(** A recomputation either aborts, leaving the emitted record as it was, or
    replaces it by the composition of the edited record (with its removed
    keys nulled), the relational data and the current user. *)
Lemma recompute_outcome E val old st :
  match recompute E val old st with
  | (st', Ok _) =>
      ∃ rd, finalValues st' = compose_final E (null_removed old val) rd ∧
            ∀ k, obj_has k rd = true → resolved_key E k
  | (st', Throw _) => finalValues st' = finalValues st
  end.
Proof.
  unfold recompute, bind.
  pose proof (keeps_foldM finalValues
    (resolve_field E (null_removed old val) old (pk_final E (null_removed old val)))
    (obj_keys (null_removed old val)) []
    (keeps_final_resolve_field E _ _ _) st) as Hkeep.
  destruct (foldM _ _ _ st) as [st1 [rd|e]] eqn:Hfold; simpl in *; [|done].
  exists rd. split; [done|]. intros k Hk.
  by destruct (foldM_resolve_field_keys _ _ _ _ _ _ _ _ _ Hfold k Hk).
Qed.

(** What a firing that passes the gate does: it resolves the keys of the
    edited record in key order, threading the caches and the request log;
    if a resolution aborts, so does the firing, the emitted record being
    left as it was; otherwise the composite record is emitted. *)
Lemma handler_recomputes E val oldVal st :
  shouldUpdate (env_template E) (env_computedField E) val (default [] oldVal)
    = true →
  let old := default [] oldVal in
  let valObj := null_removed old val in
  match foldM (resolve_field E valObj old (pk_final E valObj))
              (obj_keys valObj) [] st with
  | (st1, Ok rd) =>
      handler E val oldVal st =
        ({| fieldCache := fieldCache st1; itemCache := itemCache st1;
            finalValues := compose_final E valObj rd;
            requests := requests st1 |}, Ok ()) ∧
      ∀ k, obj_has k rd = true → resolved_key E k
  | (st1, Throw e) =>
      handler E val oldVal st = (st1, Throw e) ∧
      finalValues st1 = finalValues st
  end.
Proof.
  intros Hopen old valObj. rewrite (handler_gate_open E val oldVal Hopen).
  unfold recompute, bind. fold old. fold valObj.
  pose proof (keeps_foldM finalValues
    (resolve_field E valObj old (pk_final E valObj)) (obj_keys valObj) []
    (keeps_final_resolve_field E _ _ _) st) as Hkeep.
  destruct (foldM _ _ _ st) as [st1 [rd|e]] eqn:Hfold; simpl in *; [|done].
  split; [done|]. intros k Hk.
  by destruct (foldM_resolve_field_keys _ _ _ _ _ _ _ _ _ Hfold k Hk).
Qed.

(** C10: the computed field's own key is never a changed field; when the
    serialised values differ at most at that key, the changed-field list is
    empty, the gate opens, and the handler recomputes -- whatever the
    template says: it resolves the keys of the record in key order and,
    unless a resolution aborts (the emitted record then stays as it was),
    emits the composite of the edited record, the resolved values and the
    current user. *)
Theorem computed_field_self_exclusion (E : env) (val old : obj) :
  (env_computedField E ∉ changedFields (env_computedField E) val old) ∧
  ((∀ k, k ≠ env_computedField E → ¬ serialized_changed val old k) →
   changedFields (env_computedField E) val old = [] ∧
   shouldUpdate (env_template E) (env_computedField E) val old = true ∧
   ∀ st,
     let valObj := null_removed old val in
     match foldM (resolve_field E valObj old (pk_final E valObj))
                 (obj_keys valObj) [] st with
     | (st1, Ok rd) =>
         handler E val (Some old) st =
           ({| fieldCache := fieldCache st1; itemCache := itemCache st1;
               finalValues := compose_final E valObj rd;
               requests := requests st1 |}, Ok ()) ∧
         ∀ k, obj_has k rd = true → resolved_key E k
     | (st1, Throw e) =>
         handler E val (Some old) st = (st1, Throw e) ∧
         finalValues st1 = finalValues st
     end).
Proof.
  split.
  - by intros [? _]%changedFields_spec.
  - intros Hsame.
    assert (Hnil : changedFields (env_computedField E) val old = []).
    { destruct (changedFields _ val old) as [|k l] eqn:Hc; [done|].
      assert (Hk : k ∈ changedFields (env_computedField E) val old)
        by (rewrite Hc; apply list_elem_of_here).
      apply changedFields_spec in Hk as [Hne Hch]. by destruct (Hsame k Hne). }
    assert (Hgate : shouldUpdate (env_template E) (env_computedField E)
                      val old = true)
      by (apply shouldUpdate_true; by left).
    split; [done|]. split; [done|].
    intros st. by apply (handler_recomputes E val (Some old) st).
Qed.

(** ** The first invocation *)

Lemma first_changed_iff val k :
  parsed val → (serialized_changed val [] k ↔ k ∈ obj_keys val).
Proof.
  intros Hp. unfold serialized_changed.
  change (obj_read k []) with VUndef. change (stringify VUndef) with (@None string).
  rewrite stringify_undefined, <- obj_has_keys. unfold obj_read, obj_has.
  destruct (obj_get k val) as [v|] eqn:Hg; simpl.
  - split; [done|]. intros _ ->. by apply obj_get_elem, Hp in Hg.
  - split; [done | discriminate].
Qed.

(** C3 (as amended): on the first invocation the gate is the ordinary one,
    taken against an empty previous record.  It opens exactly when the
    record has no field besides the computed one or one of its other fields
    is referenced in the template; when it stays closed nothing is emitted,
    and when it opens the recomputation emits the composite record unless a
    request fails or a malformed mutation makes it abort. *)
Theorem first_invocation_gate (E : env) (val : obj) (st : state) :
  parsed val →
  (shouldUpdate (env_template E) (env_computedField E) val [] = true ↔
     (∀ k, k ∈ obj_keys val → k = env_computedField E) ∨
     (∃ k, k ∈ obj_keys val ∧ k ≠ env_computedField E ∧
           checkFieldInTemplate (env_template E) k = true)) ∧
  (shouldUpdate (env_template E) (env_computedField E) val [] = false →
     handler E val None st = (st, Ok ())) ∧
  (shouldUpdate (env_template E) (env_computedField E) val [] = true →
     match handler E val None st with
     | (st', Ok _) => ∃ rd, finalValues st' = compose_final E val rd
     | (st', Throw _) => finalValues st' = finalValues st
     end).
Proof.
  intros Hp. split; [|split].
  - rewrite shouldUpdate_true. split.
    + intros [Hnil|(k & Hk & Href)].
      * left. intros k Hk. destruct (decide (k = env_computedField E)); [done|].
        assert (Hin : k ∈ changedFields (env_computedField E) val [])
          by (apply changedFields_spec; split; [done | by apply first_changed_iff]).
        simpl in Hnil. rewrite Hnil in Hin. by apply elem_of_nil in Hin.
      * right. apply changedFields_spec in Hk as [Hne Hch].
        exists k. split; [by apply first_changed_iff | done].
    + intros [Hall|(k & Hk & Hne & Href)].
      * left. destruct (changedFields _ val []) as [|k l] eqn:Hc; [done|].
        assert (Hin : k ∈ changedFields (env_computedField E) val [])
          by (rewrite Hc; apply list_elem_of_here).
        apply changedFields_spec in Hin as [Hne Hch].
        apply first_changed_iff in Hch; [|done]. by destruct (Hne (Hall k Hch)).
      * right. exists k. split; [|done]. apply changedFields_spec.
        split; [done | by apply first_changed_iff].
  - intros Hclosed. by apply (handler_gate_closed E val None).
  - intros Hopen. rewrite (handler_gate_open E val None Hopen). simpl.
    pose proof (recompute_outcome E val [] st) as Hout.
    destruct (recompute E val [] st) as [st' [[]|e]]; [|done].
    destruct Hout as (rd & Hrd & _). by exists rd.
Qed.

(** C3 (as stated) fails: a first record whose only field is not referenced
    in the template is not recomputed, and nothing is emitted. *)
Lemma first_invocation_can_skip :
  let E := posts_env "{{title}}" in
  let val := [("name", VStr "x")] in
  shouldUpdate (env_template E) (env_computedField E) val [] = false ∧
  handler E val None (initial_state E) = (initial_state E, Ok ()) ∧
  obj_has "name" (finalValues (handler E val None (initial_state E)).1) = false.
Proof. by vm_compute. Qed.

(** An instance: a first record whose field the template references. *)
Lemma first_invocation_gate_witness :
  let E := posts_env "{{title}}" in
  shouldUpdate (env_template E) (env_computedField E) [("title", VStr "t")] []
    = true.
Proof.
  intros E.
  assert (Hp : parsed [("title", VStr "t")]).
  { intros k v [[= -> ->]|H]%elem_of_cons; [done | by apply elem_of_nil in H]. }
  apply (first_invocation_gate E _ (initial_state E) Hp).
  right. exists "title". split; [apply list_elem_of_here|]. split; [done|].
  reflexivity.
Defined.

(** ** Removed keys *)

Lemma null_fold_mono k keys val :
  obj_has k val = true →
  obj_has k (fold_left (fun valObj key =>
                          if negb (obj_in key valObj)
                          then obj_set key VNull valObj else valObj)
                       keys val) = true.
Proof.
  revert val. induction keys as [|key keys IH]; intros val Hv; simpl; [done|].
  apply IH. destruct (negb (obj_in key val)); [|done].
  rewrite obj_has_set, Hv. apply orb_true_r.
Qed.

Lemma null_removed_has_mono k old val :
  obj_has k val = true → obj_has k (null_removed old val) = true.
Proof. apply null_fold_mono. Qed.

(** A removed key is entered, unless it names an inherited member. *)
Lemma null_removed_has k old val :
  proto_member k = false →
  k ∈ obj_keys old → obj_has k (null_removed old val) = true.
Proof.
  intros Hproto. unfold null_removed. revert val.
  induction (obj_keys old) as [|key keys IH]; intros val; cbn [fold_left].
  - by intros ?%elem_of_nil.
  - intros [->|Hin]%elem_of_cons; [|by apply IH].
    apply null_fold_mono.
    unfold obj_in. rewrite Hproto, orb_false_r.
    destruct (obj_has key val) eqn:Hh; cbn [negb]; [done|].
    rewrite obj_has_set, bool_decide_eq_true_2; done.
Qed.

Lemma null_removed_entries k v old val :
  (k, v) ∈ null_removed old val → (k, v) ∈ val ∨ v = VNull.
Proof.
  unfold null_removed. revert val.
  induction (obj_keys old) as [|key keys IH]; intros val; simpl; [by left|].
  intros H. apply IH in H as [H|?]; [|by right].
  destruct (negb (obj_in key val)); [|by left].
  apply elem_of_obj_set in H as [[= _ ->]|?]; [by right | by left].
Qed.

Lemma obj_get_compose_final E valObj rd k :
  k ≠ "__currentUser" → obj_has k rd = false →
  obj_get k (compose_final E valObj rd) = obj_get k (spread valObj []).
Proof.
  intros Hk Hrd. unfold compose_final.
  rewrite obj_get_set_ne by done. by apply obj_get_spread_absent.
Qed.

(** C6 (as amended): in the record emitted by a recomputation, a key of the
    previous edited record that the new one lacks is bound to [null],
    provided the key is not resolved relationally, is not the reserved
    current-user key and does not name a member of [Object.prototype]
    (such a key passes the [in] test of line 81 and is left out). *)
Theorem removed_key_is_null (E : env) (val old : obj) (st st' : state)
    (k : string) :
  shouldUpdate (env_template E) (env_computedField E) val old = true →
  handler E val (Some old) st = (st', Ok ()) →
  k ∈ obj_keys old → k ∉ obj_keys val →
  ¬ resolved_key E k → k ≠ "__currentUser" → proto_member k = false →
  obj_get k (finalValues st') = Some VNull.
Proof.
  intros Hopen Hrun Hold Hnew Hunres Hres Hproto.
  rewrite (handler_gate_open E val (Some old) Hopen) in Hrun. simpl in Hrun.
  pose proof (recompute_outcome E val old st) as Hout. rewrite Hrun in Hout.
  destruct Hout as (rd & -> & Hrd).
  rewrite obj_get_compose_final; [|done|].
  - apply obj_get_spread_uniform; [by apply null_removed_has|].
    intros v [Hin| ->]%null_removed_entries; [|done].
    destruct Hnew. by apply obj_has_keys, (obj_has_elem _ v).
  - destruct (obj_has k rd) eqn:Hh; [|done]. by destruct (Hunres (Hrd k Hh)).
Qed.

(** C6 (as stated) fails for a removed key that is resolved relationally:
    the emitted record binds it to the resolved value, here the default
    mutation taken for a many-to-one field. *)
Lemma removed_relational_key_not_null :
  let E := posts_env "{{author.title}}" in
  let old := [("author", VNum 5)] in
  let val := [] in
  let run := handler E val (Some old) (initial_state E) in
  run.2 = Ok () ∧ "author" ∈ obj_keys old ∧ ("author" ∉ obj_keys val) ∧
  obj_get "author" (finalValues run.1) = Some default_changes ∧
  obj_get "author" (finalValues run.1) ≠ Some VNull.
Proof.
  split; [by vm_compute|]. split; [apply list_elem_of_here|].
  split; [by intros ?%elem_of_nil|]. split; [by vm_compute|].
  by vm_compute.
Qed.

(** An instance: the plain field [name] is dropped while the author changes. *)
Lemma removed_key_is_null_witness :
  let E := posts_env "{{author.title}}" in
  let old := [("author", VNum 5); ("name", VStr "x")] in
  let val := [("author", VNum 6)] in
  obj_get "name" (finalValues (handler E val (Some old) (initial_state E)).1)
    = Some VNull.
Proof.
  intros E old val.
  apply (removed_key_is_null E val old (initial_state E)).
  - by vm_compute.
  - by vm_compute.
  - apply list_elem_of_further, list_elem_of_here.
  - intros [[=]|H]%elem_of_cons. by apply elem_of_nil in H.
  - intros [[rel Hrel] _]. by vm_compute in Hrel.
  - done.
  - reflexivity.
Defined.

(** The request log is only touched by [fetch]. *)

Lemma keeps_requests_clear_caches : keeps requests clear_caches.
Proof. done. Qed.

Lemma keeps_requests_set_fieldCache key data :
  keeps requests (set_fieldCache key data).
Proof. done. Qed.

Lemma keeps_requests_set_itemCache rc k item :
  keeps requests (set_itemCache rc k item).
Proof. done. Qed.

Lemma keeps_requests_merge_item rc fc item :
  keeps requests (merge_item rc fc item).
Proof.
  unfold merge_item.
  repeat first [ apply keeps_bind; [|intros ?] | apply keeps_lift
               | apply keeps_ret | apply keeps_requests_set_itemCache ].
Qed.

(** ** Cache invalidation *)

#[local] Arguments resolve_items : simpl never.
#[local] Arguments fetch_items : simpl never.
#[local] Arguments merge_item : simpl never.

Lemma normalize_m2o_state fc prev st :
  (normalize_m2o fc prev st).1 =
  if is_number_or_string fc && String.eqb (js_typeof prev) "object"
  then cleared st else st.
Proof.
  unfold normalize_m2o. destruct (is_number_or_string fc) eqn:Hs; simpl.
  - unfold bind. by destruct (String.eqb (js_typeof prev) "object").
  - destruct (String.eqb (js_typeof fc) "object"); [|done].
    unfold bind, lift. by destruct (js_in "id" fc) as [[]|].
Qed.

Lemma reset_o2m_run fc prev st :
  reset_o2m fc prev st =
  (if is_array fc && negb (is_array prev) then cleared st else st, Ok ()).
Proof. unfold reset_o2m. by destruct (is_array fc && negb (is_array prev)). Qed.



(** The baseline read, as a state transformer. *)
Lemma baseline_ids_run E pkFinal key st :
  strict_eq pkFinal (VStr "+") = false →
  baseline_ids E pkFinal key st =
  match fieldCache st !! key with
  | Some data => (st, Ok (arr_concat [] data))
  | None =>
      let logged := requests st ++ [GetField (env_collection E) pkFinal key] in
      match env_api E (requests st) (GetField (env_collection E) pkFinal key) with
      | Some data =>
          ({| fieldCache := <[key := data]> (fieldCache st);
              itemCache := itemCache st; finalValues := finalValues st;
              requests := logged |}, Ok (arr_concat [] data))
      | None =>
          ({| fieldCache := fieldCache st; itemCache := itemCache st;
              finalValues := finalValues st; requests := logged |},
           Throw FetchFailure)
      end
  end.
Proof.
  intros Hpk. unfold baseline_ids. rewrite Hpk. simpl.
  unfold bind at 1. simpl. destruct (fieldCache st !! key) as [data|]; [done|].
  unfold bind, fetch, set_fieldCache, ret. simpl.
  by destruct (env_api E _ _).
Qed.

Lemma baseline_ids_new_record E pkFinal key st :
  strict_eq pkFinal (VStr "+") = true →
  baseline_ids E pkFinal key st = (st, Ok []).
Proof. intros Hpk. unfold baseline_ids. by rewrite Hpk. Qed.

(** The entity read, as a state transformer followed by the merge. *)
Lemma resolve_items_run E rc fc ids st :
  resolve_items E rc fc ids st =
  match itemCache st !! rc with
  | Some cached =>
      if all_cached cached ids
      then mapM (merge_item rc fc)
                (map (fun id => default VUndef (cached !! to_js_string id)) ids)
                st
      else bind (fetch_items E rc ids) (mapM (merge_item rc fc)) st
  | None => bind (fetch_items E rc ids) (mapM (merge_item rc fc)) st
  end.
Proof.
  unfold resolve_items. unfold bind at 1. simpl.
  destruct (itemCache st !! rc) as [cached|]; [|done].
  by destruct (all_cached cached ids).
Qed.

Lemma fetch_items_requests E rc ids st :
  requests (fetch_items E rc ids st).1 =
  requests st ++ [GetItems (items_path rc) ids].
Proof.
  unfold fetch_items, bind, fetch.
  destruct (env_api E _ _) as [[]|]; done.
Qed.

Lemma fetch_then_merge_requests E rc fc ids st :
  requests (bind (fetch_items E rc ids) (mapM (merge_item rc fc)) st).1 =
  requests st ++ [GetItems (items_path rc) ids].
Proof.
  unfold bind. pose proof (fetch_items_requests E rc ids st) as Hf.
  destruct (fetch_items E rc ids st) as [st1 [l|e]]; simpl in *; [|done].
  rewrite <- Hf. apply (keeps_mapM requests). intros x.
  apply keeps_requests_merge_item.
Qed.


(** ** Resolving entities *)

Lemma bind_result {A B} (c : M A) (k : A → M B) st :
  (bind c k st).2 =
  match c st with
  | (st', Ok a) => (k a st').2
  | (_, Throw e) => Throw e
  end.
Proof. unfold bind. by destruct (c st) as [st' [a|e]]. Qed.

Lemma bind_run {A B} (c : M A) (k : A → M B) st st' a :
  c st = (st', Ok a) → bind c k st = k a st'.
Proof. unfold bind. by intros ->. Qed.

Lemma merge_item_result rc fc item st upd :
  js_get fc "update" = Ok upd →
  (merge_item rc fc item st).2 = merged upd item.
Proof.
  intros Hupd. unfold merge_item, merged, bind, lift, set_itemCache, ret, rbind.
  destruct (js_get item "id") as [item_id|e]; [|done]. simpl. rewrite Hupd.
  by destruct (find_update upd item_id).
Qed.

Lemma mapM_merge_result rc fc upd items st :
  js_get fc "update" = Ok upd →
  (mapM (merge_item rc fc) items st).2 = rmap (merged upd) items.
Proof.
  intros Hupd. revert st. induction items as [|item items IH]; intros st; [done|].
  cbn [mapM rmap]. rewrite bind_result.
  pose proof (merge_item_result rc fc item st upd Hupd) as Hm.
  destruct (merge_item rc fc item st) as [st1 [y|e]]; simpl in Hm; rewrite <- Hm;
    [|done].
  simpl. rewrite bind_result. specialize (IH st1).
  destruct (mapM (merge_item rc fc) items st1) as [st2 [ys|e]]; simpl in IH;
    rewrite <- IH; done.
Qed.

Lemma resolve_items_result E rc fc upd ids st :
  js_get fc "update" = Ok upd →
  (resolve_items E rc fc ids st).2 =
  match item_source E st rc ids with
  | None => Throw FetchFailure
  | Some (VArr items) => rmap (merged upd) items
  | Some _ => Throw TypeError
  end.
Proof.
  intros Hupd. rewrite resolve_items_run. unfold item_source.
  assert (Hfetch :
    (bind (fetch_items E rc ids) (mapM (merge_item rc fc)) st).2 =
    match env_api E (requests st) (GetItems (items_path rc) ids) with
    | None => Throw FetchFailure
    | Some (VArr items) => rmap (merged upd) items
    | Some _ => Throw TypeError
    end).
  { rewrite bind_result. unfold fetch_items, bind, fetch, lift, ret.
    destruct (env_api E _ _) as [[]|]; try done.
    by apply mapM_merge_result. }
  destruct (itemCache st !! rc) as [cached|]; [|done].
  destruct (all_cached cached ids); [|done].
  by apply mapM_merge_result.
Qed.

Lemma find_by_id_ok item_id U uids :
  rmap (fun u => js_get u "id") U = Ok uids →
  ∃ u, find_by_id item_id U = Ok u.
Proof.
  revert uids. induction U as [|u U IH]; intros uids; simpl; [by exists VUndef|].
  destruct (js_get u "id") as [id|e]; simpl; [|done].
  destruct (rmap _ U) as [ids|e] eqn:HU; simpl; [|done]. intros _.
  destruct (strict_eq item_id id); [by exists u|]. by apply (IH ids).
Qed.

Lemma js_get_readable v k : readable v → ∃ x, js_get v k = Ok x.
Proof.
  intros [Hu Hn]. destruct v; simpl; try done; eauto.
  - destruct (array_index k); [eauto|]. destruct (String.eqb k "length"); eauto.
  - destruct (array_index k); [eauto|]. destruct (String.eqb k "length"); eauto.
Qed.

Lemma merged_overlay U uids item :
  readable item → rmap (fun u => js_get u "id") U = Ok uids →
  merged (VArr U) item = Ok (overlay U item).
Proof.
  intros Hr HU. unfold merged, overlay, pending_for.
  destruct (js_get_readable item "id" Hr) as [item_id ->]. simpl.
  by destruct (find_by_id_ok item_id U uids HU) as [u ->].
Qed.

Lemma merged_no_update item :
  readable item → merged VUndef item = Ok (overlay [] item).
Proof.
  intros Hr. unfold merged, overlay, pending_for.
  by destruct (js_get_readable item "id" Hr) as [item_id ->].
Qed.

Lemma rmap_ok_map {A B} (f : A → result B) (g : A → B) l :
  Forall (fun x => f x = Ok (g x)) l → rmap f l = Ok (map g l).
Proof.
  induction 1 as [|x l Hx _ IH]; simpl; [done|]. by rewrite Hx, IH.
Qed.

(** The members of a mutation, read the way the source reads them. *)
Lemma mutation_list_get fc name l :
  mutation_list fc name = Some l →
  ∃ v, js_get fc name = Ok v ∧
       ((v = VArr l ∧ truthy v = true) ∨ (v = VUndef ∧ l = [])).
Proof.
  unfold mutation_list. destruct (js_get fc name) as [v|e]; [|done].
  destruct v; simpl; try done; intros [= <-]; eauto.
Qed.

Lemma filter_filter_and {A} (p q : A → bool) l :
  List.filter q (List.filter p l) = List.filter (fun x => p x && q x) l.
Proof.
  induction l as [|x l IH]; simpl; [done|].
  destruct (p x); simpl; [|done]. destruct (q x); by rewrite IH.
Qed.

Lemma filter_true {A} (l : list A) : List.filter (fun _ => true) l = l.
Proof. induction l as [|x l IH]; simpl; [done | by rewrite IH]. Qed.

Lemma drop_pending_lists fc U D uids base :
  mutation_list fc "update" = Some U →
  mutation_list fc "delete" = Some D →
  rmap (fun u => js_get u "id") U = Ok uids →
  drop_pending fc base =
  Ok (List.filter (fun id => negb (arr_includes uids id) &&
                             negb (arr_includes D id)) base).
Proof.
  intros HU HD Hids. unfold drop_pending.
  apply mutation_list_get in HU as (u & -> & [[-> _]|[-> ->]]);
    apply mutation_list_get in HD as (d & -> & [[-> _]|[-> ->]]); simpl.
  - rewrite Hids. simpl. by rewrite filter_filter_and.
  - rewrite Hids. simpl. f_equal. apply List.filter_ext. intros x.
    simpl in Hids. by rewrite andb_true_r.
  - injection Hids as <-. simpl. done.
  - injection Hids as <-. simpl. f_equal. by rewrite filter_true.
Qed.

Lemma add_updated_lists fc U uids ids :
  mutation_list fc "update" = Some U →
  rmap (fun u => js_get u "id") U = Ok uids →
  add_updated fc ids = Ok (ids ++ uids).
Proof.
  intros HU Hids. unfold add_updated.
  apply mutation_list_get in HU as (u & -> & [[-> _]|[-> ->]]); simpl.
  - by rewrite Hids.
  - injection Hids as <-. by rewrite app_nil_r.
Qed.

Lemma field_value_lists isM2O fc C data :
  mutation_list fc "create" = Some C →
  field_value isM2O fc data =
  Ok (if isM2O then default VUndef (head (data ++ C)) else VArr (data ++ C)).
Proof.
  intros HC. unfold field_value.
  apply mutation_list_get in HC as (c & -> & [[-> _]|[-> ->]]); simpl; [done|].
  by rewrite app_nil_r.
Qed.

Lemma rmap_merged_lists fc U uids items :
  mutation_list fc "update" = Some U →
  rmap (fun u => js_get u "id") U = Ok uids →
  Forall readable items →
  ∃ upd, js_get fc "update" = Ok upd ∧
         rmap (merged upd) items = Ok (map (overlay U) items).
Proof.
  intros HU Hids Hr.
  apply mutation_list_get in HU as (u & Hu & [[-> _]|[-> ->]]).
  - exists (VArr U). split; [done|]. apply rmap_ok_map.
    eapply Forall_impl; [exact Hr|]. intros x Hx.
    by apply (merged_overlay U uids).
  - exists VUndef. split; [done|]. apply rmap_ok_map.
    eapply Forall_impl; [exact Hr|]. intros x Hx. by apply merged_no_update.
Qed.

Lemma related_data_result E (isM2O : bool) relation fc upd ids st rc :
  (if isM2O then related_collection relation else Some (collection relation))
    = Some rc →
  js_get fc "update" = Ok upd →
  (related_data E isM2O relation fc ids st).2 =
  match related_source E st rc ids with
  | None => Throw FetchFailure
  | Some (VArr items) => rmap (merged upd) items
  | Some _ => Throw TypeError
  end.
Proof.
  intros Hrc Hupd. unfold related_data, related_source.
  destruct ids as [|id ids]; [done|]. rewrite Hrc.
  destruct (String.eqb rc ""); simpl; [done|].
  by apply resolve_items_result.
Qed.

Lemma baseline_ids_result E pkFinal key st data :
  strict_eq pkFinal (VStr "+") = false →
  baseline_source E st pkFinal key = Some data →
  (baseline_ids E pkFinal key st).2 = Ok (arr_concat [] data).
Proof.
  intros Hpk. rewrite (baseline_ids_run _ _ _ _ Hpk). unfold baseline_source.
  destruct (fieldCache st !! key) as [d|]; [by intros [= ->]|].
  by intros ->.
Qed.

(** ** One-to-many reconciliation *)

Lemma pending_ids_o2m_run E pkFinal key fc prev st :
  pending_ids E false pkFinal key fc prev st =
  match baseline_ids E pkFinal key (reset_o2m fc prev st).1 with
  | (st1, Ok base) =>
      (st1, rbind (drop_pending fc base) (fun ids => Ok (fc, ids)))
  | (st1, Throw e) => (st1, Throw e)
  end.
Proof.
  unfold pending_ids. unfold bind at 1. rewrite reset_o2m_run. simpl.
  unfold bind at 1. destruct (baseline_ids _ _ _ _) as [st1 [base|e]]; [|done].
  unfold bind, lift, ret, rbind. by destruct (drop_pending fc base).
Qed.

Lemma resolve_relation_run E valObj oldValObj pkFinal key relation st
    (isM2O : bool) fc st1 fc' ids0 :
  String.eqb (collection relation) (env_collection E) = isM2O →
  nullish_or (obj_read (if isM2O then meta_key relation many_field
                        else meta_key relation one_field) valObj)
             default_changes = fc →
  pending_ids E isM2O pkFinal key fc (obj_read key oldValObj) st
    = (st1, Ok (fc', ids0)) →
  resolve_relation E valObj oldValObj pkFinal key relation st =
  match add_updated fc' ids0 with
  | Ok ids =>
      match related_data E isM2O relation fc' ids st1 with
      | (st2, Ok data) => (st2, field_value isM2O fc' data)
      | (st2, Throw e) => (st2, Throw e)
      end
  | Throw e => (st1, Throw e)
  end.
Proof.
  intros HisM2O Hfc Hp. unfold resolve_relation. rewrite HisM2O, Hfc.
  rewrite (bind_run _ _ _ _ _ Hp). simpl. unfold bind at 1, lift at 1.
  destruct (add_updated fc' ids0) as [ids|e]; [|done].
  unfold bind, lift. by destruct (related_data _ _ _ _ _ _) as [st2 [data|e]].
Qed.

(** *** The overlay keeps the entity's id *)

Lemma keys_in_order_fresh before ks :
  keys_in_order before ks = true →
  NoDup ks ∧ ∀ k, k ∈ ks → existsb (String.eqb k) before = false.
Proof.
  revert before. induction ks as [|k ks IH]; intros before.
  - intros _. split; [constructor | by intros k ?%elem_of_nil].
  - simpl. intros [[Hnew _]%andb_true_iff Hrest]%andb_true_iff.
    apply negb_true_iff in Hnew.
    destruct (IH _ Hrest) as [Hnd Hfresh]. split.
    + constructor; [|done]. intros Hin. specialize (Hfresh k Hin).
      rewrite existsb_app in Hfresh. simpl in Hfresh.
      by rewrite String.eqb_refl, orb_true_r in Hfresh.
    + intros k' [->|Hin]%elem_of_cons; [done|]. specialize (Hfresh k' Hin).
      rewrite existsb_app in Hfresh. by apply orb_false_iff in Hfresh as [? _].
Qed.

Lemma obj_get_NoDup k v o :
  NoDup (obj_keys o) → (k, v) ∈ o → obj_get k o = Some v.
Proof.
  induction o as [|[k1 v1] o IH]; simpl.
  - by intros _ ?%elem_of_nil.
  - intros [Hk1 Hnd]%NoDup_cons [[= -> ->]|Hin]%elem_of_cons.
    + by rewrite String.eqb_refl.
    + destruct (String.eqb_spec k k1) as [->|Hne]; [|by apply IH].
      destruct Hk1. by apply obj_has_keys, (obj_has_elem _ v).
Qed.

Lemma obj_get_spread_ordered k src dst :
  property_order src →
  obj_get k (spread src dst) =
  match obj_get k src with Some v => Some v | None => obj_get k dst end.
Proof.
  intros [Hnd _]%keys_in_order_fresh.
  destruct (obj_get k src) as [v|] eqn:Hk.
  - apply obj_get_spread_uniform; [by apply obj_has_true; exists v|].
    intros v' Hv'. apply (obj_get_NoDup k v' src Hnd) in Hv'. congruence.
  - by apply obj_get_spread_absent, obj_has_false.
Qed.

Lemma find_by_id_found i U u :
  find_by_id i U = Ok u →
  u = VUndef ∨ (u ∈ U ∧ ∃ i', js_get u "id" = Ok i' ∧ strict_eq i i' = true).
Proof.
  induction U as [|u' U IH]; simpl; [intros [= <-]; by left|].
  destruct (js_get u' "id") as [i'|e] eqn:Hid; simpl; [|done].
  destruct (strict_eq i i') eqn:Heq.
  - intros [= <-]. right. split; [apply list_elem_of_here | by exists i'].
  - intros [?|[? ?]]%IH; [by left|]. right. split; [|done].
    by apply list_elem_of_further.
Qed.

Lemma overlay_keeps_id U e id :
  entity_with_id id e → Forall json_object U →
  js_get (overlay U e) "id" = Ok id.
Proof.
  intros (o & -> & Ho & Hid) HU. unfold overlay, pending_for. simpl.
  rewrite (spread_property_order o Ho). f_equal. rewrite Hid.
  destruct (find_by_id id U) as [u|err] eqn:Hfind; [|done].
  apply find_by_id_found in Hfind as [->|(Hin & i' & Hi' & Heq)]; [done|].
  rewrite Forall_forall in HU. destruct (HU u Hin) as (uo & -> & Huo).
  simpl. simpl in Hi'. injection Hi' as Hu.
  apply strict_eq_eq in Heq. subst i'. unfold obj_read.
  rewrite (obj_get_spread_ordered "id" uo o Huo).
  unfold obj_read in Heq, Hid. by destruct (obj_get "id" uo).
Qed.

(** C1 (as amended): for a one-to-many field of a saved record, the
    baseline ids come from the field cache or, failing that, from one field
    read that is then memoised under the field's name; the ids resolved are
    the baseline ids that occur neither in the update list nor in the
    delete list, followed by the update-list ids.  The resolved array holds
    the entities obtained for exactly those ids -- the cached ones, in the
    order of the ids, on a full cache hit, and otherwise the server's
    answer as the server orders it -- each overlaid with the update entry
    of the same id, and after them the created entries.  When the entities
    obtained are the ones holding the requested ids, in request order, the
    resolved elements hold those ids, in that order. *)
Theorem o2m_reconciliation (E : env) (valObj oldValObj : obj)
    (pkFinal : value) (key : string) (relation : Relation) (st : state)
    (fc : value) (U D C uids base entities : list value) :
  String.eqb (collection relation) (env_collection E) = false →
  strict_eq pkFinal (VStr "+") = false →
  nullish_or (obj_read (meta_key relation one_field) valObj) default_changes
    = fc →
  mutation_list fc "update" = Some U →
  mutation_list fc "delete" = Some D →
  mutation_list fc "create" = Some C →
  rmap (fun u => js_get u "id") U = Ok uids →
  let st0 := (reset_o2m fc (obj_read key oldValObj) st).1 in
  baseline_source E st0 pkFinal key = Some (VArr base) →
  let ids :=
    List.filter (fun id => negb (arr_includes uids id) &&
                           negb (arr_includes D id)) base ++ uids in
  let st1 := (baseline_ids E pkFinal key st0).1 in
  related_source E st1 (collection relation) ids = Some (VArr entities) →
  Forall readable entities →
  (resolve_relation E valObj oldValObj pkFinal key relation st).2 =
    Ok (VArr (map (overlay U) entities ++ C)) ∧
  match fieldCache st0 !! key with
  | Some _ => st1 = st0
  | None =>
      fieldCache st1 !! key = Some (VArr base) ∧
      requests st1 =
        requests st0 ++ [GetField (env_collection E) pkFinal key]
  end ∧
  (Forall2 entity_with_id ids entities → Forall json_object U →
   Forall2 (fun id r => js_get r "id" = Ok id) ids
           (map (overlay U) entities)).
Proof.
  intros HisM2O Hpk Hfc HU HD HC Hids st0 Hbase ids st1 Hent Hread.
  split; [|split]; cycle 2.
  { intros Hfaith HUobj. apply Forall2_fmap_r.
    eapply Forall2_impl; [exact Hfaith|]. intros id e He.
    by apply overlay_keeps_id. }
  - pose proof (baseline_ids_result E pkFinal key st0 _ Hpk Hbase) as Hb.
    simpl in Hb.
    assert (Hp : pending_ids E false pkFinal key fc (obj_read key oldValObj) st
                 = (st1, Ok (fc, List.filter
                      (fun id => negb (arr_includes uids id) &&
                                 negb (arr_includes D id)) base))).
    { rewrite pending_ids_o2m_run. fold st0.
      rewrite (surjective_pairing (baseline_ids E pkFinal key st0)), Hb.
      fold st1. by rewrite (drop_pending_lists fc U D uids base HU HD Hids). }
    rewrite (resolve_relation_run E valObj oldValObj pkFinal key relation st
               false fc st1 fc _ HisM2O Hfc Hp).
    rewrite (add_updated_lists fc U uids _ HU Hids). fold ids.
    destruct (rmap_merged_lists fc U uids entities HU Hids Hread)
      as (upd & Hupd & Hmerge).
    pose proof (related_data_result E false relation fc upd ids st1
                  (collection relation) eq_refl Hupd) as Hrel.
    rewrite Hent, Hmerge in Hrel.
    destruct (related_data E false relation fc ids st1) as [st2 [data|e]];
      simpl in Hrel; [|done].
    injection Hrel as ->. simpl.
    by rewrite (field_value_lists false fc C _ HC).
  - subst st1. rewrite (baseline_ids_run _ _ _ _ Hpk).
    unfold baseline_source in Hbase.
    destruct (fieldCache st0 !! key) as [d|]; [done|]. rewrite Hbase. simpl.
    split; [by rewrite lookup_insert_eq | done].
Qed.

(** The instance of the specification: baseline 1, 2, 3, comment 2 edited,
    comment 3 deleted. *)
Lemma o2m_reconciliation_example :
  let E := posts_env "{{comments.title}}" in
  let valObj :=
    [("comments",
      VObj [("create", VArr []);
            ("update", VArr [VObj [("id", VNum 2); ("title", VStr "new")]]);
            ("delete", VArr [VNum 3])])] in
  let relation :=
    {| collection := "comments"; related_collection := Some "posts";
       meta := Some {| one_field := Some "comments";
                       many_field := Some "post" |} |} in
  (resolve_relation E valObj [] (VNum 9) "comments" relation
                    (initial_state E)).2 =
  Ok (VArr [VObj [("id", VNum 1); ("title", VStr "stored")];
            VObj [("id", VNum 2); ("title", VStr "new")]]).
Proof.
  intros E valObj relation.
  refine (proj1 (o2m_reconciliation E valObj [] (VNum 9) "comments" relation
                   (initial_state E)
                   (VObj [("create", VArr []);
                          ("update", VArr [VObj [("id", VNum 2);
                                                 ("title", VStr "new")]]);
                          ("delete", VArr [VNum 3])])
                   [VObj [("id", VNum 2); ("title", VStr "new")]]
                   [VNum 3] [] [VNum 2] [VNum 1; VNum 2; VNum 3]
                   [demo_entity (VNum 1); demo_entity (VNum 2)]
                   _ _ _ _ _ _ _ _ _ _)); try reflexivity.
  repeat constructor; done.
Defined.

(** C1 (as stated) fails in two ways: the resolved array follows the order
    of the server's answer, not the order of the ids, and it ends with the
    created entries.  The ids requested are 2, 3 (baseline) and 1
    (update); the server answers in storage order. *)
Lemma o2m_order_follows_server :
  let E := storage_env "{{comments.title}}" in
  let valObj :=
    [("comments",
      VObj [("create", VArr [VObj [("title", VStr "fresh")]]);
            ("update", VArr [VObj [("id", VNum 1); ("title", VStr "new")]]);
            ("delete", VArr [])])] in
  let run := resolve_relation E valObj [] (VNum 9) "comments"
               comments_relation (initial_state E) in
  requests run.1 =
    [GetField "posts" (VNum 9) "comments";
     GetItems "items/comments" [VNum 2; VNum 3; VNum 1]] ∧
  run.2 =
    Ok (VArr [VObj [("id", VNum 1); ("title", VStr "new")];
              VObj [("id", VNum 2); ("title", VStr "stored")];
              VObj [("id", VNum 3); ("title", VStr "stored")];
              VObj [("title", VStr "fresh")]]).
Proof. by vm_compute. Qed.

(** ** Many-to-one normalisation *)

Lemma normalize_m2o_scalar raw prev st :
  is_number_or_string raw = true →
  (normalize_m2o raw prev st).2 =
  Ok (VObj [("update", VArr [VObj [("id", raw)]])]).
Proof.
  intros Hs. unfold normalize_m2o. rewrite Hs. unfold bind.
  by destruct (String.eqb (js_typeof prev) "object").
Qed.

Lemma normalize_m2o_object o prev st :
  normalize_m2o (VObj o) prev st =
  (st, Ok (if obj_has "id" o then VObj [("update", VArr [VObj o])]
           else VObj [("create", VArr [VObj (spread o [])])])).
Proof. unfold normalize_m2o. simpl. unfold bind, lift. simpl. by destruct (obj_has "id" o). Qed.

Lemma pending_ids_m2o_run E pkFinal key fc prev st :
  pending_ids E true pkFinal key fc prev st =
  match normalize_m2o fc prev st with
  | (st1, Ok fc') => (st1, Ok (fc', []))
  | (st1, Throw e) => (st1, Throw e)
  end.
Proof.
  unfold pending_ids, bind. by destruct (normalize_m2o fc prev st) as [? [?|?]].
Qed.

Lemma overlay_matching u e i i' :
  js_get u "id" = Ok i → js_get e "id" = Ok i' → strict_eq i' i = true →
  overlay [u] e = VObj (spread (own_enumerable u) (spread (own_enumerable e) [])).
Proof.
  intros Hu He Heq. unfold overlay, pending_for. rewrite He.
  cbn [rbind find_by_id]. rewrite Hu. cbn [rbind]. by rewrite Heq.
Qed.

(** C2: a many-to-one raw value that is a number or a string becomes an
    update of the entry holding just that id; an object with an [id] key
    becomes an update of that object; any other object becomes a creation
    of that object.  The field resolves to the first resolved element: for
    an update, the first entity obtained for the id, overlaid with the
    update entry when their ids agree; for a creation, the object itself. *)
Theorem m2o_normalization (E : env) (prev : value) (st : state) :
  (∀ raw, is_number_or_string raw = true →
     (normalize_m2o raw prev st).2 =
     Ok (VObj [("update", VArr [VObj [("id", raw)]])])) ∧
  (∀ o, obj_has "id" o = true →
     normalize_m2o (VObj o) prev st =
     (st, Ok (VObj [("update", VArr [VObj o])]))) ∧
  (∀ o, obj_has "id" o = false → property_order o →
     normalize_m2o (VObj o) prev st =
     (st, Ok (VObj [("create", VArr [VObj o])]))) ∧
  (∀ valObj oldValObj pkFinal key relation raw u i rc entities,
     String.eqb (collection relation) (env_collection E) = true →
     obj_read (meta_key relation many_field) valObj = raw →
     obj_read key oldValObj = prev →
     ((is_number_or_string raw = true ∧ u = VObj [("id", raw)]) ∨
      (∃ o, raw = VObj o ∧ obj_has "id" o = true ∧ u = raw)) →
     js_get u "id" = Ok i →
     related_collection relation = Some rc →
     related_source E (normalize_m2o raw prev st).1 rc [i]
       = Some (VArr entities) →
     Forall readable entities →
     (resolve_relation E valObj oldValObj pkFinal key relation st).2 =
     Ok (default VUndef (head (map (overlay [u]) entities)))) ∧
  (∀ u e i i',
     js_get u "id" = Ok i → js_get e "id" = Ok i' → strict_eq i' i = true →
     overlay [u] e =
     VObj (spread (own_enumerable u) (spread (own_enumerable e) []))) ∧
  (∀ valObj oldValObj pkFinal key relation o,
     String.eqb (collection relation) (env_collection E) = true →
     obj_read (meta_key relation many_field) valObj = VObj o →
     obj_read key oldValObj = prev →
     obj_has "id" o = false → property_order o →
     (resolve_relation E valObj oldValObj pkFinal key relation st).2 =
     Ok (VObj o)).
Proof.
  split; [|split; [|split; [|split; [|split]]]].
  - intros raw Hs. by apply normalize_m2o_scalar.
  - intros o Hid. by rewrite normalize_m2o_object, Hid.
  - intros o Hid Ho. by rewrite normalize_m2o_object, Hid, spread_property_order.
  - intros valObj oldValObj pkFinal key relation raw u i rc entities
      HisM2O Hraw Hprev Hshape Hi Hrc Hent Hread.
    assert (Hfc : nullish_or raw default_changes = raw).
    { destruct Hshape as [[Hs _]|(o & -> & _)]; [by destruct raw | done]. }
    assert (Hnorm : (normalize_m2o raw prev st).2 =
                    Ok (VObj [("update", VArr [u])])).
    { destruct Hshape as [[Hs ->]|(o & -> & Hid & ->)].
      - by apply normalize_m2o_scalar.
      - by rewrite normalize_m2o_object, Hid. }
    assert (Hp : pending_ids E true pkFinal key raw (obj_read key oldValObj) st
                 = ((normalize_m2o raw prev st).1,
                    Ok (VObj [("update", VArr [u])], []))).
    { rewrite pending_ids_m2o_run, Hprev.
      rewrite (surjective_pairing (normalize_m2o raw prev st)), Hnorm. done. }
    assert (Hfc' : nullish_or (obj_read (meta_key relation many_field) valObj)
                     default_changes = raw) by (by rewrite Hraw).
    rewrite (resolve_relation_run E valObj oldValObj pkFinal key relation st
               true raw _ _ _ HisM2O Hfc' Hp).
    assert (Hadd : add_updated (VObj [("update", VArr [u])]) [] = Ok [i]).
    { unfold add_updated. simpl. by rewrite Hi. }
    rewrite Hadd.
    pose proof (related_data_result E true relation
                  (VObj [("update", VArr [u])]) (VArr [u]) [i]
                  (normalize_m2o raw prev st).1 rc Hrc eq_refl) as Hrel.
    rewrite Hent in Hrel.
    assert (Hmerge : rmap (merged (VArr [u])) entities =
                     Ok (map (overlay [u]) entities)).
    { apply rmap_ok_map. eapply Forall_impl; [exact Hread|]. intros x Hx.
      apply (merged_overlay [u] [i]); [done|]. simpl. by rewrite Hi. }
    rewrite Hmerge in Hrel.
    destruct (related_data E true relation _ [i] _) as [st2 [data|e]];
      simpl in Hrel; [|done].
    by injection Hrel as ->.
  - intros u e i i'. apply overlay_matching.
  - intros valObj oldValObj pkFinal key relation o HisM2O Hraw Hprev Hid Ho.
    assert (Hp : pending_ids E true pkFinal key (VObj o)
                   (obj_read key oldValObj) st
                 = (st, Ok (VObj [("create", VArr [VObj o])], []))).
    { by rewrite pending_ids_m2o_run, normalize_m2o_object, Hid,
        spread_property_order. }
    assert (Hfc : nullish_or (obj_read (meta_key relation many_field) valObj)
                    default_changes = VObj o) by (by rewrite Hraw).
    by rewrite (resolve_relation_run E valObj oldValObj pkFinal key relation st
                  true (VObj o) _ _ _ HisM2O Hfc Hp).
Qed.

(** The instance of the specification: an author given as [{id: 7, note: x}]. *)
Lemma m2o_normalization_example :
  let E := posts_env "{{author.title}}" in
  let raw := VObj [("id", VNum 7); ("note", VStr "x")] in
  let relation :=
    {| collection := "posts"; related_collection := Some "users";
       meta := Some {| one_field := None; many_field := Some "author" |} |} in
  (resolve_relation E [("author", raw)] [] (VNum 9) "author" relation
                    (initial_state E)).2 =
  Ok (VObj [("id", VNum 7); ("title", VStr "stored"); ("note", VStr "x")]).
Proof.
  intros E raw relation.
  refine (proj1 (proj2 (proj2 (proj2
            (m2o_normalization E VUndef (initial_state E)))))
            [("author", raw)] [] (VNum 9) "author" relation raw raw (VNum 7)
            "users" [demo_entity (VNum 7)] _ _ _ _ _ _ _ _); try reflexivity.
  - right. exists [("id", VNum 7); ("note", VStr "x")]. done.
  - repeat constructor; done.
Defined.

(** ** Replaying a recomputation from its own caches *)

Lemma state_eta (s : state) :
  {| fieldCache := fieldCache s; itemCache := itemCache s;
     finalValues := finalValues s; requests := requests s |} = s.
Proof. by destruct s. Qed.

Lemma cache_le_refl s : cache_le s s.
Proof. split; [done|]. intros rc m Hm. by exists m. Qed.

Lemma cache_le_trans s t u : cache_le s t → cache_le t u → cache_le s u.
Proof.
  intros [Hf1 Hi1] [Hf2 Hi2]. split; [by etrans|].
  intros rc m Hm. destruct (Hi1 rc m Hm) as (m1 & Hm1 & Hsub1).
  destruct (Hi2 rc m1 Hm1) as (m2 & Hm2 & Hsub2).
  exists m2. split; [done | by etrans].
Qed.

(** Only the caches matter to [cache_le] and [cache_consistent]. *)
Lemma cache_le_same_caches s u u' :
  fieldCache u' = fieldCache u → itemCache u' = itemCache u →
  cache_le s u → cache_le s u'.
Proof. intros Hf Hi [H1 H2]. split; [by rewrite Hf | by rewrite Hi]. Qed.

Lemma cache_consistent_same_caches ent s s' :
  itemCache s' = itemCache s → cache_consistent ent s → cache_consistent ent s'.
Proof. intros Hi H rc m k e. rewrite Hi. apply H. Qed.

(** *** Entering entities into the item cache *)

Lemma set_itemCache_itemCache rc k item s :
  itemCache (set_itemCache rc k item s).1 =
  <[rc := <[k := item]> (default ∅ (itemCache s !! rc))]> (itemCache s).
Proof.
  unfold set_itemCache. simpl. destruct (itemCache s !! rc) as [m|]; [done|].
  simpl. by rewrite insert_empty.
Qed.

Lemma set_itemCache_present rc k item s m :
  itemCache s !! rc = Some m → m !! k = Some item →
  (set_itemCache rc k item s).1 = s.
Proof.
  intros Hm Hk. unfold set_itemCache. simpl. rewrite Hm.
  rewrite (insert_id m k item Hk), (insert_id _ rc m Hm). apply state_eta.
Qed.

Lemma set_itemCache_le ent rc k item s :
  cache_consistent ent s → item = ent (items_path rc) k →
  cache_le s (set_itemCache rc k item s).1.
Proof.
  intros Hc Hitem. split; [done|]. intros rc' m Hm.
  rewrite set_itemCache_itemCache.
  destruct (decide (rc = rc')) as [<-|Hne].
  - rewrite lookup_insert_eq, Hm. simpl. eexists. split; [done|].
    destruct (m !! k) as [e|] eqn:Hk.
    + assert (He : e = item) by (rewrite Hitem; by apply (Hc rc m k e)).
      subst e. by rewrite insert_id.
    + by apply insert_subseteq.
  - rewrite lookup_insert_ne by done. by exists m.
Qed.

Lemma set_itemCache_consistent ent rc k item s :
  cache_consistent ent s → item = ent (items_path rc) k →
  cache_consistent ent (set_itemCache rc k item s).1.
Proof.
  intros Hc Hitem rc' m k' e. rewrite set_itemCache_itemCache.
  destruct (decide (rc = rc')) as [<-|Hne].
  - rewrite lookup_insert_eq. intros [= <-].
    destruct (decide (k = k')) as [<-|Hk].
    + rewrite lookup_insert_eq. by intros [= <-].
    + rewrite lookup_insert_ne by done.
      destruct (itemCache s !! rc) as [m0|] eqn:Hm0; simpl.
      * by apply Hc.
      * by rewrite lookup_empty.
  - rewrite lookup_insert_ne by done. apply Hc.
Qed.

Lemma set_itemCache_lookup rc k item s :
  ∃ m, itemCache (set_itemCache rc k item s).1 !! rc = Some m ∧
       m !! k = Some item.
Proof.
  rewrite set_itemCache_itemCache, lookup_insert_eq. eexists. split; [done|].
  by rewrite lookup_insert_eq.
Qed.

Section store.
Context (E : env) (ent : string → string → value).
Context (Hserver : faithful_server E ent).

Lemma store_items_cons rc k ks s :
  store_items rc (map (ent (items_path rc)) (k :: ks)) s =
  store_items rc (map (ent (items_path rc)) ks)
              (set_itemCache rc k (ent (items_path rc) k) s).1.
Proof.
  unfold store_items. simpl.
  destruct (proj2 Hserver (items_path rc) k) as (i & -> & ->). done.
Qed.

Lemma store_items_fieldCache rc ks s :
  fieldCache (store_items rc (map (ent (items_path rc)) ks) s) = fieldCache s.
Proof.
  revert s. induction ks as [|k ks IH]; intros s; [done|].
  by rewrite store_items_cons, IH.
Qed.

Lemma store_items_le rc ks s :
  cache_consistent ent s →
  cache_le s (store_items rc (map (ent (items_path rc)) ks) s) ∧
  cache_consistent ent (store_items rc (map (ent (items_path rc)) ks) s).
Proof.
  revert s. induction ks as [|k ks IH]; intros s Hc.
  - split; [apply cache_le_refl | done].
  - rewrite store_items_cons.
    destruct (IH (set_itemCache rc k (ent (items_path rc) k) s).1) as [Hle Hc'].
    { by apply set_itemCache_consistent. }
    split; [|done]. eapply cache_le_trans; [|exact Hle].
    by apply (set_itemCache_le ent).
Qed.

Lemma store_items_lookup rc ks s k :
  cache_consistent ent s → k ∈ ks →
  ∃ m, itemCache (store_items rc (map (ent (items_path rc)) ks) s) !! rc
         = Some m ∧
       m !! k = Some (ent (items_path rc) k).
Proof.
  revert s. induction ks as [|k' ks IH]; intros s Hc.
  - by intros ?%elem_of_nil.
  - rewrite store_items_cons. intros [->|Hin]%elem_of_cons.
    + destruct (set_itemCache_lookup rc k' (ent (items_path rc) k') s)
        as (m & Hm & Hk).
      destruct (store_items_le rc ks
                  (set_itemCache rc k' (ent (items_path rc) k') s).1)
        as [[_ Hle] _].
      { by apply set_itemCache_consistent. }
      destruct (Hle rc m Hm) as (m' & Hm' & Hsub).
      exists m'. split; [done|]. by eapply lookup_weaken.
    + apply IH; [|done]. by apply set_itemCache_consistent.
Qed.

Lemma store_items_present rc ks u m :
  itemCache u !! rc = Some m →
  (∀ k, k ∈ ks → m !! k = Some (ent (items_path rc) k)) →
  store_items rc (map (ent (items_path rc)) ks) u = u.
Proof.
  intros Hm. induction ks as [|k ks IH]; intros Hall; [done|].
  rewrite store_items_cons, (set_itemCache_present rc k _ u m Hm).
  - apply IH. intros k' Hk'. apply Hall. by apply list_elem_of_further.
  - apply Hall, list_elem_of_here.
Qed.
End store.

(** *** The merge loop *)

Lemma merge_item_run rc fc item s :
  merge_item rc fc item s =
  match js_get item "id" with
  | Ok i =>
      ((set_itemCache rc (to_js_string i) item s).1,
       rbind (js_get fc "update") (fun update =>
       rbind (find_update update i) (fun found =>
       Ok (VObj (spread (own_enumerable found)
                        (spread (own_enumerable item) []))))))
  | Throw e => (s, Throw e)
  end.
Proof.
  unfold merge_item, bind, lift, ret, rbind.
  destruct (js_get item "id") as [i|e]; [|done]. simpl.
  destruct (js_get fc "update") as [update|e]; [|done].
  by destruct (find_update update i).
Qed.

Lemma merge_item_result_indep rc fc item s s' :
  (merge_item rc fc item s).2 = (merge_item rc fc item s').2.
Proof. rewrite !merge_item_run. by destruct (js_get item "id"). Qed.

Lemma mapM_merge_result_indep rc fc items s s' :
  (mapM (merge_item rc fc) items s).2 = (mapM (merge_item rc fc) items s').2.
Proof.
  revert s s'. induction items as [|item items IH]; intros s s'; [done|].
  cbn [mapM]. rewrite !bind_result.
  pose proof (merge_item_result_indep rc fc item s s') as Hi.
  destruct (merge_item rc fc item s) as [s1 r1],
           (merge_item rc fc item s') as [s1' r1'].
  simpl in Hi. subst r1'. destruct r1 as [y|e]; [|done].
  rewrite !bind_result. specialize (IH s1 s1').
  destruct (mapM (merge_item rc fc) items s1) as [s2 r2],
           (mapM (merge_item rc fc) items s1') as [s2' r2'].
  simpl in IH. subst r2'. by destruct r2.
Qed.

Lemma mapM_merge_run rc fc items s data :
  (mapM (merge_item rc fc) items s).2 = Ok data →
  mapM (merge_item rc fc) items s = (store_items rc items s, Ok data).
Proof.
  revert s data. induction items as [|item items IH]; intros s data.
  - simpl. by intros [= <-].
  - intros Hres. cbn [mapM] in *.
    pose proof (merge_item_run rc fc item s) as Hm.
    unfold bind at 1 in Hres. unfold bind at 1.
    destruct (merge_item rc fc item s) as [s1 [y|e]]; [|done].
    destruct (js_get item "id") as [i|e] eqn:Hid; [|done].
    injection Hm as Hs1 _.
    assert (Hcons : store_items rc (item :: items) s = store_items rc items s1).
    { unfold store_items. simpl. by rewrite Hid, Hs1. }
    unfold bind at 1 in Hres. unfold bind at 1.
    destruct (mapM (merge_item rc fc) items s1) as [s2 [ys|e]] eqn:Hrest;
      [|done].
    simpl in Hres. injection Hres as <-.
    specialize (IH s1 ys). rewrite Hrest in IH. specialize (IH eq_refl).
    injection IH as ->. by rewrite Hcons.
Qed.

(** *** The entity read *)

Section replay.
Context (E : env) (ent : string → string → value).
Context (Hserver : faithful_server E ent).

Lemma cached_entities rc ids s m :
  cache_consistent ent s → itemCache s !! rc = Some m →
  all_cached m ids = true →
  map (fun id => default VUndef (m !! to_js_string id)) ids =
  map (ent (items_path rc)) (map to_js_string ids).
Proof.
  intros Hc Hm. induction ids as [|id ids IH]; [done|]. simpl.
  intros [Hid Hall]%andb_true_iff. rewrite IH by done. f_equal.
  apply bool_decide_eq_true in Hid as [e He]. rewrite He. simpl.
  by apply (Hc rc m).
Qed.

Lemma fetch_items_run rc ids s items :
  (fetch_items E rc ids s).2 = Ok items →
  items = map (ent (items_path rc)) (map to_js_string ids) ∧
  fetch_items E rc ids s =
  ({| fieldCache := fieldCache s; itemCache := itemCache s;
      finalValues := finalValues s;
      requests := requests s ++ [GetItems (items_path rc) ids] |},
   Ok items).
Proof.
  unfold fetch_items, bind, fetch, lift, ret.
  destruct (env_api E (requests s) (GetItems (items_path rc) ids)) as [v|]
    eqn:Hapi; [|done].
  rewrite (proj1 Hserver _ _ _ _ Hapi). simpl. intros [= <-].
  by rewrite map_map.
Qed.

(** A successful entity read leaves caches that extend the earlier ones,
    and reading again from any consistent extension of them touches
    nothing and returns the same entities. *)
Lemma resolve_items_replay rc fc ids t t' data :
  ids ≠ [] →
  cache_consistent ent t →
  resolve_items E rc fc ids t = (t', Ok data) →
  cache_le t t' ∧ cache_consistent ent t' ∧
  ∀ u, cache_le t' u → cache_consistent ent u →
       resolve_items E rc fc ids u = (u, Ok data).
Proof.
  intros Hids Hc Hrun.
  set (ks := map to_js_string ids).
  set (ents := map (ent (items_path rc)) ks).
  (* the run from [t] enters [ents] into the cache of some state with
     the caches of [t] *)
  assert (∃ t0, fieldCache t0 = fieldCache t ∧ itemCache t0 = itemCache t ∧
                mapM (merge_item rc fc) ents t0 = (t', Ok data))
    as (t0 & Hf0 & Hi0 & Hmap).
  { rewrite resolve_items_run in Hrun.
    destruct (itemCache t !! rc) as [m|] eqn:Hm.
    - destruct (all_cached m ids) eqn:Hall.
      + exists t. rewrite (cached_entities rc ids t m Hc Hm Hall) in Hrun.
        done.
      + unfold bind in Hrun.
        destruct (fetch_items E rc ids t) as [t0 [items|e]] eqn:Hfetch;
          [|done].
        destruct (fetch_items_run rc ids t items) as [-> Hrun0];
          [by rewrite Hfetch|].
        rewrite Hfetch in Hrun0. injection Hrun0 as ->.
        refine (ex_intro _ _ (conj _ (conj _ Hrun))); done.
    - unfold bind in Hrun.
      destruct (fetch_items E rc ids t) as [t0 [items|e]] eqn:Hfetch;
        [|done].
      destruct (fetch_items_run rc ids t items) as [-> Hrun0];
        [by rewrite Hfetch|].
      rewrite Hfetch in Hrun0. injection Hrun0 as ->.
      refine (ex_intro _ _ (conj _ (conj _ Hrun))); done. }
  assert (Hc0 : cache_consistent ent t0)
    by (by apply (cache_consistent_same_caches ent t)).
  assert (Hres : (mapM (merge_item rc fc) ents t0).2 = Ok data)
    by (by rewrite Hmap).
  rewrite (mapM_merge_run rc fc ents t0 data Hres) in Hmap.
  injection Hmap as Ht'. subst ents.
  destruct (store_items_le E ent Hserver rc ks t0 Hc0) as [Hle Hc'].
  rewrite Ht' in Hle, Hc'.
  assert (Hle0 : cache_le t t0).
  { apply (cache_le_same_caches t t t0); [done|done|apply cache_le_refl]. }
  split; [by eapply cache_le_trans|]. split; [done|].
  intros u Hu Hcu. rewrite resolve_items_run.
  assert (∃ m, itemCache t' !! rc = Some m ∧
               ∀ k, k ∈ ks → m !! k = Some (ent (items_path rc) k))
    as (m & Hm & Hks).
  { destruct ids as [|id0 ids']; [done|].
    destruct (store_items_lookup E ent Hserver rc ks t0 (to_js_string id0)
                Hc0) as (m & Hm & _); [apply list_elem_of_here|].
    rewrite Ht' in Hm. exists m. split; [done|]. intros k Hk.
    destruct (store_items_lookup E ent Hserver rc ks t0 k Hc0 Hk)
      as (m2 & Hm2 & Hk2).
    rewrite Ht', Hm in Hm2. by injection Hm2 as <-. }
  destruct (proj2 Hu rc m Hm) as (mu & Hmu & Hsub).
  assert (Hall : ∀ k, k ∈ ks → mu !! k = Some (ent (items_path rc) k)).
  { intros k Hk. eapply lookup_weaken; [by apply Hks | done]. }
  rewrite Hmu.
  assert (Hcached : all_cached mu ids = true).
  { unfold all_cached. apply forallb_forall. intros id Hid.
    apply bool_decide_eq_true. rewrite Hall; [done|].
    apply list_elem_of_fmap. exists id. split; [done|].
    by apply list_elem_of_In. }
  rewrite Hcached, (cached_entities rc ids u mu Hcu Hmu Hcached). fold ks.
  rewrite (mapM_merge_run rc fc _ u data).
  - by rewrite (store_items_present E ent Hserver rc ks u mu Hmu Hall).
  - by rewrite (mapM_merge_result_indep rc fc _ u t0).
Qed.
End replay.

(** *** One field, one pass *)

Lemma normalize_m2o_result_indep fc prev prev' st st' :
  (normalize_m2o fc prev st).2 = (normalize_m2o fc prev' st').2.
Proof.
  unfold normalize_m2o. destruct (is_number_or_string fc).
  - unfold bind. by destruct (String.eqb (js_typeof prev) "object"),
                             (String.eqb (js_typeof prev') "object").
  - destruct (String.eqb (js_typeof fc) "object"); [|done].
    unfold bind, lift. by destruct (js_in "id" fc) as [[]|].
Qed.

Section replay_field.
Context (E : env) (ent : string → string → value).
Context (Hserver : faithful_server E ent).

Lemma pending_ids_replay (isM2O : bool) fc prev1 prev2 pkFinal key t t' p :
  cache_consistent ent t →
  shape_reset isM2O fc prev1 = false →
  shape_reset isM2O fc prev2 = false →
  pending_ids E isM2O pkFinal key fc prev1 t = (t', Ok p) →
  cache_le t t' ∧ cache_consistent ent t' ∧
  ∀ u, cache_le t' u →
       pending_ids E isM2O pkFinal key fc prev2 u = (u, Ok p).
Proof.
  intros Hc Hr1 Hr2. destruct isM2O; simpl in Hr1, Hr2.
  - rewrite pending_ids_m2o_run.
    pose proof (normalize_m2o_state fc prev1 t) as Hst. rewrite Hr1 in Hst.
    destruct (normalize_m2o fc prev1 t) as [t1 [fc'|e]] eqn:Hn; [|done].
    simpl in Hst. subst t1. intros [= <- <-].
    split; [apply cache_le_refl|]. split; [done|]. intros u _.
    rewrite pending_ids_m2o_run.
    pose proof (normalize_m2o_state fc prev2 u) as Hst. rewrite Hr2 in Hst.
    pose proof (normalize_m2o_result_indep fc prev2 prev1 u t) as Hres.
    rewrite Hn in Hres.
    destruct (normalize_m2o fc prev2 u) as [u1 r]. simpl in *. by subst.
  - rewrite pending_ids_o2m_run, reset_o2m_run, Hr1. simpl.
    assert (Hu : ∀ u, pending_ids E false pkFinal key fc prev2 u =
              match baseline_ids E pkFinal key u with
              | (st1, Ok base) =>
                  (st1, rbind (drop_pending fc base) (fun ids => Ok (fc, ids)))
              | (st1, Throw e) => (st1, Throw e)
              end).
    { intros u. by rewrite pending_ids_o2m_run, reset_o2m_run, Hr2. }
    destruct (strict_eq pkFinal (VStr "+")) eqn:Hpk.
    + rewrite (baseline_ids_new_record _ _ _ _ Hpk).
      destruct (rbind (drop_pending fc []) _) as [p'|e] eqn:Hd; [|done].
      intros [= <- <-]. split; [apply cache_le_refl|]. split; [done|].
      intros u _. etrans; [exact (Hu u)|].
      by rewrite (baseline_ids_new_record _ _ _ _ Hpk), Hd.
    + rewrite (baseline_ids_run _ _ _ _ Hpk).
      destruct (fieldCache t !! key) as [data|] eqn:Hkey.
      * destruct (rbind (drop_pending fc _) _) as [p'|e] eqn:Hd; [|done].
        intros [= <- <-]. split; [apply cache_le_refl|]. split; [done|].
        intros u [Hf _]. etrans; [exact (Hu u)|].
        rewrite (baseline_ids_run _ _ _ _ Hpk).
        by rewrite (lookup_weaken _ _ _ _ Hkey Hf), Hd.
      * destruct (env_api E _ _) as [data|]; simpl; [|done].
        destruct (rbind (drop_pending fc _) _) as [p'|e] eqn:Hd; [|done].
        intros [= <- <-]. split; [|split].
        -- split; simpl; [by apply insert_subseteq|].
           intros rc m Hm. by exists m.
        -- done.
        -- intros u [Hf _]. etrans; [exact (Hu u)|].
           rewrite (baseline_ids_run _ _ _ _ Hpk).
           simpl in Hf.
           rewrite (lookup_weaken _ _ key data (lookup_insert_eq _ _ _) Hf).
           by rewrite Hd.
Qed.

Lemma related_data_replay (isM2O : bool) relation fc ids t t' data :
  cache_consistent ent t →
  related_data E isM2O relation fc ids t = (t', Ok data) →
  cache_le t t' ∧ cache_consistent ent t' ∧
  ∀ u, cache_le t' u → cache_consistent ent u →
       related_data E isM2O relation fc ids u = (u, Ok data).
Proof.
  intros Hc. unfold related_data.
  destruct ids as [|id ids].
  { intros [= <- <-]. split; [apply cache_le_refl|]. by split. }
  destruct (if isM2O then related_collection relation
            else Some (collection relation)) as [rc|].
  - destruct (negb (String.eqb rc "")).
    + by apply resolve_items_replay.
    + intros [= <- <-]. split; [apply cache_le_refl|]. by split.
  - intros [= <- <-]. split; [apply cache_le_refl|]. by split.
Qed.

Lemma resolve_relation_replay valObj old1 old2 pkFinal key relation t t' v :
  let isM2O := String.eqb (collection relation) (env_collection E) in
  let fc := nullish_or
              (obj_read (if isM2O then meta_key relation many_field
                         else meta_key relation one_field) valObj)
              default_changes in
  cache_consistent ent t →
  shape_reset isM2O fc (obj_read key old1) = false →
  shape_reset isM2O fc (obj_read key old2) = false →
  resolve_relation E valObj old1 pkFinal key relation t = (t', Ok v) →
  cache_le t t' ∧ cache_consistent ent t' ∧
  ∀ u, cache_le t' u → cache_consistent ent u →
       resolve_relation E valObj old2 pkFinal key relation u = (u, Ok v).
Proof.
  intros isM2O fc Hc Hr1 Hr2. unfold resolve_relation. fold isM2O. fold fc.
  unfold bind at 1.
  destruct (pending_ids E isM2O pkFinal key fc (obj_read key old1) t)
    as [t1 [p|e]] eqn:Hp; [|done].
  destruct (pending_ids_replay isM2O fc _ _ pkFinal key t t1 p Hc Hr1 Hr2 Hp)
    as (Hle1 & Hc1 & Hrep1).
  unfold bind at 1, lift at 1.
  destruct (add_updated p.1 p.2) as [ids|e] eqn:Hadd; [|done].
  unfold bind at 1.
  destruct (related_data E isM2O relation p.1 ids t1) as [t2 [data|e]]
    eqn:Hrd; [|done].
  destruct (related_data_replay isM2O relation p.1 ids t1 t2 data Hc1 Hrd)
    as (Hle2 & Hc2 & Hrep2).
  unfold lift at 1. intros [= <- Hv].
  split; [by eapply cache_le_trans|]. split; [done|].
  intros u Hu Hcu.
  rewrite (bind_run _ _ _ _ _ (Hrep1 u (cache_le_trans _ _ _ Hle2 Hu))).
  unfold bind at 1, lift at 1. rewrite Hadd.
  rewrite (bind_run _ _ _ _ _ (Hrep2 u Hu Hcu)). unfold lift. by rewrite Hv.
Qed.

Lemma resolve_field_replay valObj old1 old2 pkFinal rd key t t' rd' :
  cache_consistent ent t →
  resets E valObj old1 key = false →
  resets E valObj old2 key = false →
  resolve_field E valObj old1 pkFinal rd key t = (t', Ok rd') →
  cache_le t t' ∧ cache_consistent ent t' ∧
  ∀ u, cache_le t' u → cache_consistent ent u →
       resolve_field E valObj old2 pkFinal rd key u = (u, Ok rd').
Proof.
  intros Hc. unfold resets, resolve_field.
  destruct (List.find _ _) as [relation|].
  - destruct (checkFieldInTemplate _ key); simpl.
    + intros Hr1 Hr2. unfold bind at 1.
      destruct (resolve_relation E valObj old1 pkFinal key relation t)
        as [t1 [v|e]] eqn:Hrun; [|done].
      destruct (resolve_relation_replay valObj old1 old2 pkFinal key relation
                  t t1 v Hc Hr1 Hr2 Hrun) as (Hle & Hc1 & Hrep).
      intros [= <- <-]. split; [done|]. split; [done|].
      intros u Hu Hcu. by rewrite (bind_run _ _ _ _ _ (Hrep u Hu Hcu)).
    + intros _ _ [= <- <-]. split; [apply cache_le_refl|]. by split.
  - intros _ _ [= <- <-]. split; [apply cache_le_refl|]. by split.
Qed.

Lemma foldM_resolve_field_replay valObj old1 old2 pkFinal keys rd t t' rd' :
  cache_consistent ent t →
  (∀ k, k ∈ keys → resets E valObj old1 k = false) →
  (∀ k, k ∈ keys → resets E valObj old2 k = false) →
  foldM (resolve_field E valObj old1 pkFinal) keys rd t = (t', Ok rd') →
  cache_le t t' ∧ cache_consistent ent t' ∧
  ∀ u, cache_le t' u → cache_consistent ent u →
       foldM (resolve_field E valObj old2 pkFinal) keys rd u = (u, Ok rd').
Proof.
  revert rd t. induction keys as [|key keys IH]; intros rd t Hc Hr1 Hr2.
  - simpl. intros [= <- <-]. split; [apply cache_le_refl|]. by split.
  - cbn [foldM]. unfold bind at 1.
    destruct (resolve_field E valObj old1 pkFinal rd key t)
      as [t1 [rd1|e]] eqn:Hstep; [|done].
    destruct (resolve_field_replay valObj old1 old2 pkFinal rd key t t1 rd1
                Hc (Hr1 key (list_elem_of_here _ _))
                (Hr2 key (list_elem_of_here _ _)) Hstep)
      as (Hle1 & Hc1 & Hrep1).
    intros Hrest.
    destruct (IH rd1 t1 Hc1
                (fun k Hk => Hr1 k (list_elem_of_further _ _ _ Hk))
                (fun k Hk => Hr2 k (list_elem_of_further _ _ _ Hk)) Hrest)
      as (Hle2 & Hc2 & Hrep2).
    split; [by eapply cache_le_trans|]. split; [done|].
    intros u Hu Hcu.
    rewrite (bind_run _ _ _ _ _
               (Hrep1 u (cache_le_trans _ _ _ Hle2 Hu) Hcu)).
    by apply Hrep2.
Qed.
End replay_field.

(** *** The whole handler *)

Lemma null_removed_id old val :
  (∀ k, k ∈ obj_keys old → k ∈ obj_keys val) → null_removed old val = val.
Proof.
  unfold null_removed. induction (obj_keys old) as [|key keys IH]; [done|].
  intros Hall. simpl.
  assert (Hhas : obj_has key val = true)
    by (apply obj_has_keys, Hall, list_elem_of_here).
  unfold obj_in. rewrite Hhas. simpl. apply IH. intros k Hk. apply Hall.
  by apply list_elem_of_further.
Qed.

Lemma shouldUpdate_same T cf val : shouldUpdate T cf val val = true.
Proof.
  apply shouldUpdate_true. left.
  destruct (changedFields cf val val) as [|k l] eqn:Hc; [done|].
  assert (Hk : k ∈ changedFields cf val val)
    by (rewrite Hc; apply list_elem_of_here).
  by apply changedFields_spec in Hk as [_ Hch].
Qed.

(** A successful firing without shape transition and without removed keys
    only adds to the caches, and what it adds is the server's. *)
Lemma handler_extends_caches E ent val oldVal st st' :
  faithful_server E ent →
  cache_consistent ent st →
  handler E val oldVal st = (st', Ok ()) →
  (∀ k, k ∈ obj_keys (default [] oldVal) → k ∈ obj_keys val) →
  no_reset E val (default [] oldVal) →
  cache_le st st' ∧ cache_consistent ent st'.
Proof.
  intros Hserver Hc Hrun Hkeys Hr. unfold handler in Hrun.
  destruct (negb _).
  { injection Hrun as <-. split; [apply cache_le_refl | done]. }
  unfold recompute in Hrun. rewrite (null_removed_id _ _ Hkeys) in Hrun.
  unfold bind at 1 in Hrun.
  destruct (foldM _ (obj_keys val) [] st) as [t [rd|e]] eqn:Hfold; [|done].
  destruct (foldM_resolve_field_replay E ent Hserver val (default [] oldVal)
              (default [] oldVal) (pk_final E val) (obj_keys val) [] st t rd
              Hc Hr Hr Hfold) as (Hle & Hct & _).
  unfold set_finalValues in Hrun. injection Hrun as <-. split.
  - by apply (cache_le_same_caches st t).
  - by apply (cache_consistent_same_caches ent t).
Qed.

(** C7 (as amended): let a recomputation of a record succeed without any
    cache-invalidating shape transition and without removed keys, against a
    server that answers entity requests faithfully, from caches that hold
    only the server's entities.  Then every later firing on the same
    record -- whatever the previous value it is compared with, provided
    the gate opens, no key was removed and no shape transition occurs,
    and in whatever state the firings in between have left, provided the
    caches were only extended, by the server's entities -- makes no
    request, leaves the caches as they are and emits the record of the
    first recomputation. *)
Theorem recompute_is_idempotent_without_reset
    (E : env) (ent : string → string → value) (val : obj)
    (oldVal : option obj) (old' : obj) (st st1 u : state) :
  faithful_server E ent →
  cache_consistent ent st →
  shouldUpdate (env_template E) (env_computedField E) val (default [] oldVal)
    = true →
  handler E val oldVal st = (st1, Ok ()) →
  (∀ k, k ∈ obj_keys (default [] oldVal) → k ∈ obj_keys val) →
  no_reset E val (default [] oldVal) →
  shouldUpdate (env_template E) (env_computedField E) val old' = true →
  (∀ k, k ∈ obj_keys old' → k ∈ obj_keys val) →
  no_reset E val old' →
  cache_le st1 u → cache_consistent ent u →
  handler E val (Some old') u =
    ({| fieldCache := fieldCache u; itemCache := itemCache u;
        finalValues := finalValues st1; requests := requests u |}, Ok ()).
Proof.
  intros Hserver Hc Hopen Hrun Hkeys Hr1 Hopen' Hkeys' Hr2 Hle' Hcu.
  rewrite (handler_gate_open E val oldVal Hopen) in Hrun.
  rewrite (handler_gate_open E val (Some old') Hopen').
  simpl. unfold recompute in *.
  rewrite (null_removed_id _ _ Hkeys) in Hrun.
  rewrite (null_removed_id old' val) by done.
  unfold bind at 1 in Hrun.
  destruct (foldM _ (obj_keys val) [] st) as [t [rd|e]] eqn:Hfold; [|done].
  destruct (foldM_resolve_field_replay E ent Hserver val (default [] oldVal)
              old' (pk_final E val) (obj_keys val) [] st t rd Hc Hr1 Hr2 Hfold)
    as (Hle & Hct & Hrep).
  unfold set_finalValues in Hrun. injection Hrun as <-.
  assert (Htu : cache_le t u).
  { destruct Hle' as [Hf Hi]. by split. }
  by rewrite (bind_run _ _ _ _ _ (Hrep u Htu Hcu)).
Qed.

(** The keyed server of the examples is faithful. *)
Lemma keyed_server_is_faithful template :
  faithful_server (keyed_env template) keyed_entity.
Proof.
  split.
  - intros hist path ids v. simpl. by intros [= <-].
  - intros path k. by exists (VStr k).
Qed.

(** An instance: a title is edited and the edit undone.  The author is
    fetched by the first firing; the third, on the first record again,
    makes no request and emits the first record. *)
Lemma recompute_is_idempotent_example :
  let E := keyed_env "{{title}} by {{author.title}}" in
  let A := [("title", VStr "a"); ("author", VNum 5)] in
  let B := [("title", VStr "b"); ("author", VNum 5)] in
  let st1 := (handler E A None (initial_state E)).1 in
  let st2 := (handler E B (Some A) st1).1 in
  requests st1 = [GetItems "items/users" [VNum 5]] ∧
  handler E A (Some B) st2 =
    ({| fieldCache := fieldCache st2; itemCache := itemCache st2;
        finalValues := finalValues st1; requests := requests st2 |}, Ok ()).
Proof.
  intros E A B st1 st2. split; [by vm_compute|].
  assert (Hs : faithful_server E keyed_entity)
    by apply keyed_server_is_faithful.
  assert (Hc0 : cache_consistent keyed_entity (initial_state E)).
  { intros rc m k e Hm. simpl in Hm. by rewrite lookup_empty in Hm. }
  assert (Hno : ∀ X Y : obj, X = A ∨ X = B → Y = [] ∨ Y = A ∨ Y = B →
                             no_reset E X Y).
  { intros X Y HX HY key Hkey.
    assert (Hkey' : key ∈ ["title"; "author"])
      by (by destruct HX as [-> | ->]).
    repeat (apply elem_of_cons in Hkey' as [->|Hkey'];
            [by destruct HX as [-> | ->], HY as [-> |[-> | ->]]; vm_compute|]).
    by apply elem_of_nil in Hkey'. }
  assert (H1 : handler E A None (initial_state E) = (st1, Ok ()))
    by (by vm_compute).
  assert (H2 : handler E B (Some A) st1 = (st2, Ok ())) by (by vm_compute).
  destruct (handler_extends_caches E keyed_entity A None _ st1 Hs Hc0 H1)
    as [_ Hc1]; [by intros k ?%elem_of_nil | apply Hno; auto|].
  destruct (handler_extends_caches E keyed_entity B (Some A) st1 st2 Hs Hc1 H2)
    as [Hle2 Hc2]; [by intros k ? | apply Hno; auto|].
  apply (recompute_is_idempotent_without_reset E keyed_entity A None B
           (initial_state E) st1 st2 Hs Hc0); try done.
  - by intros k ?%elem_of_nil.
  - apply Hno; auto.
  - apply Hno; auto.
Defined.

(** C7 (as stated) fails on a change that is staged and then discarded:
    the one-to-many field goes from the id array to a mutation object and
    back to the id array, and that transition empties the caches, so the
    firing on the record resolved before reads baseline and entities
    again. *)
Lemma second_pass_refetches_after_reset :
  let E := posts_env "{{comments.title}}" in
  let A := [("comments", VArr [VNum 1; VNum 2; VNum 3])] in
  let B := [("comments",
             VObj [("create", VArr [VObj [("title", VStr "fresh")]]);
                   ("update", VArr []); ("delete", VArr [])])] in
  let first := handler E A None (initial_state E) in
  let second := handler E B (Some A) first.1 in
  let third := handler E A (Some B) second.1 in
  first.2 = Ok () ∧ second.2 = Ok () ∧ third.2 = Ok () ∧
  requests second.1 = requests first.1 ∧
  requests third.1 =
    requests second.1 ++ [GetField "posts" (VNum 9) "comments";
                          GetItems "items/comments" [VNum 1; VNum 2; VNum 3]] ∧
  finalValues third.1 = finalValues first.1.
Proof. by vm_compute. Qed.

(** ** Further instances *)

Ltac other_key k :=
  repeat match goal with
         | |- context [String.eqb k ?s] =>
             destruct (String.eqb_spec k s); [congruence|]
         end.

(** C5 (as stated) fails when only the computed field changed: its key is
    unreferenced, yet the handler recomputes and emits a new record. *)
Lemma computed_field_edit_recomputes :
  let E := posts_env "{{title}}" in
  let old := [("total", VNum 1)] in
  let val := [("total", VNum 2)] in
  let st := (handler E old None (initial_state E)).1 in
  (∀ k, serialized_changed val old k →
        checkFieldInTemplate (env_template E) k = false) ∧
  finalValues st =
    [("total", VNum 1); ("__currentUser", VObj [("id", VStr "u1")])] ∧
  finalValues (handler E val (Some old) st).1 =
    [("total", VNum 2); ("__currentUser", VObj [("id", VStr "u1")])].
Proof.
  intros E old val st. split; [|by vm_compute].
  intros k Hch. destruct (decide (k = "total")) as [->|Hne]; [by vm_compute|].
  destruct Hch. unfold obj_read. simpl. by other_key k.
Qed.

(** An instance: only the unreferenced field [name] is edited. *)
Lemma unreferenced_edit_is_skipped_example :
  let E := posts_env "{{title}}" in
  handler E [("name", VStr "b")] (Some [("name", VStr "a")]) (initial_state E)
  = (initial_state E, Ok ()).
Proof.
  intros E. apply unreferenced_edit_is_skipped.
  - exists "name". split; [done|]. unfold serialized_changed. by vm_compute.
  - intros k _ Hch. destruct (decide (k = "name")) as [->|Hne]; [by vm_compute|].
    destruct Hch. unfold obj_read. simpl. by other_key k.
Defined.

(** An instance: only the computed field [total] is edited, and the template
    references it. *)
Lemma computed_field_self_exclusion_example :
  let E := posts_env "{{total}}" in
  let old := [("total", VNum 1); ("name", VStr "x")] in
  let val := [("total", VNum 2); ("name", VStr "x")] in
  changedFields (env_computedField E) val old = [] ∧
  shouldUpdate (env_template E) (env_computedField E) val old = true ∧
  handler E val (Some old) (initial_state E) =
    ({| fieldCache := ∅; itemCache := ∅;
        finalValues := [("total", VNum 2); ("name", VStr "x");
                        ("__currentUser", VObj [("id", VStr "u1")])];
        requests := [] |}, Ok ()).
Proof.
  intros E old val.
  destruct (proj2 (computed_field_self_exclusion E val old))
    as (Hnil & Hgate & Hrun).
  { intros k Hne Hch. apply Hch. simpl in Hne. unfold obj_read. simpl.
    other_key k. by destruct (String.eqb k "name"). }
  split; [exact Hnil|]. split; [exact Hgate|].
  exact (proj1 (Hrun (initial_state E))).
Defined.



(* ===================================================================== *)
(** * Further properties                                                  *)
(* ===================================================================== *)

(** ** The template field matcher *)

Lemma is_substring_trans a b c :
  is_substring a b → is_substring b c → is_substring a c.
Proof.
  intros (p1 & q1 & ->) (p2 & q2 & ->). exists (p2 +:+ p1), (q1 +:+ q2).
  by rewrite !append_assoc.
Qed.

Lemma referenced_iff_placeholder T f :
  checkFieldInTemplate T f = true ↔
  ∃ m, m ∈ placeholders T ∧ str_includes f m = true.
Proof.
  unfold checkFieldInTemplate, template_match, placeholders.
  replace (default [] match scan dot 0 T with [] => None | l => Some l end)
    with (scan dot 0 T) by (by destruct (scan dot 0 T)).
  rewrite existsb_exists. by setoid_rewrite list_elem_of_In.
Qed.

Lemma scan_shortest accept skip s m :
  m ∈ scan accept skip s →
  ∃ body, m = "{{" +:+ body +:+ "}}" ∧ str_forallb accept body = true ∧
          absent_from "}}" (body +:+ "}").
Proof.
  revert skip. induction s as [|c s IH]; intros skip; simpl.
  - by intros ?%elem_of_nil.
  - destruct skip as [|n]; [|apply IH].
    destruct (match_at accept (String c s)) as [m'|] eqn:Hm; [|apply IH].
    intros [->|Hin]%elem_of_cons; [|by eapply IH].
    unfold match_at in Hm. destruct (String.prefix "{{" (String c s)); [|done].
    destruct (lazy_body accept _) as [body|] eqn:Hb; [|done].
    injection Hm as <-. exists body. split; [done|]. split.
    + by apply lazy_body_shape in Hb as [? _].
    + by apply not_included, (lazy_body_shortest accept _ _ Hb).
Qed.

(** X1: what [template.match] returns is [null] or a non-empty list of
    placeholders; each placeholder is an occurrence in the template of two
    opening braces, a body and two closing braces, where the body holds no
    line terminator and is the shortest possible -- no pair of closing
    braces ends before the placeholder's own. *)
Theorem template_match_sound (T : string) :
  match template_match T with
  | None => placeholders T = []
  | Some l =>
      l = placeholders T ∧ l ≠ [] ∧
      ∀ m, m ∈ l →
           is_substring m T ∧
           ∃ body, m = "{{" +:+ body +:+ "}}" ∧
                   str_forallb dot body = true ∧
                   absent_from "}}" (body +:+ "}")
  end.
Proof.
  unfold template_match, placeholders.
  destruct (scan dot 0 T) as [|m0 l] eqn:Hscan; [done|].
  split; [done|]. split; [done|]. intros m Hm. rewrite <- Hscan in Hm. split.
  - by apply scan_elem in Hm as [_ ?].
  - by apply scan_shortest in Hm.
Qed.

Lemma placeholders_need_braces T m :
  m ∈ placeholders T → is_substring "{{" T ∧ is_substring "}}" T.
Proof.
  intros [(body & -> & _) Hsub]%scan_elem. split.
  - eapply is_substring_trans; [|exact Hsub]. by exists "", (body +:+ "}}").
  - eapply is_substring_trans; [|exact Hsub]. exists ("{{" +:+ body), "".
    by rewrite append_assoc.
Qed.

(** X2: a template in which the opening or the closing pair of braces
    never occurs -- the empty template, plain text -- references no field
    at all, not even the empty field name. *)
Theorem template_without_braces_references_nothing (T f : string) :
  absent_from "{{" T ∨ absent_from "}}" T →
  checkFieldInTemplate T f = false.
Proof.
  intros Habs. apply not_true_iff_false.
  intros (m & Hm & _)%referenced_iff_placeholder.
  apply placeholders_need_braces in Hm as [Ho Hc]. by destruct Habs.
Qed.

(** An instance: plain text, which even holds one opening pair. *)
Lemma template_without_braces_example :
  checkFieldInTemplate "total of {{ price" "price" = false.
Proof.
  apply template_without_braces_references_nothing. right.
  by apply not_included.
Defined.

(** X3: referencing is closed under substrings: when a template references
    [f] it references every substring of [f], so a placeholder such as
    [{{author.name}}] references the field [author], and every template
    with a placeholder references the empty name. *)
Theorem reference_extends_to_substrings (T f f' : string) :
  checkFieldInTemplate T f = true → is_substring f' f →
  checkFieldInTemplate T f' = true.
Proof.
  intros (m & Hm & Hf)%referenced_iff_placeholder Hsub.
  apply referenced_iff_placeholder. exists m. split; [done|].
  apply str_includes_spec. eapply is_substring_trans; [exact Hsub|].
  by apply str_includes_spec.
Qed.

(** An instance: the path [author.name] and its root field. *)
Lemma reference_extends_to_substrings_example :
  checkFieldInTemplate "by {{author.name}}" "author" = true.
Proof.
  apply (reference_extends_to_substrings _ "author.name"); [reflexivity|].
  by exists "", ".name".
Defined.

(** *** A placeholder that is written is found *)

Lemma lazy_body_open s :
  lazy_body dot (String "{" s) = String "{" <$> lazy_body dot s.
Proof. by rewrite lazy_body_cons. Qed.

Lemma lazy_body_close post : lazy_body dot (String "}" (String "}" post)) = Some "".
Proof. by rewrite lazy_body_cons, prefix_brace_cons. Qed.

Lemma lazy_body_plain f post :
  plain_name f → lazy_body dot (f +:+ "}}" +:+ post) = Some f.
Proof.
  unfold plain_name. induction f as [|c f IH].
  { intros _. apply lazy_body_close. }
  simpl str_forallb. intros [[Hdot Hc]%andb_true_iff Hf]%andb_true_iff.
  change (String c f +:+ "}}" +:+ post) with (String c (f +:+ "}}" +:+ post)).
  rewrite lazy_body_cons.
  apply negb_true_iff in Hc. by rewrite Hc, Hdot, (IH Hf).
Qed.

Lemma lazy_body_written f post :
  plain_name f →
  lazy_body dot (String "{" (String "{" (f +:+ "}}" +:+ post))) =
  Some ("{{" +:+ f).
Proof. intros Hf. by rewrite !lazy_body_open, (lazy_body_plain f post Hf). Qed.

Lemma lazy_body_over f post y b :
  plain_name f →
  lazy_body dot (y +:+ "{{" +:+ f +:+ "}}" +:+ post) = Some b →
  (∃ y2, y = b +:+ "}}" +:+ y2) ∨ b = y +:+ "{{" +:+ f.
Proof.
  intros Hf. revert b. induction y as [|c y IH]; intros b.
  - change ("" +:+ "{{" +:+ f +:+ "}}" +:+ post)
      with (String "{" (String "{" (f +:+ "}}" +:+ post))).
    rewrite (lazy_body_written f post Hf). intros [= <-]. by right.
  - change (String c y +:+ "{{" +:+ f +:+ "}}" +:+ post)
      with (String c (y +:+ "{{" +:+ f +:+ "}}" +:+ post)).
    rewrite lazy_body_cons.
    assert (Hstep : ∀ b0, lazy_body dot (y +:+ "{{" +:+ f +:+ "}}" +:+ post)
                          = Some b0 →
              (∃ y2, String c y = String c b0 +:+ "}}" +:+ y2) ∨
              String c b0 = String c y +:+ "{{" +:+ f).
    { intros b0 Hb0. destruct (IH b0 Hb0) as [[y2 Hy]|Hb'].
      - left. exists y2. by rewrite Hy.
      - right. by rewrite Hb'. }
    destruct (Ascii.eqb_spec c "}"%char) as [->|Hc].
    + destruct y as [|d y].
      * change ("" +:+ "{{" +:+ f +:+ "}}" +:+ post)
          with (String "{" (String "{" (f +:+ "}}" +:+ post))) in *.
        rewrite prefix_brace_cons.
        rewrite (lazy_body_written f post Hf) in *.
        intros H. right. by injection H as <-.
      * change (String d y +:+ "{{" +:+ f +:+ "}}" +:+ post)
          with (String d (y +:+ "{{" +:+ f +:+ "}}" +:+ post)) in *.
        rewrite prefix_brace_cons.
        destruct (Ascii.eqb_spec d "}"%char) as [->|Hd].
        -- intros [= <-]. left. by exists y.
        -- destruct (lazy_body dot _) as [b'|] eqn:Hb; [|done].
           intros H. injection H as <-. by apply Hstep.
    + destruct (dot c); [|done].
      destruct (lazy_body dot _) as [b'|] eqn:Hb; [|done].
      intros H. injection H as <-. by apply Hstep.
Qed.

Lemma match_at_open s :
  match_at dot (String "{" (String "{" s)) =
  (fun body => "{{" +:+ body +:+ "}}") <$> lazy_body dot s.
Proof.
  unfold match_at.
  change (String.prefix "{{" (String "{" (String "{" s)))
    with (String.prefix "" s).
  by destruct s.
Qed.

Lemma scan_finds_written f post :
  plain_name f →
  ∀ n pre, (String.length pre ≤ n)%nat →
    ∃ m, m ∈ scan dot 0 (pre +:+ "{{" +:+ f +:+ "}}" +:+ post) ∧
         is_substring f m.
Proof.
  intros Hf. induction n as [|n IHn]; intros pre Hlen.
  - destruct pre; [|simpl in Hlen; lia].
    exists ("{{" +:+ f +:+ "}}"). split; [|by exists "{{", "}}"].
    change ("" +:+ "{{" +:+ f +:+ "}}" +:+ post)
      with (String "{" (String "{" (f +:+ "}}" +:+ post))).
    cbn [scan]. rewrite match_at_open, (lazy_body_plain f post Hf).
    apply list_elem_of_here.
  - destruct pre as [|c pre].
    { apply (IHn ""). simpl. lia. }
    simpl in Hlen.
    change (String c pre +:+ "{{" +:+ f +:+ "}}" +:+ post)
      with (String c (pre +:+ "{{" +:+ f +:+ "}}" +:+ post)).
    cbn [scan].
    destruct (match_at dot (String c (pre +:+ "{{" +:+ f +:+ "}}" +:+ post)))
      as [m|] eqn:Hm.
    2:{ destruct (IHn pre) as (m & Hin & Hsub); [lia|]. by exists m. }
    assert (Hp : String.prefix "{{"
                   (String c (pre +:+ "{{" +:+ f +:+ "}}" +:+ post)) = true).
    { unfold match_at in Hm. by destruct (String.prefix "{{" _). }
    apply prefix_spec in Hp as [x Hx].
    destruct pre as [|d y].
    + (* the match starts one brace early *)
      change ("" +:+ "{{" +:+ f +:+ "}}" +:+ post)
        with (String "{" (String "{" (f +:+ "}}" +:+ post))) in *.
      injection Hx as -> _.
      rewrite match_at_open, lazy_body_open, (lazy_body_plain f post Hf) in Hm.
      injection Hm as <-.
      exists ("{{{" +:+ f +:+ "}}"). split; [apply list_elem_of_here|].
      by exists "{{{", "}}".
    + change (String d y +:+ "{{" +:+ f +:+ "}}" +:+ post)
        with (String d (y +:+ "{{" +:+ f +:+ "}}" +:+ post)) in *.
      injection Hx as -> -> _.
      rewrite match_at_open in Hm.
      destruct (lazy_body dot _) as [b|] eqn:Hb; [|done].
      injection Hm as <-.
      destruct (lazy_body_over f post y b Hf Hb) as [[y2 ->]| ->].
      * (* the match ends before the placeholder: scanning resumes *)
        destruct (IHn y2) as (m & Hin & Hsub).
        { simpl in Hlen. rewrite !str_length_append in Hlen. simpl in Hlen.
          lia. }
        exists m. split; [|done]. apply list_elem_of_further.
        rewrite !append_assoc, <- (append_assoc b "}}").
        exact (eq_ind_r (fun l => m ∈ l) Hin
                 (scan_skip dot ("{" +:+ b +:+ "}}")
                    (y2 +:+ "{{" +:+ f +:+ "}}" +:+ post))).
      * (* the match runs through the placeholder *)
        exists ("{{" +:+ (y +:+ "{{" +:+ f) +:+ "}}").
        split; [apply list_elem_of_here|].
        exists ("{{" +:+ y +:+ "{{"), "}}". simpl. by rewrite !append_assoc.
Qed.

(** X4: a placeholder that is written is found.  Wherever [{{f}}] stands
    in a template, whatever precedes and follows it, the field name [f] is
    referenced, provided [f] holds no line terminator and no closing
    brace. *)
Theorem written_placeholder_is_referenced (pre f post : string) :
  plain_name f →
  checkFieldInTemplate (pre +:+ "{{" +:+ f +:+ "}}" +:+ post) f = true.
Proof.
  intros Hf. apply referenced_iff_placeholder.
  destruct (scan_finds_written f post Hf (String.length pre) pre (le_n _))
    as (m & Hin & Hsub).
  exists m. split; [done | by apply str_includes_spec].
Qed.

(** An instance: the second placeholder, after an unclosed opening. *)
Lemma written_placeholder_example :
  checkFieldInTemplate "{{a}} and {{ {{b}} too" "b" = true.
Proof.
  by apply (written_placeholder_is_referenced "{{a}} and {{ " "b" " too").
Defined.

(* ===================================================================== *)
(** ** The trigger gate, continued                                        *)
(* ===================================================================== *)

Lemma changedFields_sym cf val old k :
  k ∈ changedFields cf val old ↔ k ∈ changedFields cf old val.
Proof.
  rewrite !changedFields_spec. unfold serialized_changed.
  split; intros [Hne Hch]; (split; [done|]); intros Heq; by apply Hch.
Qed.

Lemma changedFields_nil cf val old :
  changedFields cf val old = [] ↔ ∀ k, k ∉ changedFields cf val old.
Proof.
  split.
  - intros -> k. apply not_elem_of_nil.
  - intros Hall. destruct (changedFields cf val old) as [|k l]; [done|].
    destruct (Hall k). apply list_elem_of_here.
Qed.

(** X5: the gate does not depend on the direction of an edit: going from
    record [old] to record [val] opens it exactly when going from [val]
    back to [old] does. *)
Theorem shouldUpdate_symmetric (T cf : string) (val old : obj) :
  shouldUpdate T cf val old = shouldUpdate T cf old val.
Proof.
  apply Bool.eq_true_iff_eq. rewrite !shouldUpdate_true, !changedFields_nil.
  split; (intros [Hnil|(k & Hk & Href)];
    [left; intros k Hk; apply (Hnil k); by apply changedFields_sym
    |right; exists k; split; [by apply changedFields_sym | done]]).
Qed.

(** X6: an edit of a referenced field recomputes.  When a field other than
    the computed one has a different serialised value and the template
    references it, the gate opens, whatever else changed, and the handler
    recomputes: it resolves the keys of the record in key order and,
    unless a resolution aborts (the emitted record then stays as it was),
    emits the composite of the edited record, the resolved values and the
    current user. *)
Theorem referenced_edit_recomputes (E : env) (val old : obj) (k : string) :
  k ≠ env_computedField E →
  serialized_changed val old k →
  checkFieldInTemplate (env_template E) k = true →
  shouldUpdate (env_template E) (env_computedField E) val old = true ∧
  ∀ st,
    let valObj := null_removed old val in
    match foldM (resolve_field E valObj old (pk_final E valObj))
                (obj_keys valObj) [] st with
    | (st1, Ok rd) =>
        handler E val (Some old) st =
          ({| fieldCache := fieldCache st1; itemCache := itemCache st1;
              finalValues := compose_final E valObj rd;
              requests := requests st1 |}, Ok ()) ∧
        ∀ k, obj_has k rd = true → resolved_key E k
    | (st1, Throw e) =>
        handler E val (Some old) st = (st1, Throw e) ∧
        finalValues st1 = finalValues st
    end.
Proof.
  intros Hne Hch Href.
  assert (Hgate : shouldUpdate (env_template E) (env_computedField E) val old
                  = true).
  { apply shouldUpdate_true. right. exists k. split; [|done].
    by apply changedFields_spec. }
  split; [done|]. intros st. by apply (handler_recomputes E val (Some old) st).
Qed.

(** An instance: the price changes next to an unreferenced note. *)
Lemma referenced_edit_recomputes_example :
  let E := posts_env "{{price}} EUR" in
  handler E [("price", VNum 7); ("note", VStr "b")]
            (Some [("price", VNum 5); ("note", VStr "a")]) (initial_state E) =
  ({| fieldCache := ∅; itemCache := ∅;
      finalValues := [("price", VNum 7); ("note", VStr "b");
                      ("__currentUser", VObj [("id", VStr "u1")])];
      requests := [] |}, Ok ()).
Proof.
  intros E.
  destruct (referenced_edit_recomputes E
              [("price", VNum 7); ("note", VStr "b")]
              [("price", VNum 5); ("note", VStr "a")] "price")
    as [_ Hrun]; [discriminate | by vm_compute | reflexivity |].
  exact (proj1 (Hrun (initial_state E))).
Defined.

(** Records written out entry by entry hold no [undefined]. *)
Ltac parsed_tac :=
  let k := fresh in let v := fresh in let H := fresh in
  intros k v H;
  repeat (apply elem_of_cons in H as [H|H]; [by injection H as -> ->|]);
  by apply elem_of_nil in H.

(** X7: a key that appears or disappears is always a changed field.
    Between two parsed records, a key other than the computed field's that
    one record has and the other lacks is in the changed-field list, even
    when its value is [null]. *)
Theorem added_or_removed_key_is_changed (cf : string) (val old : obj)
    (k : string) :
  parsed val → parsed old → k ≠ cf →
  obj_has k val ≠ obj_has k old →
  k ∈ changedFields cf val old.
Proof.
  intros Hval Hold Hne Hhas. apply changedFields_spec. split; [done|].
  unfold serialized_changed, obj_read, obj_has in *.
  destruct (obj_get k val) as [v|] eqn:Hv, (obj_get k old) as [w|] eqn:Hw;
    try done; simpl.
  - intros Heq. apply stringify_undefined in Heq as ->.
    by apply obj_get_elem, Hval in Hv.
  - intros Heq. symmetry in Heq. apply stringify_undefined in Heq as ->.
    by apply obj_get_elem, Hold in Hw.
Qed.

(** An instance: a key added with the value [null]. *)
Lemma added_or_removed_key_example :
  "note" ∈ changedFields "total" [("price", VNum 5); ("note", VNull)]
                                 [("price", VNum 5)].
Proof.
  apply added_or_removed_key_is_changed;
    [parsed_tac | parsed_tac | discriminate | discriminate].
Defined.

(* ===================================================================== *)
(** ** Path lookup                                                        *)
(* ===================================================================== *)

Lemma split_on_nonempty sep s : split_on sep s ≠ [].
Proof.
  destruct s as [|c s]; simpl; [done|].
  destruct (Ascii.eqb c sep); [done|]. by destruct (split_on sep s).
Qed.

Lemma split_on_append sep a b :
  split_on sep (a +:+ String sep b) = split_on sep a ++ split_on sep b.
Proof.
  induction a as [|c a IH].
  - change ("" +:+ String sep b) with (String sep b).
    cbn [split_on]. by rewrite Ascii.eqb_refl.
  - change (String c a +:+ String sep b) with (String c (a +:+ String sep b)).
    cbn [split_on]. rewrite IH. destruct (Ascii.eqb c sep); [done|].
    pose proof (split_on_nonempty sep a) as Hne.
    by destruct (split_on sep a).
Qed.

Lemma split_on_no_dot p : no_dot p → split_on "."%char p = [p].
Proof.
  unfold no_dot. induction p as [|c p IH]; [done|].
  cbn [str_forallb split_on].
  intros [Hc Hp]%andb_true_iff. apply negb_true_iff in Hc.
  by rewrite Hc, (IH Hp).
Qed.

Lemma walk_path_app v l1 l2 :
  walk_path v (l1 ++ l2) =
  match walk_path v l1 with
  | Ok r => if pr_found r then walk_path (pr_value r) l2 else Ok r
  | Throw e => Throw e
  end.
Proof.
  revert v. induction l1 as [|i l1 IH]; intros v; [done|].
  cbn [app walk_path].
  destruct (js_in i v) as [[|]|e]; cbn [rbind]; [|done|done].
  destruct (js_get v i) as [v'|e]; cbn [rbind]; [apply IH | done].
Qed.

Lemma walk_path_sentinel v l r :
  walk_path v l = Ok r → pr_found r = false → r = not_found.
Proof.
  revert v. induction l as [|i l IH]; intros v; cbn [walk_path].
  - by intros [= <-].
  - destruct (js_in i v) as [[|]|e]; cbn [rbind]; [| by intros [= <-] | done].
    destruct (js_get v i) as [v'|e]; cbn [rbind]; [apply IH | done].
Qed.

Lemma js_get_error v k e : js_get v k = Throw e → e = TypeError.
Proof.
  destruct v; simpl; try by intros [= <-].
  all: destruct (array_index k); [done|]; by destruct (String.eqb k "length").
Qed.

Lemma js_in_error k v e : js_in k v = Throw e → e = TypeError.
Proof.
  destruct v; simpl; try by intros [= <-].
  by destruct (array_index k).
Qed.

(** X8: looking up the path [a.b] is looking up [a] and, from what that
    found, [b].  A failure of the first lookup -- the sentinel or the
    exception -- is the result of the whole. *)
Theorem findValueByPath_compose (o : obj) (a b : string) :
  findValueByPath o (a +:+ "." +:+ b) =
  match findValueByPath o a with
  | Ok r =>
      if pr_found r then walk_path (pr_value r) (split_on "."%char b)
      else Ok not_found
  | Throw e => Throw e
  end.
Proof.
  unfold findValueByPath.
  change (a +:+ "." +:+ b) with (a +:+ String "." b).
  rewrite split_on_append, walk_path_app.
  destruct (walk_path (VObj o) (split_on "." a)) as [r|e] eqn:Hr; [|done].
  destruct (pr_found r) eqn:Hf; [done|].
  by rewrite (walk_path_sentinel _ _ _ Hr Hf).
Qed.

(** X9: a lookup that does not find returns the sentinel -- [found] false
    goes with the value [null], never with a value read from the record --
    and a lookup that raises raises a [TypeError]. *)
Theorem findValueByPath_not_found_is_null (o : obj) (path : string) :
  match findValueByPath o path with
  | Ok r => pr_found r = false → pr_value r = VNull
  | Throw e => e = TypeError
  end.
Proof.
  unfold findValueByPath.
  destruct (walk_path (VObj o) (split_on "." path)) as [r|e] eqn:Hr.
  - intros Hf. by rewrite (walk_path_sentinel _ _ _ Hr Hf).
  - revert Hr. generalize (VObj o).
    induction (split_on "." path) as [|i l IH]; intros v; cbn [walk_path];
      [done|].
    destruct (js_in i v) as [[|]|e'] eqn:Hin; cbn [rbind]; [|done|].
    + destruct (js_get v i) as [v'|e''] eqn:Hget; cbn [rbind]; [apply IH|].
      intros [= <-]. by apply js_get_error in Hget.
    + intros [= <-]. by apply js_in_error in Hin.
Qed.

(** X10: a path without a dot never raises: it returns the top-level field
    of that name, or the sentinel when the record has no such key. *)
Theorem findValueByPath_top_level (o : obj) (path : string) :
  no_dot path →
  findValueByPath o path =
  Ok (if obj_has path o
      then {| pr_value := obj_read path o; pr_found := true |}
      else not_found).
Proof.
  intros Hp. unfold findValueByPath. rewrite (split_on_no_dot path Hp).
  cbn [walk_path js_in js_get rbind]. by destruct (obj_has path o).
Qed.

Lemma findValueByPath_top_level_example :
  findValueByPath [("title", VStr "x")] "name" = Ok not_found.
Proof. by apply (findValueByPath_top_level [("title", VStr "x")] "name"). Defined.

(** X11: a path that continues below a value that is neither an object
    nor an array raises.  When [a] is found and leads to [null], a number,
    a string or a boolean, looking up [a.b] throws a [TypeError], whatever
    [b] is. *)
Theorem findValueByPath_throws_below_primitive (o : obj) (a b : string)
    (v : value) :
  findValueByPath o a = Ok {| pr_value := v; pr_found := true |} →
  has_properties v = false →
  findValueByPath o (a +:+ "." +:+ b) = Throw TypeError.
Proof.
  intros Ha Hv. unfold findValueByPath in *.
  change (a +:+ "." +:+ b) with (a +:+ String "." b).
  rewrite split_on_append, walk_path_app, Ha. cbn [pr_found pr_value].
  pose proof (split_on_nonempty "." b) as Hne.
  destruct (split_on "." b) as [|i l]; [done|].
  by destruct v.
Qed.

Lemma findValueByPath_throws_below_string :
  findValueByPath [("author", VObj [("name", VStr "Ann")])]
                  "author.name.first" = Throw TypeError.
Proof.
  by apply (findValueByPath_throws_below_primitive
              [("author", VObj [("name", VStr "Ann")])]
              "author.name" "first" (VStr "Ann")).
Defined.

(* ===================================================================== *)
(** ** The emitted record                                                 *)
(* ===================================================================== *)

Lemma obj_get_null_removed k old val :
  obj_has k val = true → obj_get k (null_removed old val) = obj_get k val.
Proof.
  unfold null_removed. revert val.
  induction (obj_keys old) as [|key keys IH]; intros val Hk; [done|].
  cbn [fold_left]. destruct (obj_in key val) eqn:Hkey; cbn [negb].
  - by apply IH.
  - apply orb_false_iff in Hkey as [Hkey _]. rewrite IH.
    + apply obj_get_set_ne. intros ->. congruence.
    + rewrite obj_has_set, Hk. apply orb_true_r.
Qed.

Lemma null_removed_entry k v old val :
  (k, v) ∈ null_removed old val →
  (k, v) ∈ val ∨ (v = VNull ∧ obj_in k val = false).
Proof.
  unfold null_removed. revert val.
  induction (obj_keys old) as [|key keys IH]; intros val; [by left|].
  cbn [fold_left]. destruct (obj_in key val) eqn:Hkey; cbn [negb].
  - apply IH.
  - intros [Hin|[-> Hno]]%IH.
    + apply elem_of_obj_set in Hin as [[= -> ->]|?]; [by right | by left].
    + right. split; [done|]. unfold obj_in in *. rewrite obj_has_set in Hno.
      apply orb_false_iff in Hno as [[_ ->]%orb_false_iff ->]. done.
Qed.

Lemma obj_has_cons k key w o :
  obj_has k ((key, w) :: o) = String.eqb k key || obj_has k o.
Proof. unfold obj_has. simpl. by destruct (String.eqb k key). Qed.

(** The keys after lines 80-84: those of the edited record and, of the
    previous record's, those that name no inherited member. *)
Lemma obj_has_null_removed k old val :
  obj_has k (null_removed old val) =
  obj_has k val || (obj_has k old && negb (proto_member k)).
Proof.
  unfold null_removed. revert val.
  induction old as [|[key w] old IH]; intros val.
  - by rewrite orb_false_r.
  - cbn [obj_keys map fst fold_left]. fold (obj_keys old).
    rewrite IH, (obj_has_cons k key w old). unfold obj_in.
    destruct (String.eqb_spec k key) as [->|Hne].
    + destruct (obj_has key val) eqn:Hkey; cbn [negb orb andb];
        [by rewrite Hkey|].
      destruct (proto_member key); cbn [negb orb andb].
      * by rewrite Hkey, andb_false_r.
      * by rewrite obj_has_set, bool_decide_eq_true_2.
    + destruct (obj_has key val || proto_member key) eqn:Hkey;
        cbn [negb orb andb]; [done|].
      rewrite obj_has_set, bool_decide_eq_false_2 by done. done.
Qed.

Lemma handler_success E val oldVal st st' :
  shouldUpdate (env_template E) (env_computedField E) val (default [] oldVal)
    = true →
  handler E val oldVal st = (st', Ok ()) →
  ∃ rd, finalValues st' =
          compose_final E (null_removed (default [] oldVal) val) rd ∧
        (∀ k, obj_has k rd = true → resolved_key E k) ∧
        foldM (resolve_field E (null_removed (default [] oldVal) val)
                 (default [] oldVal)
                 (pk_final E (null_removed (default [] oldVal) val)))
              (obj_keys (null_removed (default [] oldVal) val)) [] st
          = ({| fieldCache := fieldCache st'; itemCache := itemCache st';
                finalValues := finalValues st; requests := requests st' |},
             Ok rd).
Proof.
  intros Hopen. rewrite (handler_gate_open E val oldVal Hopen).
  unfold recompute, bind.
  pose proof (keeps_foldM finalValues
    (resolve_field E (null_removed (default [] oldVal) val) (default [] oldVal)
       (pk_final E (null_removed (default [] oldVal) val)))
    (obj_keys (null_removed (default [] oldVal) val)) []
    (keeps_final_resolve_field E _ _ _) st) as Hkeep.
  destruct (foldM _ _ [] st) as [t [rd|e]] eqn:Hfold; [|done].
  unfold set_finalValues. intros [= <-]. exists rd. cbn.
  split; [done|]. split.
  - intros k Hk.
    by destruct (foldM_resolve_field_keys _ _ _ _ _ _ _ _ _ Hfold k Hk).
  - simpl in Hkeep. rewrite <- Hkeep. by destruct t.
Qed.

(** X14: plain fields pass through.  In the record emitted by a successful
    recomputation, a key of the edited record that is not resolved
    relationally and is not [__currentUser] carries the value it has in
    the edited record. *)
Theorem plain_field_passes_through (E : env) (val : obj)
    (oldVal : option obj) (st st' : state) (k : string) :
  shouldUpdate (env_template E) (env_computedField E) val (default [] oldVal)
    = true →
  handler E val oldVal st = (st', Ok ()) →
  property_order val →
  k ∈ obj_keys val → ¬ resolved_key E k → k ≠ "__currentUser" →
  obj_get k (finalValues st') = obj_get k val.
Proof.
  intros Hopen Hrun Hord Hk Hunres Hcu.
  destruct (handler_success E val oldVal st st' Hopen Hrun)
    as (rd & -> & Hrd & _).
  apply obj_has_keys in Hk.
  rewrite obj_get_compose_final; [|done|].
  2:{ destruct (obj_has k rd) eqn:Hh; [|done]. by destruct (Hunres (Hrd k Hh)). }
  destruct (obj_get k val) as [v|] eqn:Hv;
    [|by apply obj_has_false in Hv; congruence].
  apply obj_get_spread_uniform.
  - unfold obj_has. by rewrite obj_get_null_removed, Hv.
  - intros v' [Hin|[_ Hno]]%null_removed_entry;
      [|apply orb_false_iff in Hno as [Hno _]; congruence].
    apply keys_in_order_fresh in Hord as [Hnd _].
    apply (obj_get_NoDup k v' val Hnd) in Hin. congruence.
Qed.

Lemma plain_field_passes_through_example :
  obj_get "title"
    (finalValues
       (handler (posts_env "{{title}}") [("title", VStr "t"); ("n", VNum 1)]
                None (initial_state (posts_env "{{title}}"))).1)
  = Some (VStr "t").
Proof.
  by apply (plain_field_passes_through (posts_env "{{title}}")
              [("title", VStr "t"); ("n", VNum 1)] None
              (initial_state (posts_env "{{title}}")) _ "title");
    [reflexivity | reflexivity | reflexivity | apply list_elem_of_here
    | by intros [[rel Hrel] _] | discriminate].
Defined.

Lemma resolve_field_within E valObj oldValObj pkFinal rd key st st' rd' :
  resolve_field E valObj oldValObj pkFinal rd key st = (st', Ok rd') →
  ∀ k, obj_has k rd' = true → obj_has k rd = true ∨ k = key.
Proof.
  unfold resolve_field.
  destruct (List.find _ _) as [rel|]; [|by intros [= <- <-] k ?; left].
  destruct (negb _); [by intros [= <- <-] k ?; left|].
  unfold bind. destruct (resolve_relation _ _ _ _ _ _ st) as [st1 [v|e]];
    [|done].
  intros [= <- <-] k. rewrite obj_has_set.
  intros [Hk| ?]%orb_true_iff; [|by left].
  apply bool_decide_eq_true in Hk as <-. by right.
Qed.

Lemma foldM_resolve_field_within E valObj oldValObj pkFinal keys rd st st' rd' :
  foldM (resolve_field E valObj oldValObj pkFinal) keys rd st = (st', Ok rd') →
  ∀ k, obj_has k rd' = true → obj_has k rd = true ∨ k ∈ keys.
Proof.
  revert rd st. induction keys as [|key keys IH]; intros rd st; simpl.
  - intros [= <- <-] k ?. by left.
  - unfold bind at 1.
    destruct (resolve_field _ _ _ _ rd key st) as [st1 [rd1|e]] eqn:Hstep;
      [|done].
    intros Hrest k Hk. destruct (IH _ _ Hrest k Hk) as [Hk1|?].
    + destruct (resolve_field_within _ _ _ _ _ _ _ _ _ Hstep k Hk1) as [?| ->].
      * by left.
      * right. apply list_elem_of_here.
    + right. by apply list_elem_of_further.
Qed.

(** X15: the keys of the emitted record.  After a successful
    recomputation the emitted record holds exactly the keys of the edited
    record, [__currentUser], and those keys of the previous record that
    name no member of [Object.prototype] (a removed key such as
    [constructor] passes the [in] test of line 81 and is left out):
    resolution adds no key of its own. *)
Theorem emitted_keys (E : env) (val : obj) (oldVal : option obj)
    (st st' : state) :
  shouldUpdate (env_template E) (env_computedField E) val (default [] oldVal)
    = true →
  handler E val oldVal st = (st', Ok ()) →
  ∀ k, k ∈ obj_keys (finalValues st') ↔
       k = "__currentUser" ∨ k ∈ obj_keys val ∨
       (k ∈ obj_keys (default [] oldVal) ∧ proto_member k = false).
Proof.
  intros Hopen Hrun k.
  destruct (handler_success E val oldVal st st' Hopen Hrun)
    as (rd & -> & _ & Hfold).
  pose proof (foldM_resolve_field_within _ _ _ _ _ _ _ _ _ Hfold k) as Hin.
  rewrite <- !obj_has_keys. unfold compose_final.
  rewrite obj_has_set, !obj_has_spread, obj_has_null_removed.
  rewrite <- (obj_has_keys k (null_removed _ _)), obj_has_null_removed in Hin.
  change (obj_has k []) with false in *. rewrite orb_false_r.
  rewrite !orb_true_iff, !andb_true_iff, negb_true_iff, bool_decide_eq_true.
  rewrite !orb_true_iff, !andb_true_iff, negb_true_iff in Hin.
  split.
  - intros [<-|[Hrd|[?|?]]]; [by left| |by right; left|by right; right].
    right. by destruct (Hin Hrd).
  - intros [->|[?|?]]; [by left| |]; right; right; [by left | by right].
Qed.

Lemma emitted_keys_example :
  "n" ∈ obj_keys
    (finalValues
       (handler (posts_env "{{title}}") [("title", VStr "t")]
                (Some [("title", VStr "s"); ("n", VNum 1)])
                (initial_state (posts_env "{{title}}"))).1).
Proof.
  apply (emitted_keys (posts_env "{{title}}") [("title", VStr "t")]
           (Some [("title", VStr "s"); ("n", VNum 1)])
           (initial_state (posts_env "{{title}}")) _ eq_refl eq_refl "n").
  right. right. split; [|reflexivity].
  apply list_elem_of_further, list_elem_of_here.
Defined.

(* ===================================================================== *)
(** ** Requests                                                           *)
(* ===================================================================== *)

Lemma resolved_keyb_spec E k : resolved_keyb E k = true ↔ resolved_key E k.
Proof.
  unfold resolved_keyb, resolved_key.
  destruct (List.find _ _) as [rel|]; split.
  - intros Href. split; [by exists rel | done].
  - by intros [_ Href].
  - done.
  - by intros [[rel Hrel] _].
Qed.

Lemma resolve_field_unresolved E valObj oldValObj pkFinal rd key :
  resolved_keyb E key = false →
  resolve_field E valObj oldValObj pkFinal rd key = ret rd.
Proof.
  unfold resolved_keyb, resolve_field.
  destruct (List.find _ _) as [rel|]; [|done]. by intros ->.
Qed.

Lemma foldM_unresolved E valObj oldValObj pkFinal keys rd st :
  (∀ k, k ∈ keys → resolved_keyb E k = false) →
  foldM (resolve_field E valObj oldValObj pkFinal) keys rd st = (st, Ok rd).
Proof.
  induction keys as [|key keys IH]; intros Hall; [done|].
  cbn [foldM]. unfold bind.
  rewrite resolve_field_unresolved by apply Hall, list_elem_of_here.
  cbn [ret]. apply IH. intros k Hk. by apply Hall, list_elem_of_further.
Qed.

(** X16: a template that references no relational field of the record
    costs no request.  When no key of the edited or of the previous record
    is resolved relationally, the recomputation makes no request, leaves
    both caches as they are and emits the edited record -- removed keys
    set to [null] -- with the current user added. *)
Theorem unresolved_record_makes_no_request (E : env) (val old : obj)
    (st : state) :
  (∀ k, k ∈ obj_keys val ∨ k ∈ obj_keys old → ¬ resolved_key E k) →
  recompute E val old st =
  ({| fieldCache := fieldCache st; itemCache := itemCache st;
      finalValues := compose_final E (null_removed old val) [];
      requests := requests st |}, Ok ()).
Proof.
  intros Hall. unfold recompute, bind. rewrite foldM_unresolved; [done|].
  intros k Hk. apply not_true_iff_false. rewrite resolved_keyb_spec.
  apply Hall. apply obj_has_keys in Hk. rewrite obj_has_null_removed in Hk.
  apply orb_true_iff in Hk as [?|[? _]%andb_true_iff]; [left | right];
    by apply obj_has_keys.
Qed.

Lemma unresolved_record_example :
  requests (recompute (offline_env "{{title}} by {{author.name}}")
              [("title", VStr "t")] [("note", VStr "n")]
              (initial_state (offline_env "{{title}}"))).1 = [].
Proof.
  rewrite (unresolved_record_makes_no_request
             (offline_env "{{title}} by {{author.name}}")
             [("title", VStr "t")] [("note", VStr "n")]); [done|].
  intros k Hk%elem_of_app Hres%resolved_keyb_spec.
  repeat (apply elem_of_cons in Hk as [->|Hk]; [by vm_compute in Hres|]).
  by apply elem_of_nil in Hk.
Defined.

Lemma resolve_relation_steps E valObj oldValObj pkFinal key relation st :
  let isM2O := String.eqb (collection relation) (env_collection E) in
  let fc := nullish_or (obj_read (if isM2O then meta_key relation many_field
                                  else meta_key relation one_field) valObj)
                       default_changes in
  resolve_relation E valObj oldValObj pkFinal key relation st =
  match pending_ids E isM2O pkFinal key fc (obj_read key oldValObj) st with
  | (st1, Ok p) =>
      match add_updated p.1 p.2 with
      | Ok ids =>
          match related_data E isM2O relation p.1 ids st1 with
          | (st2, Ok data) => (st2, field_value isM2O p.1 data)
          | (st2, Throw e) => (st2, Throw e)
          end
      | Throw e => (st1, Throw e)
      end
  | (st1, Throw e) => (st1, Throw e)
  end.
Proof.
  intros isM2O fc. unfold resolve_relation. fold isM2O. fold fc.
  unfold bind at 1.
  destruct (pending_ids E isM2O pkFinal key fc _ st) as [st1 [p|e]]; [|done].
  unfold bind at 1, lift at 1.
  destruct (add_updated p.1 p.2) as [ids|e]; [|done].
  unfold bind, lift. by destruct (related_data _ _ _ _ _ _) as [st2 [data|e]].
Qed.

Lemma pending_ids_requests E (isM2O : bool) pkFinal key fc prev st :
  ∃ reads,
    requests (pending_ids E isM2O pkFinal key fc prev st).1
      = requests st ++ reads ∧
    (reads = [] ∨
     reads = [GetField (env_collection E) pkFinal key] ∧
     isM2O = false ∧ strict_eq pkFinal (VStr "+") = false).
Proof.
  destruct isM2O.
  - exists []. split; [|by left]. rewrite pending_ids_m2o_run, app_nil_r.
    pose proof (normalize_m2o_state fc prev st) as Hst.
    destruct (normalize_m2o fc prev st) as [st1 [fc'|e]]; cbn [fst] in *;
      rewrite Hst; by destruct (_ && _).
  - rewrite pending_ids_o2m_run, reset_o2m_run. cbn [fst].
    set (st0 := if is_array fc && negb (is_array prev) then cleared st else st).
    assert (Hst0 : requests st0 = requests st)
      by (subst st0; by destruct (_ && _)).
    destruct (strict_eq pkFinal (VStr "+")) eqn:Hpk.
    + exists []. split; [|by left].
      rewrite (baseline_ids_new_record _ _ _ _ Hpk). cbn [fst].
      by rewrite app_nil_r.
    + rewrite (baseline_ids_run _ _ _ _ Hpk).
      destruct (fieldCache st0 !! key) as [data|].
      * exists []. split; [|by left]. cbn [fst]. by rewrite app_nil_r.
      * exists [GetField (env_collection E) pkFinal key].
        split; [|by right]. cbn zeta.
        destruct (env_api E _ _); cbn [fst requests]; by rewrite Hst0.
Qed.

Lemma related_data_requests E (isM2O : bool) relation fc ids st :
  ∃ items,
    requests (related_data E isM2O relation fc ids st).1
      = requests st ++ items ∧
    (items = [] ∨ ∃ rc, items = [GetItems (items_path rc) ids]).
Proof.
  assert (Hnone : ∀ r : list value, ∃ items,
            requests (ret r st).1 = requests st ++ items ∧
            (items = [] ∨ ∃ rc, items = [GetItems (items_path rc) ids])).
  { intros r. exists []. split; [by rewrite app_nil_r | by left]. }
  unfold related_data. destruct ids as [|id ids]; [apply Hnone|].
  destruct (if isM2O then _ else _) as [rc|]; [|apply Hnone].
  destruct (negb _); [|apply Hnone].
  rewrite resolve_items_run.
  assert (Hfetch : ∃ items,
            requests (bind (fetch_items E rc (id :: ids))
                           (mapM (merge_item rc fc)) st).1
              = requests st ++ items ∧
            (items = [] ∨ ∃ rc, items = [GetItems (items_path rc) (id :: ids)])).
  { exists [GetItems (items_path rc) (id :: ids)].
    split; [apply fetch_then_merge_requests | right; by exists rc]. }
  destruct (itemCache st !! rc) as [cached|]; [|done].
  destruct (all_cached cached (id :: ids)); [|done].
  exists []. split; [|by left]. rewrite app_nil_r.
  apply (keeps_mapM requests). intros x. apply keeps_requests_merge_item.
Qed.

Lemma resolve_relation_requests E valObj oldValObj pkFinal key relation st :
  ∃ reads items,
    requests (resolve_relation E valObj oldValObj pkFinal key relation st).1
      = requests st ++ reads ++ items ∧
    (reads = [] ∨
     reads = [GetField (env_collection E) pkFinal key] ∧
     String.eqb (collection relation) (env_collection E) = false ∧
     strict_eq pkFinal (VStr "+") = false) ∧
    (items = [] ∨ ∃ rc ids, items = [GetItems (items_path rc) ids]).
Proof.
  rewrite resolve_relation_steps. cbn zeta.
  set (isM2O := String.eqb (collection relation) (env_collection E)).
  set (fc := nullish_or _ default_changes).
  destruct (pending_ids_requests E isM2O pkFinal key fc
              (obj_read key oldValObj) st) as (reads & Hreads & Hshape).
  destruct (pending_ids E isM2O pkFinal key fc _ st) as [st1 [p|e]];
    cbn [fst] in Hreads.
  2:{ exists reads, []. rewrite app_nil_r. split; [done|].
      split; [done | by left]. }
  destruct (add_updated p.1 p.2) as [ids|e].
  2:{ exists reads, []. rewrite app_nil_r. split; [done|].
      split; [done | by left]. }
  destruct (related_data_requests E isM2O relation p.1 ids st1)
    as (items & Hitems & Hishape).
  exists reads, items. split; [|split; [done|]].
  - rewrite app_assoc, <- Hreads, <- Hitems.
    by destruct (related_data _ _ _ _ _ _) as [st2 [data|e]].
  - destruct Hishape as [?|[rc ?]]; [by left | right; by exists rc, ids].
Qed.

(** X17: resolving one field makes at most two requests: first at most one
    read of the field's baseline, then at most one read of related
    entities.  The baseline read only occurs for a one-to-many field of a
    record whose key is not the new-record marker ["+"]. *)
Theorem field_resolution_requests (E : env) (valObj oldValObj : obj)
    (pkFinal : value) (key : string) (relation : Relation) (st : state) :
  ∃ reads items,
    requests (resolve_relation E valObj oldValObj pkFinal key relation st).1
      = requests st ++ reads ++ items ∧
    (reads = [] ∨
     reads = [GetField (env_collection E) pkFinal key] ∧
     String.eqb (collection relation) (env_collection E) = false ∧
     strict_eq pkFinal (VStr "+") = false) ∧
    (items = [] ∨ ∃ rc ids, items = [GetItems (items_path rc) ids]).
Proof. apply resolve_relation_requests. Qed.

Lemma resolve_field_request_bound E valObj oldValObj pkFinal rd key st :
  ∃ l, requests (resolve_field E valObj oldValObj pkFinal rd key st).1
         = requests st ++ l ∧
       (length l ≤ if resolved_keyb E key then 2 else 0)%nat.
Proof.
  destruct (resolved_keyb E key) eqn:Hres.
  - unfold resolved_keyb in Hres. unfold resolve_field.
    destruct (List.find _ _) as [rel|]; [|done]. rewrite Hres. cbn [negb].
    destruct (resolve_relation_requests E valObj oldValObj pkFinal key rel st)
      as (reads & items & Hreq & Hreads & Hitems).
    exists (reads ++ items). split.
    + unfold bind.
      by destruct (resolve_relation _ _ _ _ _ _ st) as [st1 [v|e]].
    + rewrite length_app.
      destruct Hreads as [->|[-> _]], Hitems as [->|(rc & ids & ->)];
        simpl; lia.
  - exists []. rewrite (resolve_field_unresolved _ _ _ _ _ _ Hres).
    split; [by rewrite app_nil_r | done].
Qed.

Lemma foldM_request_bound E valObj oldValObj pkFinal keys rd st :
  ∃ l, requests (foldM (resolve_field E valObj oldValObj pkFinal) keys rd st).1
         = requests st ++ l ∧
       (length l ≤ 2 * length (List.filter (resolved_keyb E) keys))%nat.
Proof.
  revert rd st. induction keys as [|key keys IH]; intros rd st.
  - exists []. split; [by rewrite app_nil_r | simpl; lia].
  - cbn [foldM]. unfold bind.
    destruct (resolve_field_request_bound E valObj oldValObj pkFinal rd key st)
      as (l1 & Hl1 & Hb1).
    destruct (resolve_field _ _ _ _ rd key st) as [st1 [rd1|e]];
      cbn [fst] in Hl1.
    + destruct (IH rd1 st1) as (l2 & Hl2 & Hb2).
      exists (l1 ++ l2). split; [by rewrite Hl2, Hl1, app_assoc|].
      rewrite length_app. cbn [List.filter].
      destruct (resolved_keyb E key); simpl in *; lia.
    + exists l1. split; [done|]. cbn [List.filter].
      destruct (resolved_keyb E key); simpl in *; lia.
Qed.

(** X18: a firing of the watcher only appends to the request log; it
    appends at most two requests for each key of the record that is
    resolved relationally, and none when the gate stays closed. *)
Theorem handler_request_bound (E : env) (val : obj) (oldVal : option obj)
    (st : state) :
  ∃ l, requests (handler E val oldVal st).1 = requests st ++ l ∧
       (length l ≤
        2 * length (List.filter (resolved_keyb E)
                      (obj_keys (null_removed (default [] oldVal) val))))%nat ∧
       (shouldUpdate (env_template E) (env_computedField E) val
                     (default [] oldVal) = false → l = []).
Proof.
  unfold handler.
  destruct (shouldUpdate (env_template E) (env_computedField E) val
                         (default [] oldVal)); cbn [negb].
  2:{ exists []. split; [by rewrite app_nil_r|]. split; [simpl; lia | done]. }
  unfold recompute, bind.
  destruct (foldM_request_bound E (null_removed (default [] oldVal) val)
              (default [] oldVal)
              (pk_final E (null_removed (default [] oldVal) val))
              (obj_keys (null_removed (default [] oldVal) val)) [] st)
    as (l & Hl & Hb).
  exists l. split; [|by split].
  by destruct (foldM _ _ [] st) as [st1 [rd|e]].
Qed.

(* ===================================================================== *)
(** ** Edge cases of the resolution                                       *)
(* ===================================================================== *)

(** X19: a many-to-one field without a value resolves to the empty
    mutation.  When the raw value of a referenced many-to-one field is
    [null] or absent, the field resolves to the object
    [{create: [], update: [], delete: []}] -- the default mutation, taken
    for a related object to be created -- and not to [null]; no request is
    made and the state is left as it is. *)
Theorem m2o_without_value_resolves_to_empty_mutation
    (E : env) (valObj oldValObj : obj) (pkFinal : value) (key : string)
    (relation : Relation) (st : state) :
  String.eqb (collection relation) (env_collection E) = true →
  nullish (obj_read (meta_key relation many_field) valObj) = true →
  resolve_relation E valObj oldValObj pkFinal key relation st =
  (st, Ok default_changes).
Proof.
  intros HisM2O Hraw. rewrite resolve_relation_steps. cbn zeta.
  rewrite HisM2O.
  replace (nullish_or (obj_read (meta_key relation many_field) valObj)
                      default_changes) with default_changes
    by (by destruct (obj_read (meta_key relation many_field) valObj)).
  by rewrite pending_ids_m2o_run.
Qed.

Lemma m2o_without_value_example :
  resolve_relation (offline_env "{{author.name}}") [("author", VNull)] []
    (VNum 9) "author" author_relation
    (initial_state (offline_env "{{author.name}}")) =
  (initial_state (offline_env "{{author.name}}"), Ok default_changes).
Proof.
  by apply (m2o_without_value_resolves_to_empty_mutation
              (offline_env "{{author.name}}") [("author", VNull)] []
              (VNum 9) "author" author_relation).
Defined.

(** X20: a malformed mutation aborts the resolution.  When the raw value
    of a one-to-many field carries an [update] member that is truthy but
    not an array, resolving the field raises and yields no value. *)
Theorem o2m_malformed_update_aborts
    (E : env) (valObj oldValObj : obj) (pkFinal : value) (key : string)
    (relation : Relation) (st : state) (upd : value) :
  String.eqb (collection relation) (env_collection E) = false →
  js_get (nullish_or (obj_read (meta_key relation one_field) valObj)
                     default_changes) "update" = Ok upd →
  truthy upd = true → is_array upd = false →
  ∃ e, (resolve_relation E valObj oldValObj pkFinal key relation st).2
       = Throw e.
Proof.
  intros HisM2O Hupd Htruthy Harr. rewrite resolve_relation_steps. cbn zeta.
  rewrite HisM2O, pending_ids_o2m_run.
  destruct (baseline_ids E pkFinal key _) as [st1 [base|e]];
    [|by exists e].
  unfold drop_pending. rewrite Hupd. cbn [rbind]. rewrite Htruthy.
  exists TypeError. by destruct upd.
Qed.

Lemma o2m_malformed_update_example :
  ∃ e, (resolve_relation (posts_env "{{comments.title}}")
          [("comments", VObj [("update", VNum 5)])] [] (VNum 9) "comments"
          comments_relation
          (initial_state (posts_env "{{comments.title}}"))).2 = Throw e.
Proof.
  by apply (o2m_malformed_update_aborts (posts_env "{{comments.title}}")
              [("comments", VObj [("update", VNum 5)])] [] (VNum 9)
              "comments" comments_relation _ (VNum 5)).
Defined.

(** X21: a one-to-many field of a record that is not saved yet.  When the
    record's key is the new-record marker ["+"], the baseline is empty and
    no field read is made: the ids resolved are the update-list ids, and
    the field resolves to the entities obtained for them, each overlaid
    with its update entry, followed by the created entries. *)
Theorem o2m_of_new_record (E : env) (valObj oldValObj : obj)
    (key : string) (relation : Relation) (st : state)
    (fc : value) (U D C uids entities : list value) :
  String.eqb (collection relation) (env_collection E) = false →
  nullish_or (obj_read (meta_key relation one_field) valObj) default_changes
    = fc →
  mutation_list fc "update" = Some U →
  mutation_list fc "delete" = Some D →
  mutation_list fc "create" = Some C →
  rmap (fun u => js_get u "id") U = Ok uids →
  let st0 := (reset_o2m fc (obj_read key oldValObj) st).1 in
  related_source E st0 (collection relation) uids = Some (VArr entities) →
  Forall readable entities →
  pending_ids E false (VStr "+") key fc (obj_read key oldValObj) st
    = (st0, Ok (fc, [])) ∧
  (resolve_relation E valObj oldValObj (VStr "+") key relation st).2 =
    Ok (VArr (map (overlay U) entities ++ C)).
Proof.
  intros HisM2O Hfc HU HD HC Hids st0 Hent Hread.
  assert (Hp : pending_ids E false (VStr "+") key fc (obj_read key oldValObj) st
               = (st0, Ok (fc, []))).
  { rewrite pending_ids_o2m_run. fold st0.
    rewrite (baseline_ids_new_record E (VStr "+") key st0 eq_refl).
    by rewrite (drop_pending_lists fc U D uids [] HU HD Hids). }
  split; [done|].
  rewrite (resolve_relation_run E valObj oldValObj (VStr "+") key relation st
             false fc st0 fc _ HisM2O Hfc Hp).
  rewrite (add_updated_lists fc U uids _ HU Hids). cbn [app].
  destruct (rmap_merged_lists fc U uids entities HU Hids Hread)
    as (upd & Hupd & Hmerge).
  pose proof (related_data_result E false relation fc upd uids st0
                (collection relation) eq_refl Hupd) as Hrel.
  rewrite Hent, Hmerge in Hrel.
  destruct (related_data E false relation fc uids st0) as [st2 [data|e]];
    simpl in Hrel; [|done].
  injection Hrel as ->. simpl.
  by rewrite (field_value_lists false fc C _ HC).
Qed.

(** An instance: a new post with one comment attached and one created. *)
Lemma o2m_of_new_record_example :
  (resolve_relation (posts_env "{{comments.title}}")
     [("id", VStr "+");
      ("comments",
       VObj [("create", VArr [VObj [("title", VStr "fresh")]]);
             ("update", VArr [VObj [("id", VNum 4); ("title", VStr "moved")]]);
             ("delete", VArr [])])]
     [] (VStr "+") "comments" comments_relation
     (initial_state (posts_env "{{comments.title}}"))).2 =
  Ok (VArr [VObj [("id", VNum 4); ("title", VStr "moved")];
            VObj [("title", VStr "fresh")]]).
Proof.
  refine (proj2 (o2m_of_new_record (posts_env "{{comments.title}}")
     [("id", VStr "+");
      ("comments",
       VObj [("create", VArr [VObj [("title", VStr "fresh")]]);
             ("update", VArr [VObj [("id", VNum 4); ("title", VStr "moved")]]);
             ("delete", VArr [])])]
     [] "comments" comments_relation
     (initial_state (posts_env "{{comments.title}}"))
     (VObj [("create", VArr [VObj [("title", VStr "fresh")]]);
            ("update", VArr [VObj [("id", VNum 4); ("title", VStr "moved")]]);
            ("delete", VArr [])])
     [VObj [("id", VNum 4); ("title", VStr "moved")]] []
     [VObj [("title", VStr "fresh")]] [VNum 4] [demo_entity (VNum 4)]
     _ _ _ _ _ _ _ _)); try reflexivity.
  repeat constructor; done.
Defined.

(* ===================================================================== *)
(** ** Resolved fields in the emitted record                              *)
(* ===================================================================== *)













(* ===================================================================== *)
(** ** The field cache                                                    *)
(* ===================================================================== *)










(* ===================================================================== *)
(** ** Firings that overlap                                               *)
(* ===================================================================== *)

(** *** Read without interruption, a firing is [handler] *)

Lemma bind_congr {A B} (c c' : M A) (k k' : A → M B) st :
  (∀ st', c st' = c' st') → (∀ a st', k a st' = k' a st') →
  bind c k st = bind c' k' st.
Proof.
  intros Hc Hk. unfold bind. rewrite Hc.
  destruct (c' st) as [st' [a|e]]; [apply Hk | done].
Qed.

Lemma bind_lift {A B} (r : result A) (k : A → M B) st :
  bind (lift r) k st = match r with Ok a => k a st | Throw e => (st, Throw e) end.
Proof. by destruct r. Qed.

Lemma exec_bindT E {A B} (t : task A) (f : A → task B) st :
  exec E (bindT t f) st = bind (exec E t) (fun a => exec E (f a)) st.
Proof.
  revert st. induction t as [[a|e]|X c k IH|q k IH]; intros st; try done.
  - cbn [bindT exec]. unfold bind.
    destruct (c st) as [st' [x|e]]; [|done]. by rewrite IH.
  - cbn [bindT exec]. unfold bind.
    destruct (fetch E q st) as [st' [x|e]]; [|done]. by rewrite IH.
Qed.

Lemma exec_atomic E {A} (c : M A) st : exec E (atomic c) st = c st.
Proof. cbn. unfold bind. by destruct (c st) as [st' [a|e]]. Qed.

Lemma exec_fetchT E q st : exec E (fetchT q) st = fetch E q st.
Proof. cbn. unfold bind. by destruct (fetch E q st) as [st' [a|e]]. Qed.

Lemma exec_foldT E {A B} (f : A → B → task A) (g : A → B → M A) l a st :
  (∀ a x st, exec E (f a x) st = g a x st) →
  exec E (foldT f l a) st = foldM g l a st.
Proof.
  intros Hfg. revert a st. induction l as [|x l IH]; intros a st; [done|].
  cbn [foldT foldM]. rewrite exec_bindT. by apply bind_congr.
Qed.

Lemma exec_baseline_ids E pkFinal key st :
  exec E (baseline_ids_task E pkFinal key) st = baseline_ids E pkFinal key st.
Proof.
  unfold baseline_ids_task, baseline_ids.
  destruct (negb _); [|done].
  rewrite exec_bindT. apply bind_congr; [apply exec_atomic|].
  intros s st'. rewrite exec_bindT. apply bind_congr; [|done].
  intros st''. destruct (fieldCache s !! key); [done|].
  rewrite exec_bindT. apply bind_congr; [apply exec_fetchT|].
  intros data st3. rewrite exec_bindT. apply bind_congr; [apply exec_atomic|].
  done.
Qed.

Lemma exec_fetch_items E rc ids st :
  exec E (fetch_items_task rc ids) st = fetch_items E rc ids st.
Proof.
  unfold fetch_items_task, fetch_items. rewrite exec_bindT.
  apply bind_congr; [apply exec_fetchT|]. by intros [].
Qed.

Lemma exec_resolve_items E rc fc ids st :
  exec E (resolve_items_task rc fc ids) st = resolve_items E rc fc ids st.
Proof.
  unfold resolve_items_task, resolve_items.
  rewrite exec_bindT. apply bind_congr; [apply exec_atomic|].
  intros s st'. rewrite exec_bindT. apply bind_congr.
  - intros st''. destruct (itemCache s !! rc) as [cached|];
      [|apply exec_fetch_items].
    destruct (all_cached cached ids); [done | apply exec_fetch_items].
  - intros data st''. apply exec_atomic.
Qed.

Lemma exec_pending_ids E (isM2O : bool) pkFinal key fc prev st :
  exec E (pending_ids_task E isM2O pkFinal key fc prev) st =
  pending_ids E isM2O pkFinal key fc prev st.
Proof.
  unfold pending_ids_task, pending_ids. destruct isM2O.
  - rewrite exec_bindT. apply bind_congr; [apply exec_atomic | done].
  - rewrite exec_bindT. apply bind_congr; [apply exec_atomic|].
    intros _ st'. rewrite exec_bindT.
    apply bind_congr; [apply exec_baseline_ids|].
    intros ids st''. rewrite exec_bindT. by apply bind_congr.
Qed.

Lemma exec_related_data E (isM2O : bool) relation fc ids st :
  exec E (related_data_task E isM2O relation fc ids) st =
  related_data E isM2O relation fc ids st.
Proof.
  unfold related_data_task, related_data. destruct ids as [|id ids]; [done|].
  destruct (if isM2O then _ else _) as [rc|]; [|done].
  destruct (negb _); [apply exec_resolve_items | done].
Qed.

Lemma exec_resolve_relation E valObj oldValObj pkFinal key relation st :
  exec E (resolve_relation_task E valObj oldValObj pkFinal key relation) st =
  resolve_relation E valObj oldValObj pkFinal key relation st.
Proof.
  unfold resolve_relation_task, resolve_relation. cbn zeta.
  rewrite exec_bindT. apply bind_congr; [apply exec_pending_ids|].
  intros p st'. rewrite exec_bindT. apply bind_congr; [done|].
  intros ids st''. rewrite exec_bindT.
  apply bind_congr; [apply exec_related_data | done].
Qed.

Lemma exec_resolve_field E valObj oldValObj pkFinal rd key st :
  exec E (resolve_field_task E valObj oldValObj pkFinal rd key) st =
  resolve_field E valObj oldValObj pkFinal rd key st.
Proof.
  unfold resolve_field_task, resolve_field.
  destruct (List.find _ _) as [relation|]; [|done].
  destruct (negb _); [done|].
  rewrite exec_bindT. apply bind_congr; [apply exec_resolve_relation | done].
Qed.

(** With every request answered at once by the configuration's client, a
    firing is the handler. *)
Lemma exec_handler E val oldVal st :
  exec E (handler_task E val oldVal) st = handler E val oldVal st.
Proof.
  unfold handler_task, handler. destruct (negb _); [done|].
  unfold recompute_task, recompute. cbn zeta.
  rewrite exec_bindT. apply bind_congr.
  - intros st'. apply exec_foldT. intros a x st''. apply exec_resolve_field.
  - intros rd st'. apply exec_atomic.
Qed.

(** A firing read without interruption is its first stretch and, if it
    awaits, the rest of it read without interruption on the answer. *)
Lemma exec_stretch E {A} (t : task A) st :
  exec E t st =
  match stretch t st with
  | (st', Finished r) => (st', r)
  | (st', Suspended q k) =>
      match env_api E (requests st') q with
      | Some v => exec E (k v) (log q st')
      | None => (log q st', Throw FetchFailure)
      end
  end.
Proof.
  revert st. induction t as [r|X c k IH|q k IH]; intros st; cbn [exec stretch].
  - done.
  - unfold bind. destruct (c st) as [st' [x|e]]; [apply IH | done].
  - unfold bind, fetch. by destruct (env_api E (requests st) q).
Qed.

(** *** What a firing does to the emitted record *)

Lemma quiet_mono {A} (Q Q' : A → Prop) (t : task A) :
  (∀ a, Q a → Q' a) → quiet Q t → quiet Q' t.
Proof.
  intros HQ. induction t as [[a|e]|X c k IH|q k IH]; cbn [quiet]; try done.
  - apply HQ.
  - intros [Hc Hk]. split; [done|]. intros x. by apply IH.
  - intros Hk v. by apply IH.
Qed.

Lemma quiet_bindT {A B} (Q : A → Prop) (R : B → Prop) (t : task A)
    (f : A → task B) :
  quiet Q t → (∀ a, Q a → quiet R (f a)) → quiet R (bindT t f).
Proof.
  intros Ht Hf. induction t as [[a|e]|X c k IH|q k IH]; cbn [quiet bindT] in *.
  - by apply Hf.
  - done.
  - destruct Ht as [Hc Hk]. split; [done|]. intros x. by apply IH.
  - intros v. by apply IH.
Qed.

Lemma quiet_atomic {A} (c : M A) :
  keeps finalValues c → quiet (fun _ => True) (atomic c).
Proof. intros Hc. by split. Qed.

Lemma quiet_done {A} (Q : A → Prop) (r : result A) :
  (∀ a, r = Ok a → Q a) → quiet Q (Done r).
Proof. intros H. destruct r as [a|e]; [by apply H | done]. Qed.

Lemma emits_bindT {A B} (Q : A → Prop) (P : obj → Prop) (t : task A)
    (f : A → task B) :
  quiet Q t → (∀ a, Q a → emits P (f a)) → emits P (bindT t f).
Proof.
  intros Ht Hf. induction t as [[a|e]|X c k IH|q k IH]; cbn [quiet bindT] in *.
  - by apply Hf.
  - done.
  - destruct Ht as [Hc Hk]. split; [by intros st; left|].
    intros x. by apply IH.
  - intros v. by apply IH.
Qed.

Lemma emits_mono {A} (P P' : obj → Prop) (t : task A) :
  (∀ fv, P fv → P' fv) → emits P t → emits P' t.
Proof.
  intros HP. induction t as [r|X c k IH|q k IH]; cbn [emits]; [done| |].
  - intros [Hc Hk]. split.
    + intros st. destruct (Hc st) as [?|?]; [by left | right; by apply HP].
    + intros x. by apply IH.
  - intros Hk v. by apply IH.
Qed.

Ltac quiet_bind := apply (quiet_bindT (fun _ => True)); [|intros ? _].

Lemma quiet_result {A} (r : result A) : quiet (fun _ => True) (Done r).
Proof. by destruct r. Qed.

Lemma quiet_fetchT q : quiet (fun _ => True) (fetchT q).
Proof. by intros v. Qed.

Lemma quiet_baseline_ids E pkFinal key :
  quiet (fun _ => True) (baseline_ids_task E pkFinal key).
Proof.
  unfold baseline_ids_task. destruct (negb _); [|done].
  quiet_bind; [apply quiet_atomic, keeps_get_state|].
  quiet_bind; [|done].
  destruct (fieldCache _ !! key); [done|].
  quiet_bind; [apply quiet_fetchT|].
  quiet_bind; [apply quiet_atomic, keeps_final_set_fieldCache | done].
Qed.

Lemma quiet_fetch_items rc ids :
  quiet (fun _ => True) (fetch_items_task rc ids).
Proof.
  unfold fetch_items_task. quiet_bind; [apply quiet_fetchT|].
  by destruct a.
Qed.

Lemma quiet_resolve_items rc fc ids :
  quiet (fun _ => True) (resolve_items_task rc fc ids).
Proof.
  unfold resolve_items_task.
  quiet_bind; [apply quiet_atomic, keeps_get_state|].
  quiet_bind.
  - destruct (itemCache _ !! rc) as [cached|]; [|apply quiet_fetch_items].
    destruct (all_cached cached ids); [done | apply quiet_fetch_items].
  - apply quiet_atomic, keeps_mapM. intros item. apply keeps_final_merge_item.
Qed.

Lemma quiet_pending_ids E (isM2O : bool) pkFinal key fc prev :
  quiet (fun _ => True) (pending_ids_task E isM2O pkFinal key fc prev).
Proof.
  unfold pending_ids_task. destruct isM2O.
  - quiet_bind; [apply quiet_atomic, keeps_final_normalize_m2o | done].
  - quiet_bind.
    { apply quiet_atomic. unfold reset_o2m.
      destruct (_ && _); [apply keeps_final_clear_caches | apply keeps_ret]. }
    quiet_bind; [apply quiet_baseline_ids|].
    quiet_bind; [apply quiet_result | done].
Qed.

Lemma quiet_related_data E (isM2O : bool) relation fc ids :
  quiet (fun _ => True) (related_data_task E isM2O relation fc ids).
Proof.
  unfold related_data_task. destruct ids as [|id ids]; [done|].
  destruct (if isM2O then _ else _) as [rc|]; [|done].
  destruct (negb _); [apply quiet_resolve_items | done].
Qed.

Lemma quiet_resolve_relation E valObj oldValObj pkFinal key relation :
  quiet (fun _ => True)
        (resolve_relation_task E valObj oldValObj pkFinal key relation).
Proof.
  unfold resolve_relation_task. cbn zeta.
  quiet_bind; [apply quiet_pending_ids|].
  quiet_bind; [apply quiet_result|].
  quiet_bind; [apply quiet_related_data | apply quiet_result].
Qed.

Lemma quiet_resolve_field E valObj oldValObj pkFinal rd key :
  quiet (fun rd' => ∀ k, obj_has k rd' = true →
                         obj_has k rd = true ∨ resolved_key E k)
        (resolve_field_task E valObj oldValObj pkFinal rd key).
Proof.
  unfold resolve_field_task.
  destruct (List.find _ _) as [relation|] eqn:Hfind;
    [|by intros k ?; left].
  destruct (checkFieldInTemplate _ key) eqn:Href; cbn [negb];
    [|by intros k ?; left].
  eapply quiet_bindT; [apply quiet_resolve_relation|].
  intros v _ k. cbn [quiet]. rewrite obj_has_set.
  intros [Hk|?]%orb_true_iff; [|by left].
  apply bool_decide_eq_true in Hk as <-. right.
  split; [by exists relation | done].
Qed.

Lemma quiet_foldT_resolve_field E valObj oldValObj pkFinal keys rd :
  quiet (fun rd' => ∀ k, obj_has k rd' = true →
                         obj_has k rd = true ∨ resolved_key E k)
        (foldT (resolve_field_task E valObj oldValObj pkFinal) keys rd).
Proof.
  revert rd. induction keys as [|key keys IH]; intros rd; cbn [foldT].
  - by intros k ?; left.
  - eapply quiet_bindT; [apply quiet_resolve_field|].
    intros rd1 Hrd1. eapply quiet_mono; [|apply IH].
    intros rd2 Hrd2 k Hk. destruct (Hrd2 k Hk) as [Hk1|?]; [|by right].
    by apply Hrd1.
Qed.

(** A firing leaves the emitted record alone until, at its very end, it
    sets it to the composite record. *)
Lemma emits_handler E val oldVal :
  emits (fun fv => ∃ rd,
           fv = compose_final E (null_removed (default [] oldVal) val) rd ∧
           ∀ k, obj_has k rd = true → resolved_key E k)
        (handler_task E val oldVal).
Proof.
  unfold handler_task. destruct (negb _); [done|].
  unfold recompute_task. cbn zeta.
  eapply emits_bindT; [apply quiet_foldT_resolve_field|].
  intros rd Hrd. split; [|done]. intros st. right. exists rd.
  split; [done|]. intros k Hk. by destruct (Hrd k Hk).
Qed.

Lemma stretch_emits {A} (P : obj → Prop) (t : task A) st :
  emits P t →
  (finalValues (stretch t st).1 = finalValues st ∨
   P (finalValues (stretch t st).1)) ∧
  match (stretch t st).2 with
  | Finished _ => True
  | Suspended _ k => ∀ v, emits P (k v)
  end.
Proof.
  revert st. induction t as [r|X c k IH|q k IH]; intros st; cbn [emits stretch].
  - intros _. by split; [left|].
  - intros [Hc Hk]. specialize (Hc st).
    destruct (c st) as [st' [x|e]]; cbn [fst] in *; [|by split].
    destruct (IH x st' (Hk x)) as [Hfv Hout]. split; [|done].
    destruct Hfv as [Heq|?]; [|by right]. rewrite Heq. exact Hc.
  - intros Hk. by split; [left|].
Qed.

(** *** The records a run shows *)

Lemma complete_record_mono E V V' fv :
  (∀ x, x ∈ V → x ∈ V') → complete_record E V fv → complete_record E V' fv.
Proof.
  intros Hsub [->|(val & old & rd & Hval & Hold & -> & Hrd)]; [by left|].
  right. exists val, old, rd. split; [by apply Hsub|].
  split; [|done]. destruct Hold as [->|?]; [by left | right; by apply Hsub].
Qed.

Lemma settled_mono E V V' c :
  (∀ x, x ∈ V → x ∈ V') → settled E V c → settled E V' c.
Proof.
  intros Hsub (Hfv & Hw & Hseen). split; [|split].
  - by apply (complete_record_mono E V).
  - eapply Forall_impl; [exact Hw|]. intros k Hk v.
    eapply emits_mono; [|apply Hk]. intros fv.
    by apply complete_record_mono.
  - destruct (seen c); [by apply Hsub | done].
Qed.

Lemma advance_settled E V t c :
  settled E V c → emits (complete_record E V) t → settled E V (advance t c).
Proof.
  intros (Hfv & Hw & Hseen) Ht. unfold advance.
  destruct (stretch_emits (complete_record E V) t (store c) Ht) as [Hst Hout].
  destruct (stretch t (store c)) as [st' [r|q k]]; cbn [fst snd] in *.
  - split; [|by split]. cbn. destruct Hst as [->|?]; done.
  - split; [|split]; cbn; [|by apply Forall_app; split; [|constructor]|done].
    destruct Hst as [->|?]; done.
Qed.

Lemma step_settled E V ev c :
  settled E V c → settled E (V ++ edits [ev]) (step E ev c).
Proof.
  intros Hc.
  assert (Hc' : settled E (V ++ edits [ev]) c).
  { eapply settled_mono; [|exact Hc]. intros x Hx.
    apply elem_of_app. by left. }
  destruct ev as [val|i data]; cbn [step].
  - destruct (match seen c with Some _ => _ | None => _ end); [done|].
    assert (Hval : val ∈ V ++ edits [Edit val])
      by (apply elem_of_app; right; apply list_elem_of_here).
    apply advance_settled.
    + destruct Hc' as (Hfv & Hw & _). by split; [|split].
    + eapply emits_mono; [|apply emits_handler].
      intros fv (rd & -> & Hrd). right.
      exists val, (default [] (seen c)), rd. split; [done|].
      split; [|done]. destruct Hc' as (_ & _ & Hseen).
      destruct (seen c); [by right | by left].
  - destruct (waiting c !! i) as [k|] eqn:Hk; [|done].
    destruct Hc' as (Hfv & Hw & Hseen).
    assert (Hc'' : settled E (V ++ edits [Answer i data])
                     {| store := store c; waiting := delete i (waiting c);
                        seen := seen c |}).
    { split; [done|]. split; [|done]. cbn. by apply Forall_delete. }
    destruct data as [v|]; [|done].
    apply advance_settled; [done|].
    by apply (proj1 (Forall_lookup _ _) Hw i k).
Qed.

Lemma run_events_settled E evs V c :
  settled E V c → settled E (V ++ edits evs) (run_events E evs c).
Proof.
  revert V c. induction evs as [|ev evs IH]; intros V c Hc.
  - cbn. by rewrite app_nil_r.
  - change (run_events E (ev :: evs) c)
      with (run_events E evs (step E ev c)).
    eapply settled_mono; [|apply IH, step_settled, Hc].
    intros x. rewrite <- app_assoc.
    assert (Hcons : edits (ev :: evs) = edits [ev] ++ edits evs)
      by (by destruct ev).
    by rewrite Hcons.
Qed.

Lemma useDeepValues_settled E val evs :
  complete_record E (val :: edits evs) (useDeepValues E val evs).
Proof.
  unfold useDeepValues.
  pose proof (run_events_settled E (Edit val :: evs) [] (initial_config E))
    as [H _]; [|exact H].
  split; [by left|]. by split; [constructor|].
Qed.

(** X12: what the caller of [useDeepValues] observes is always a complete
    record, however the firings of the watcher overlap and whatever the
    requests are answered: the initial record, holding just the current
    user, or the composite record of a recomputation for one of the values
    the edited record has taken, compared with the empty record or with
    another of those values.  A firing that is skipped, fails or still
    awaits an answer shows nothing of its own. *)
Theorem useDeepValues_emits_complete_records (E : env) (val : obj)
    (evs : list event) :
  useDeepValues E val evs = [("__currentUser", env_currentUser E)] ∨
  ∃ v old rd,
    v ∈ val :: edits evs ∧ (old = [] ∨ old ∈ val :: edits evs) ∧
    useDeepValues E val evs = compose_final E (null_removed old v) rd ∧
    ∀ k, obj_has k rd = true → resolved_key E k.
Proof. apply useDeepValues_settled. Qed.

(** X13: the emitted record always binds [__currentUser] to the current
    user, however the firings overlap and whatever the requests are
    answered; a field of that name in the edited record never shows
    through. *)
Theorem current_user_always_emitted (E : env) (val : obj)
    (evs : list event) :
  obj_get "__currentUser" (useDeepValues E val evs) = Some (env_currentUser E).
Proof.
  destruct (useDeepValues_settled E val evs)
    as [->|(v & old & rd & _ & _ & -> & _)].
  - done.
  - apply obj_get_set_eq.
Qed.

(** Two overlapping edits: the author is changed from 5 to 6 while the
    entity of author 5 is still awaited; the answer for 6 arrives first,
    and the record emitted last is the one of the first edit. *)
Example overlapping_edits :
  useDeepValues (posts_env "{{author.title}}") [("author", VNum 5)]
    [Edit [("author", VNum 6)];
     Answer 1 (Some (VArr [demo_entity (VNum 6)]));
     Answer 0 (Some (VArr [demo_entity (VNum 5)]))]
  = [("author", VObj [("id", VNum 5); ("title", VStr "stored")]);
     ("__currentUser", VObj [("id", VStr "u1")])].
Proof. by vm_compute. Qed.
